(** * Sudoku-Solver: a shallow embedding of [sudoku.c]

    The validation engine ([checkRow], [checkCol], [checkSubgrid],
    [checkPuzzle]) and the single-candidate filler ([solveMissingNumber])
    are embedded as state-passing functions over an explicit memory; the
    reader, the printer and [main] are embedded over the text of the file
    and of the standard output.

    Conventions.
    - A C [int] is a [Z].  Every array is a list read and written through
      [zload] and [zstore], which return [None] outside the bounds of the
      array: [None] stands for a run whose behaviour C leaves undefined.
      The arithmetic of the program stays far below [INT_MAX] (a grid of
      size [psize] holds [psize * psize] integers), so no wrap-around is
      written out.
    - A [for] loop is [for_loop] over the list of values its counter takes;
      a loop whose body may [break] is [for_break].
    - The threads of [checkPuzzle] write to disjoint slots of
      [listInvalid] and [listComplete] and only read the grid; the embedding
      runs thread [i] to completion when it is joined. *)

From Stdlib Require Import ZArith Ascii.
From stdpp Require Import base tactics option numbers list list_numbers sorting
  strings.

Open Scope Z_scope.

(** ** Arrays and the grid *)

Definition zload {A} (a : list A) (i : Z) : option A :=
  if decide (0 ≤ i) then a !! Z.to_nat i else None.

Definition zstore {A} (a : list A) (i : Z) (x : A) : option (list A) :=
  if decide (0 ≤ i < Z.of_nat (length a)) then Some (<[Z.to_nat i := x]> a)
  else None.

(** [int **grid]: a list of rows, each a list of cells.  Row 0 and column 0
    exist but are never used by the program. *)
Abbreviation grid_t := (list (list Z)).

(** [grid[r][c]] *)
Definition cell (g : grid_t) (r c : Z) : option Z :=
  line ← zload g r; zload line c.

(** [grid[r][c] = v] *)
Definition store_cell (g : grid_t) (r c : Z) (v : Z) : option grid_t :=
  line ← zload g r;
  line' ← zstore line c v;
  zstore g r line'.

(** ** Loops *)

Fixpoint for_loop {S} (idx : list Z) (body : Z → S → option S) (s : S)
  : option S :=
  match idx with
  | [] => Some s
  | i :: idx' => s' ← body i s; for_loop idx' body s'
  end.

Inductive flow (S : Type) : Type :=
| Next (s : S)
| Break (s : S).
Arguments Next {S} s.
Arguments Break {S} s.

Fixpoint for_break {S} (idx : list Z) (body : Z → S → option (flow S)) (s : S)
  : option S :=
  match idx with
  | [] => Some s
  | i :: idx' =>
      f ← body i s;
      match f with
      | Next s' => for_break idx' body s'
      | Break s' => Some s'
      end
  end.

(** The values of [i] in [for (i = lo; i <= hi; i += step)]. *)
Fixpoint stride (fuel : nat) (i hi step : Z) : list Z :=
  match fuel with
  | O => []
  | S fuel' => if decide (i ≤ hi) then i :: stride fuel' (i + step) hi step
               else []
  end.

(** [(int)sqrt(n)]: the square root of a negative [double] is NaN, whose
    conversion to [int] is undefined; otherwise the conversion truncates,
    and on the range of [int] the result is the integer square root. *)
Definition int_sqrt (n : Z) : option Z :=
  if decide (0 ≤ n) then Some (Z.sqrt n) else None.

(** ** The memory of the validation engine

    [parameters] is the C struct without its field [grid]: every thread is
    given the one grid of the call, which is the field [grid] of [mem].  The
    two pointers of the struct are the indices of the slots they point to. *)

Record parameters : Type := {
  row : Z;
  column : Z;
  psize : Z;
  complete : Z;   (* [&listComplete[complete]] *)
  invalid : Z     (* [&listInvalid[invalid]] *)
}.

Record mem : Type := {
  grid : grid_t;
  listInvalid : list bool;
  listComplete : list bool
}.

(** [*(data->invalid) = true] *)
Definition set_invalid (data : parameters) (m : mem) : option mem :=
  l ← zstore (listInvalid m) (invalid data) true;
  Some {| grid := grid m; listInvalid := l; listComplete := listComplete m |}.

(** [*(data->complete) = false] *)
Definition clear_complete (data : parameters) (m : mem) : option mem :=
  l ← zstore (listComplete m) (complete data) false;
  Some {| grid := grid m; listInvalid := listInvalid m; listComplete := l |}.

(** ** Unit checks *)

(** The local state of a row or column scan. *)
Record scan : Type := {
  seen : list bool;
  rowComplete : bool;
  scan_mem : mem
}.

Definition scan_step (val : Z) (data : parameters) (s : scan)
  : option (flow scan) :=
  if decide (val ≤ 0) then
    Some (Next {| seen := seen s; rowComplete := false;
                  scan_mem := scan_mem s |})
  else
    b ← zload (seen s) val;
    if b : bool then
      m' ← set_invalid data (scan_mem s);
      Some (Break {| seen := seen s; rowComplete := rowComplete s;
                     scan_mem := m' |})
    else
      seen' ← zstore (seen s) val true;
      Some (Next {| seen := seen'; rowComplete := rowComplete s;
                    scan_mem := scan_mem s |}).

Definition scan_finish (data : parameters) (s : scan) : option mem :=
  if rowComplete s then Some (scan_mem s)
  else clear_complete data (scan_mem s).

Definition checkCol (data : parameters) (m : mem) : option mem :=
  let size := psize data in
  let s0 := {| seen := replicate (Z.to_nat (size + 1)) false;
               rowComplete := true; scan_mem := m |} in
  s ← for_break (seqZ 1 size)
        (λ row s, val ← cell (grid (scan_mem s)) row (column data);
                  scan_step val data s) s0;
  scan_finish data s.

Definition checkRow (data : parameters) (m : mem) : option mem :=
  let size := psize data in
  let s0 := {| seen := replicate (Z.to_nat (size + 1)) false;
               rowComplete := true; scan_mem := m |} in
  s ← for_break (seqZ 1 size)
        (λ col s, val ← cell (grid (scan_mem s)) (row data) col;
                  scan_step val data s) s0;
  scan_finish data s.

(** The local state of a subgrid scan. *)
Record subscan : Type := {
  sub_seen : list bool;
  incrementC : Z;
  incrementR : Z;
  sub_mem : mem
}.

Definition checkSubgrid_inner (data : parameters) (_ : Z) (s : subscan)
  : option (flow subscan) :=
  val ← cell (grid (sub_mem s)) (row data + incrementR s)
                                (column data + incrementC s);
  b ← zload (sub_seen s) val;
  if b : bool then
    m' ← set_invalid data (sub_mem s);
    Some (Break {| sub_seen := sub_seen s; incrementC := incrementC s;
                   incrementR := incrementR s; sub_mem := m' |})
  else
    seen' ← zstore (sub_seen s) val true;
    Some (Next {| sub_seen := seen'; incrementC := incrementC s + 1;
                  incrementR := incrementR s; sub_mem := sub_mem s |}).

Definition checkSubgrid_outer (data : parameters) (subGridSize : Z) (_ : Z)
  (s : subscan) : option subscan :=
  let s1 := {| sub_seen := sub_seen s; incrementC := 0;
               incrementR := incrementR s; sub_mem := sub_mem s |} in
  s2 ← for_break (seqZ 1 subGridSize) (checkSubgrid_inner data) s1;
  Some {| sub_seen := sub_seen s2; incrementC := incrementC s2;
          incrementR := incrementR s2 + 1; sub_mem := sub_mem s2 |}.

Definition checkSubgrid (data : parameters) (m : mem) : option mem :=
  subGridSize ← int_sqrt (psize data);
  let s0 := {| sub_seen := replicate (Z.to_nat (psize data + 1)) false;
               incrementC := 0; incrementR := 0; sub_mem := m |} in
  s ← for_loop (seqZ 1 subGridSize) (checkSubgrid_outer data subGridSize) s0;
  Some (sub_mem s).

(** ** The orchestrator *)

(** The start routine given to [pthread_create]. *)
Inductive routine : Type := CheckRow | CheckCol | CheckSubgrid.

#[global] Instance routine_eq_dec : EqDecision routine.
Proof. solve_decision. Defined.

Definition start (f : routine) : parameters → mem → option mem :=
  match f with
  | CheckRow => checkRow
  | CheckCol => checkCol
  | CheckSubgrid => checkSubgrid
  end.

(** [params] and [threads] together: slot [i] is [None] until the thread
    is created. *)
Record spawner : Type := {
  threadIndex : Z;
  params : list (option (routine * parameters))
}.

Definition create (f : routine) (r c n : Z) (sp : spawner) : option spawner :=
  let p := {| row := r; column := c; psize := n;
              complete := threadIndex sp; invalid := threadIndex sp |} in
  ps ← zstore (params sp) (threadIndex sp) (Some (f, p));
  Some {| threadIndex := threadIndex sp + 1; params := ps |}.

Definition spawn_row_col (n : Z) (i : Z) (sp : spawner) : option spawner :=
  sp1 ← create CheckRow i 1 n sp;
  create CheckCol 1 i n sp1.

Definition spawn_subgrids (n subGridSize : Z) (sp : spawner)
  : option spawner :=
  for_loop (stride (Z.to_nat n) 1 n subGridSize)
    (λ r sp, for_loop (stride (Z.to_nat n) 1 n subGridSize)
               (λ c sp, create CheckSubgrid r c n sp) sp) sp.

(** The state of the join loop: the memory, [*complete] and [*valid]. *)
Record verdict : Type := {
  v_mem : mem;
  v_complete : bool;
  v_valid : bool
}.

Definition join (ps : list (option (routine * parameters))) (i : Z)
  (v : verdict) : option verdict :=
  th ← mjoin (zload ps i);
  m' ← start th.1 th.2 (v_mem v);
  inv ← zload (listInvalid m') (invalid th.2);
  cmp ← zload (listComplete m') (complete th.2);
  Some {| v_mem := m';
          v_complete := if cmp : bool then v_complete v else false;
          v_valid := if inv : bool then false else v_valid v |}.

(** [checkPuzzle(psize, grid, complete, valid)], with [n] for [psize]: the
    result is the grid after the call, [*complete] and [*valid].  The
    arrays have length 0 when [totalThreads] is 0, and are then never
    accessed. *)
Definition checkPuzzle (n : Z) (g : grid_t) : option (grid_t * bool * bool) :=
  sqrtPsize ← int_sqrt n;
  let flag := bool_decide (sqrtPsize * sqrtPsize = n)
              && bool_decide (sqrtPsize > 1) in
  let subGridSize := sqrtPsize in
  let totalThreads := n * 2 + (if flag then n else 0) in
  let sp0 := {| threadIndex := 0;
                params := replicate (Z.to_nat totalThreads) None |} in
  let m0 := {| grid := g;
               listInvalid := replicate (Z.to_nat totalThreads) false;
               listComplete := replicate (Z.to_nat totalThreads) true |} in
  sp1 ← for_loop (seqZ 1 n) (spawn_row_col n) sp0;
  sp2 ← (if flag then spawn_subgrids n subGridSize sp1 else Some sp1);
  v ← for_loop (seqZ 0 totalThreads) (join (params sp2))
        {| v_mem := m0; v_complete := true; v_valid := true |};
  Some (grid (v_mem v), v_complete v, v_valid v).

(** ** The single-candidate filler *)

(** The state of [solveMissingNumber]: the grid and the local
    [missingNum], [None] while it is uninitialised. *)
Record solver : Type := {
  s_grid : grid_t;
  missingNum : option Z
}.

(** The body of the loop that strikes the row and column values out of
    [possible]. *)
Definition mark (g : grid_t) (r c : Z) (num : Z) (possible : list bool)
  : option (list bool) :=
  a ← cell g r num;
  p1 ← (if decide (a > 0) then zstore possible a false else Some possible);
  b ← cell g num c;
  if decide (b > 0) then zstore p1 b false else Some p1.

(** The body of the counting loop, on the pair [(countPossible,
    missingNum)]. *)
Definition count (possible : list bool) (num : Z) (st : Z * option Z)
  : option (Z * option Z) :=
  p ← zload possible num;
  if p : bool then Some (st.1 + 1, Some num) else Some st.

(** The body of the two loops over [row] and [col], with [n] for
    [psize]. *)
Definition solve_cell (n : Z) (r c : Z) (s : solver) : option solver :=
  v ← cell (s_grid s) r c;
  if decide (v = 0) then
    possible ← for_loop (seqZ 1 n) (mark (s_grid s) r c)
                 (replicate (Z.to_nat (n + 1)) true);
    '(countPossible, mn) ← for_loop (seqZ 1 n) (count possible)
                             (0, missingNum s);
    if decide (countPossible = 1) then
      k ← mn;
      g' ← store_cell (s_grid s) r c k;
      Some {| s_grid := g'; missingNum := mn |}
    else Some {| s_grid := s_grid s; missingNum := mn |}
  else Some s.

Definition solveMissingNumber (g : grid_t) (n : Z) : option grid_t :=
  s ← for_loop (seqZ 1 n)
        (λ r s, for_loop (seqZ 1 n) (λ c s, solve_cell n r c s) s)
        {| s_grid := g; missingNum := None |};
  Some (s_grid s).

(** ** Input and output

    The standard output is the text printed, a [string]; the files that
    can be opened are a partial map from names to their contents.  The
    library calls are embedded as the C standard describes them:
    - [fscanf(fp, "%d", &x)] skips white space, reads an optional sign and
      the longest run of decimal digits, and leaves the rest of the stream.
      The program ignores the value [fscanf] returns: after a failed
      conversion [x] holds no determined value, and a value that does not
      fit an [int] (of 32 bits) is undefined; both are [None].
    - [printf("%d", x)] prints [x] in decimal, with a minus sign below 0.
    - [malloc] is taken to succeed; the rows it returns hold no determined
      values until [fscanf] fills them, and row 0 is never allocated.  Cell 0
      of a row, which the program never reads, is written 0 here, and row 0
      is the empty list, as in [puzzle] below.
    - [exit] ends the program with the text printed so far. *)

Definition nl : string := String "010" "".

Definition INT_MAX : Z := 2147483647.
Definition INT_MIN : Z := -2147483648.

(** [isspace] in the C locale. *)
Definition is_space (c : ascii) : bool :=
  let n := Z.of_nat (nat_of_ascii c) in
  bool_decide (n = 32) || bool_decide (9 ≤ n ≤ 13).

Definition digit_of (c : ascii) : option Z :=
  let n := Z.of_nat (nat_of_ascii c) in
  if decide (48 ≤ n ≤ 57) then Some (n - 48) else None.

Fixpoint skip_space (s : string) : string :=
  match s with
  | String c s' => if is_space c then skip_space s' else s
  | EmptyString => s
  end.

Fixpoint scan_digits (s : string) (acc : Z) : Z * string :=
  match s with
  | String c s' =>
      match digit_of c with
      | Some d => scan_digits s' (10 * acc + d)
      | None => (acc, s)
      end
  | EmptyString => (acc, s)
  end.

(** The optional sign of a number: whether it is a minus, and the stream
    after it. *)
Definition sign_of (s : string) : bool * string :=
  match s with
  | String "-" s' => (true, s')
  | String "+" s' => (false, s')
  | _ => (false, s)
  end.

(** [fscanf(fp, "%d", &x)] on the stream [s]: the value stored and the
    stream left. *)
Definition scan_int (s : string) : option (Z * string) :=
  let '(neg, s2) := sign_of (skip_space s) in
  match s2 with
  | String c _ =>
      match digit_of c with
      | Some _ =>
          let '(v, rest) := scan_digits s2 0 in
          let z := if neg : bool then - v else v in
          if decide (INT_MIN ≤ z ≤ INT_MAX) then Some (z, rest) else None
      | None => None
      end
  | EmptyString => None
  end.

Definition digit_char (d : Z) : ascii := ascii_of_nat (Z.to_nat (48 + d)).

(** The decimal digits of [z ≥ 0], most significant first, before
    [acc]. *)
Fixpoint print_digits (fuel : nat) (z : Z) (acc : string) : string :=
  match fuel with
  | O => acc
  | S fuel' =>
      let acc' := String (digit_char (z mod 10)) acc in
      if decide (z < 10) then acc' else print_digits fuel' (z / 10) acc'
  end.

(** The text of [printf("%d", z)]. *)
Definition print_int (z : Z) : string :=
  if decide (z < 0) then
    String "-" (print_digits (S (Z.to_nat (- z))) (- z) "")
  else print_digits (S (Z.to_nat z)) z "".

(** A call either returns or ends the program through [exit], with the
    text it has printed. *)
Inductive outcome (A : Type) : Type :=
| Returns (a : A)
| Exits (out : string).
Arguments Returns {A} a.
Arguments Exits {A} out.

(** The state of the reading loops: the stream and [agrid]. *)
Record reader : Type := {
  stream : string;
  agrid : grid_t
}.

(** [readSudokuPuzzle(filename, &grid)]: the size returned and [*grid]. *)
Definition readSudokuPuzzle (fs : string → option string) (filename : string)
  : option (outcome (Z * grid_t)) :=
  match fs filename with
  | None => Some (Exits ("Could not open file " +:+ filename +:+ nl))
  | Some content =>
      '(psize, rest) ← scan_int content;
      if decide (psize + 1 ≤ INT_MAX) then
        rd ← for_loop (seqZ 1 psize)
               (λ row rd,
                  g1 ← zstore (agrid rd) row
                         (replicate (Z.to_nat (psize + 1)) 0);
                  for_loop (seqZ 1 psize)
                    (λ col rd,
                       '(v, rest) ← scan_int (stream rd);
                       g ← store_cell (agrid rd) row col v;
                       Some {| stream := rest; agrid := g |})
                    {| stream := stream rd; agrid := g1 |})
               {| stream := rest;
                  agrid := replicate (Z.to_nat (psize + 1)) [] |};
        Some (Returns (psize, agrid rd))
      else None
  end.

(** [printSudokuPuzzle(psize, grid)]: the text printed. *)
Definition printSudokuPuzzle (psize : Z) (g : grid_t) : option string :=
  out ← for_loop (seqZ 1 psize)
          (λ row out,
             out1 ← for_loop (seqZ 1 psize)
                      (λ col out,
                         v ← cell g row col;
                         Some (out +:+ print_int v +:+ " "))
                      out;
             Some (out1 +:+ nl))
          (print_int psize +:+ nl);
  Some (out +:+ nl).

(** ** The program *)

Inductive exit_status : Type := EXIT_SUCCESS | EXIT_FAILURE.

(** [main(argc, argv)], with [argc] the length of [argv]: the text printed
    and the exit status.  [deleteSudokuPuzzle] frees what
    [readSudokuPuzzle] allocated and has no other effect. *)
Definition main (fs : string → option string) (argv : list string)
  : option (string * exit_status) :=
  if decide (Z.of_nat (length argv) ≠ 2) then
    Some ("Usage: ./sudoku puzzle.txt" +:+ nl, EXIT_FAILURE)
  else
    filename ← argv !! 1%nat;
    r ← readSudokuPuzzle fs filename;
    match r with
    | Exits out => Some (out, EXIT_FAILURE)
    | Returns (sudokuSize, g0) =>
        '(g1, complete, valid) ← checkPuzzle sudokuSize g0;
        '(out, g2) ←
          (if complete : bool then
             Some ("Complete puzzle? true" +:+ nl
                   +:+ (if valid : bool then "Valid puzzle? true" +:+ nl
                        else "Valid puzzle? false" +:+ nl),
                   g1)
           else
             p ← printSudokuPuzzle sudokuSize g1;
             g ← for_loop (seqZ 0 5)
                   (λ _ g, solveMissingNumber g sudokuSize) g1;
             Some ("Complete puzzle? false." +:+ nl +:+ p
                   +:+ "Solve result: " +:+ nl, g));
        p ← printSudokuPuzzle sudokuSize g2;
        Some (out +:+ p, EXIT_SUCCESS)
    end.

(** * Specification-level notions

    The predicates below are boolean so that they can be evaluated on a
    concrete grid; they are used as propositions through [Is_true]. *)

(** A grid literal: the rows of the puzzle, padded with the unused row 0
    and column 0. *)
Definition puzzle (rows : list (list Z)) : grid_t :=
  [] :: map (λ r, 0 :: r) rows.

(** Every cell of the [n] x [n] grid exists and its value satisfies
    [ok]. *)
Definition all_cells (n : Z) (g : grid_t) (ok : Z → bool) : bool :=
  forallb (λ r,
    forallb (λ c,
      match cell g r c with
      | Some v => ok v
      | None => false
      end) (seqZ 1 n)) (seqZ 1 n).

(** The grid of the data model: cells hold 0 (empty) or a digit of
    [1..n]. *)
Definition well_formed (n : Z) (g : grid_t) : bool :=
  all_cells n g (λ v, bool_decide (0 ≤ v ≤ n)).

(** No cell is empty: every cell holds a digit of [1..n]. *)
Definition fully_filled (n : Z) (g : grid_t) : bool :=
  all_cells n g (λ v, bool_decide (1 ≤ v ≤ n)).

(** No cell holds more than [n]: all that the row and column scans need
    for their accesses to [seen] to stay inside the array. *)
Definition bounded (n : Z) (g : grid_t) : bool :=
  all_cells n g (λ v, bool_decide (v ≤ n)).

(** No cell holds 0. *)
Definition no_empty (n : Z) (g : grid_t) : bool :=
  all_cells n g (λ v, bool_decide (v ≠ 0)).

(** The content of a cell, 0 where the grid has no such cell. *)
Definition value (g : grid_t) (r c : Z) : Z := default 0 (cell g r c).

(** The units: the cells of a row, of a column, and of the block of side
    [s] anchored at [(r0, c0)], in scan order. *)
Definition row_unit (n : Z) (g : grid_t) (r : Z) : list Z :=
  (λ c, value g r c) <$> seqZ 1 n.

Definition col_unit (n : Z) (g : grid_t) (c : Z) : list Z :=
  (λ r, value g r c) <$> seqZ 1 n.

Definition block_rows (s : Z) (g : grid_t) (r0 c0 : Z) : list (list Z) :=
  (λ i, (λ j, value g (r0 + i) (c0 + j)) <$> seqZ 0 s) <$> seqZ 0 s.

Definition subgrid_unit (s : Z) (g : grid_t) (r0 c0 : Z) : list Z :=
  concat (block_rows s g r0 c0).

(** The first row (or column) of each band of blocks of side [s]: the
    values of [row] in [for (row = 1; row <= s * s; row += s)]. *)
Definition block_starts (s : Z) : list Z := (λ a, 1 + a * s) <$> seqZ 0 s.

(** [flag] of [checkPuzzle]: the size is a perfect square above 1. *)
Definition has_subgrids (n : Z) : bool :=
  bool_decide (Z.sqrt n * Z.sqrt n = n) && bool_decide (Z.sqrt n > 1).

(** The units of the grid: its rows, its columns and, when the size is a
    perfect square above 1, its blocks. *)
Definition rows (n : Z) (g : grid_t) : list (list Z) :=
  row_unit n g <$> seqZ 1 n.

Definition cols (n : Z) (g : grid_t) : list (list Z) :=
  col_unit n g <$> seqZ 1 n.

Definition blocks (n : Z) (g : grid_t) : list (list Z) :=
  r0 ← block_starts (Z.sqrt n); c0 ← block_starts (Z.sqrt n);
  [subgrid_unit (Z.sqrt n) g r0 c0].

Definition units (n : Z) (g : grid_t) : list (list Z) :=
  rows n g ++ cols n g ++ (if has_subgrids n then blocks n g else []).

(** The Sudoku rules: no value occurs twice in a unit. *)
Definition sudoku_rules (n : Z) (g : grid_t) : bool :=
  forallb (λ u, bool_decide (NoDup u)) (units n g).

(** The filled cells of a unit. *)
Definition nonzero (u : list Z) : list Z := filter (λ v, v ≠ 0) u.

(** Some unit holds a duplicate nonzero value. *)
Definition has_duplicate (n : Z) (g : grid_t) : bool :=
  existsb (λ u, negb (bool_decide (NoDup (nonzero u)))) (units n g).

(** The number of empty cells of a unit. *)
Definition empties (u : list Z) : nat := length (filter (λ v, v = 0) u).

(** No block holds two empty cells. *)
Definition blocks_one_empty (n : Z) (g : grid_t) : bool :=
  forallb (λ u, bool_decide (empties u ≤ 1)%nat)
    (if has_subgrids n then blocks n g else []).

(** Some cell of the grid is empty. *)
Definition has_empty (n : Z) (g : grid_t) : bool :=
  existsb (λ r, existsb (λ c, bool_decide (cell g r c = Some 0)) (seqZ 1 n))
    (seqZ 1 n).

(** The values in the row and in the column of the cell [(r, c)]. *)
Definition peers (n : Z) (g : grid_t) (r c : Z) : list Z :=
  row_unit n g r ++ col_unit n g c.

(** The candidate set of the cell [(r, c)] in the words of the
    specification: the digits [1..n] minus the nonzero values in its row
    and column. *)
Definition candidates (n : Z) (g : grid_t) (r c : Z) : list Z :=
  filter (λ k, k ∉ nonzero (peers n g r c)) (seqZ 1 n).

(** The cells of the grid in row-major order. *)
Definition cells (n : Z) : list (Z * Z) :=
  r ← seqZ 1 n; c ← seqZ 1 n; [(r, c)].

(** Row-major order on cells. *)
Definition row_major (a b : Z * Z) : Prop :=
  a.1 < b.1 ∨ (a.1 = b.1 ∧ a.2 < b.2).

(** The filler run over a list of cells, one after the other, on the
    same state. *)
Fixpoint fill_cells (n : Z) (l : list (Z * Z)) (s : solver) : option solver :=
  match l with
  | [] => Some s
  | (r, c) :: l' => s' ← solve_cell n r c s; fill_cells n l' s'
  end.

(** The unit scan in the words of the specification: keep a seen-set;
    a value [v ≤ 0] marks the unit incomplete and the scan continues; a
    value [v > 0] already seen marks a duplicate and stops the scan;
    otherwise [v] is recorded as seen.  The result is the pair
    (duplicate-found, incomplete-found). *)
Fixpoint unit_scan (vals : list Z) (seen_set : list Z) (incomplete : bool)
  : bool * bool :=
  match vals with
  | [] => (false, incomplete)
  | v :: vals' =>
      if decide (v ≤ 0) then unit_scan vals' seen_set true
      else if decide (v ∈ seen_set) then (true, incomplete)
      else unit_scan vals' (v :: seen_set) incomplete
  end.

(** The scan of a block, row by row: a value already seen ends the scan
    of its row of the block. *)
Fixpoint block_row_scan (vals : list Z) (seen_set : list Z)
  : bool * list Z :=
  match vals with
  | [] => (false, seen_set)
  | v :: vals' =>
      if decide (v ∈ seen_set) then (true, seen_set)
      else block_row_scan vals' (v :: seen_set)
  end.

Fixpoint block_scan (rows : list (list Z)) (seen_set : list Z) : bool :=
  match rows with
  | [] => false
  | r :: rows' =>
      let '(d, seen') := block_row_scan r seen_set in
      d || block_scan rows' seen'
  end.

(** What a unit check leaves in memory: its own two slots, written when
    the flags say so. *)
Definition flagged (dup inc : bool) (p : parameters) (m : mem) : mem :=
  {| grid := grid m;
     listInvalid := if dup then <[Z.to_nat (invalid p) := true]> (listInvalid m)
                    else listInvalid m;
     listComplete := if inc
                     then <[Z.to_nat (complete p) := false]> (listComplete m)
                     else listComplete m |}.

(** A boolean array indexed by the values [0..n] records a set of values:
    it has [n + 1] entries, and entry [v] is [b] iff [v] is in the set.
    With [b = true] this is [seen] of the unit checks; with [b = false] it
    is [possible] of the filler, which records the excluded values. *)
Definition marks (b : bool) (n : Z) (a : list bool) (vs : list Z) : Prop :=
  length a = Z.to_nat (n + 1) ∧
  ∀ v, 0 ≤ v ≤ n →
       a !! Z.to_nat v = Some (if bool_decide (v ∈ vs) then b else negb b).

(** The slots of a thread lie inside the two result arrays. *)
Definition slots_ok (p : parameters) (m : mem) : Prop :=
  0 ≤ invalid p < Z.of_nat (length (listInvalid m)) ∧
  0 ≤ complete p < Z.of_nat (length (listComplete m)).

(** ** The threads of [checkPuzzle]

    A thread is described by its start routine and the anchor [(row,
    column)] of its unit; its slot is its position in creation order. *)
Abbreviation thread := (routine * Z * Z)%type.

Definition row_col_threads (i : Z) : list thread :=
  [(CheckRow, i, 1); (CheckCol, 1, i)].

Definition subgrid_threads (s : Z) : list thread :=
  r ← block_starts s; c ← block_starts s; [(CheckSubgrid, r, c)].

Definition threads_of (n : Z) : list thread :=
  (seqZ 1 n ≫= row_col_threads)
  ++ (if has_subgrids n then subgrid_threads (Z.sqrt n) else []).

(** The parameters of the threads [ts], created from slot [k] on. *)
Fixpoint mk_params (n : Z) (k : Z) (ts : list thread)
  : list (routine * parameters) :=
  match ts with
  | [] => []
  | (f, r, c) :: ts' =>
      (f, {| row := r; column := c; psize := n; complete := k; invalid := k |})
      :: mk_params n (k + 1) ts'
  end.

(** The spawner after the threads [ts] were created, [free] slots left. *)
Definition spawned (n : Z) (ts : list thread) (free : nat) : spawner :=
  {| threadIndex := Z.of_nat (length ts);
     params := (Some <$> mk_params n 0 ts) ++ replicate free None |}.

(** The flags (duplicate-found, incomplete-found) a thread reports on the
    grid [g]. *)
Definition unit_flags (n : Z) (g : grid_t) (t : thread) : bool * bool :=
  match t with
  | (CheckRow, r, _) => unit_scan (row_unit n g r) [] false
  | (CheckCol, _, c) => unit_scan (col_unit n g c) [] false
  | (CheckSubgrid, r, c) =>
      (block_scan (block_rows (Z.sqrt n) g r c) [], false)
  end.

(** The unit a thread scans. *)
Definition unit_of (n : Z) (g : grid_t) (t : thread) : list Z :=
  match t with
  | (CheckRow, r, _) => row_unit n g r
  | (CheckCol, _, c) => col_unit n g c
  | (CheckSubgrid, r, c) => subgrid_unit (Z.sqrt n) g r c
  end.

(** The aggregate flags over a list of threads. *)
Definition all_complete (n : Z) (g : grid_t) (ts : list thread) : bool :=
  forallb (λ t, negb (unit_flags n g t).2) ts.

Definition all_valid (n : Z) (g : grid_t) (ts : list thread) : bool :=
  forallb (λ t, negb (unit_flags n g t).1) ts.

(** The thread [t], run with any parameters that name its unit and own
    slots inside the arrays, writes its flags and nothing else. *)
Definition thread_ok (n : Z) (g : grid_t) (t : thread) : Prop :=
  ∀ (k : Z) (m : mem),
    grid m = g →
    let p := {| row := t.1.2; column := t.2; psize := n;
                complete := k; invalid := k |} in
    slots_ok p m →
    start t.1.1 p m
    = Some (flagged (unit_flags n g t).1 (unit_flags n g t).2 p m).

(** While the threads are joined: slots from [k] on are still as
    initialised. *)
Definition untouched_from (k : nat) (total : nat) (m : mem) : Prop :=
  length (listInvalid m) = total ∧ length (listComplete m) = total ∧
  ∀ j, (k ≤ j < total)%nat →
       listInvalid m !! j = Some false ∧ listComplete m !! j = Some true.

(** ** Further notions about the filler *)

(** No row and no column holds a duplicate nonzero value. *)
Definition rows_cols_distinct (n : Z) (g : grid_t) : bool :=
  forallb (λ u, bool_decide (NoDup (nonzero u))) (rows n g ++ cols n g).

(** A Latin square of size [n]: every cell holds a digit of [1..n] and no
    row or column repeats one.  Every solved Sudoku is one. *)
Definition latin_square (n : Z) (sol : grid_t) : bool :=
  fully_filled n sol
  && forallb (λ u, bool_decide (NoDup u)) (rows n sol ++ cols n sol).

(** Every filled cell of [g] holds what [sol] holds there. *)
Definition agrees (n : Z) (g sol : grid_t) : bool :=
  forallb (λ rc : Z * Z,
             bool_decide (value g rc.1 rc.2 = 0
                          ∨ value g rc.1 rc.2 = value sol rc.1 rc.2))
    (cells n).

(** The empty cells of [g] that have exactly one candidate in [g]. *)
Definition determined (n : Z) (g : grid_t) : list (Z * Z) :=
  filter (λ rc : Z * Z,
            cell g rc.1 rc.2 = Some 0
            ∧ length (candidates n g rc.1 rc.2) = 1%nat)
    (cells n).

(** What the valid flag of [checkPuzzle] stands for: no row and no column
    repeats a digit and, when the size is a perfect square above 1, no
    block repeats a value, 0 included. *)
Definition checked_valid (n : Z) (g : grid_t) : bool :=
  rows_cols_distinct n g
  && forallb (λ u, bool_decide (NoDup u))
       (if has_subgrids n then blocks n g else []).

(** ** Further notions about the threads *)

(** The creation phase of [checkPuzzle] on its own: [threadIndex] and
    [params] when the join loop starts. *)
Definition spawn_threads (n : Z) : option spawner :=
  sqrtPsize ← int_sqrt n;
  let flag := bool_decide (sqrtPsize * sqrtPsize = n)
              && bool_decide (sqrtPsize > 1) in
  let totalThreads := n * 2 + (if flag then n else 0) in
  sp1 ← for_loop (seqZ 1 n) (spawn_row_col n)
          {| threadIndex := 0;
             params := replicate (Z.to_nat totalThreads) None |};
  if flag then spawn_subgrids n sqrtPsize sp1 else Some sp1.

(** The memory of [checkPuzzle] when the threads are created, for
    [total] threads. *)
Definition initial_mem (g : grid_t) (total : nat) : mem :=
  {| grid := g; listInvalid := replicate total false;
     listComplete := replicate total true |}.

(** A schedule: the threads run to completion one after the other, in the
    order of the list. *)
Fixpoint run_threads (sched : list (routine * parameters)) (m : mem)
  : option mem :=
  match sched with
  | [] => Some m
  | (f, p) :: sched' => m' ← start f p m; run_threads sched' m'
  end.

(** An entry of a schedule of [checkPuzzle] on the grid [g]: a thread of
    the call, with a slot inside the arrays. *)
Definition sched_ok (n : Z) (g : grid_t) (total : nat)
    (fp : routine * parameters) : Prop :=
  ∃ (t : thread) (k : Z),
    thread_ok n g t ∧ 0 ≤ k < Z.of_nat total
    ∧ fp = (t.1.1, {| row := t.1.2; column := t.2; psize := n;
                      complete := k; invalid := k |}).

(** ** Notions about input and output *)

(** [k] integers read one after the other from the stream [s]: their
    values and the stream left. *)
Fixpoint scan_ints (k : nat) (s : string) : option (list Z * string) :=
  match k with
  | O => Some ([], s)
  | S k' =>
      '(v, s1) ← scan_int s;
      '(vs, s2) ← scan_ints k' s1;
      Some (v :: vs, s2)
  end.

Definition scan_vals (k : nat) (s : string) : option (list Z) :=
  fst <$> scan_ints k s.

(** The integers [vs], each followed by a space, before [rest]. *)
Definition show_cells (vs : list Z) (rest : string) : string :=
  foldr (λ v acc, print_int v +:+ " " +:+ acc) rest vs.

(** The rows [rows], each followed by a newline, before [rest]. *)
Definition show_rows (rows : list (list Z)) (rest : string) : string :=
  foldr (λ row acc, show_cells row (nl +:+ acc)) rest rows.

(** The text of a puzzle of size [n] with the rows [rows]: the format
    [printSudokuPuzzle] writes and [readSudokuPuzzle] reads. *)
Definition show_puzzle (n : Z) (rows : list (list Z)) : string :=
  print_int n +:+ nl +:+ show_rows rows nl.

(** Every cell of the grid exists and holds an [int]. *)
Definition int_cells (n : Z) (g : grid_t) : bool :=
  all_cells n g (λ v, bool_decide (INT_MIN ≤ v ≤ INT_MAX)).

(** The text [content] holds a puzzle: as [fscanf] reads it, the size
    [n] and then the integers of the [n] rows [rws] of [n] cells. *)
Definition holds_puzzle (content : string) (n : Z) (rws : list (list Z))
  : bool :=
  bool_decide (0 ≤ n < INT_MAX)
  && bool_decide (length rws = Z.to_nat n)
  && forallb (λ row, bool_decide (length row = Z.to_nat n)) rws
  && bool_decide (scan_vals (S (length (concat rws))) content
                  = Some (n :: concat rws)).

(** The file system with the single file [name]. *)
Definition one_file (name content : string) (f : string) : option string :=
  if decide (f = name) then Some content else None.

(** [k] passes of the filler, as in the loop of [main]. *)
Definition passes (k : Z) (n : Z) (g : grid_t) : option grid_t :=
  for_loop (seqZ 0 k) (λ _ g, solveMissingNumber g n) g.

(** * Arrays *)

Section arrays.
Context {A : Type}.
Implicit Types (a : list A) (i : Z) (x : A).

Lemma zload_Some a i x :
  zload a i = Some x ↔ 0 ≤ i ∧ a !! Z.to_nat i = Some x.
Proof. unfold zload. destruct (decide (0 ≤ i)); naive_solver. Qed.

Lemma zload_nat a (k : nat) : zload a (Z.of_nat k) = a !! k.
Proof. unfold zload. rewrite decide_True by lia. by rewrite Nat2Z.id. Qed.

Lemma zload_in_range a i :
  0 ≤ i < Z.of_nat (length a) → is_Some (zload a i).
Proof.
  intros H. unfold zload. rewrite decide_True by lia.
  apply lookup_lt_is_Some. lia.
Qed.

Lemma zstore_in_range a i x :
  0 ≤ i < Z.of_nat (length a) → zstore a i x = Some (<[Z.to_nat i := x]> a).
Proof. intros H. unfold zstore. by rewrite decide_True. Qed.

Lemma zstore_Some a i x a' :
  zstore a i x = Some a' →
  0 ≤ i < Z.of_nat (length a) ∧ a' = <[Z.to_nat i := x]> a.
Proof.
  unfold zstore. destruct (decide (0 ≤ i < Z.of_nat (length a))); naive_solver.
Qed.

Lemma zload_replicate (k : nat) x i :
  0 ≤ i < Z.of_nat k → zload (replicate k x) i = Some x.
Proof.
  intros H. unfold zload. rewrite decide_True by lia.
  apply lookup_replicate_2. lia.
Qed.
End arrays.

(** * Loops *)

Section loops.
Context {S : Type}.

Lemma for_loop_app (l1 l2 : list Z) (body : Z → S → option S) (s : S) :
  for_loop (l1 ++ l2) body s = for_loop l1 body s ≫= for_loop l2 body.
Proof.
  revert s. induction l1 as [|i l1 IH]; intros s; simpl; [done|].
  destruct (body i s) as [s'|]; simpl; [apply IH | done].
Qed.

(** An invariant kept by every iteration holds at the end, and the loop
    does end. *)
Lemma for_loop_invariant (P : S → Prop) (l : list Z)
    (body : Z → S → option S) (s : S) :
  P s →
  (∀ i s, i ∈ l → P s → ∃ s', body i s = Some s' ∧ P s') →
  ∃ s', for_loop l body s = Some s' ∧ P s'.
Proof.
  revert s. induction l as [|i l IH]; intros s Hs Hbody; simpl.
  - eauto.
  - destruct (Hbody i s) as (s1 & -> & Hs1); [left | done |]. simpl.
    apply IH; [done|]. intros j t Hj. apply Hbody. by right.
Qed.

(** A loop over bodies that agree on the indices it visits. *)
Lemma for_loop_ext (l : list Z) (f g : Z → S → option S) (s : S) :
  (∀ i s, i ∈ l → f i s = g i s) → for_loop l f s = for_loop l g s.
Proof.
  revert s. induction l as [|i l IH]; intros s H; simpl; [done|].
  rewrite (H i s) by left.
  destruct (g i s) as [s'|]; simpl; [|done].
  apply IH. intros j t Hj. apply H. by right.
Qed.
(** What every iteration preserves is preserved by the loop. *)
Lemma for_loop_preserves (P : S → Prop) (l : list Z)
    (body : Z → S → option S) (s s' : S) :
  (∀ i s s', body i s = Some s' → P s → P s') →
  P s → for_loop l body s = Some s' → P s'.
Proof.
  intros Hbody. revert s. induction l as [|i l IH]; intros s Hs; simpl.
  - by intros [= <-].
  - destruct (body i s) as [s1|] eqn:Hi; simpl; [|done].
    apply IH. by eapply Hbody.
Qed.

Lemma for_break_preserves (P : S → Prop) (l : list Z)
    (body : Z → S → option (flow S)) (s s' : S) :
  (∀ i s s', body i s = Some (Next s') ∨ body i s = Some (Break s') →
             P s → P s') →
  P s → for_break l body s = Some s' → P s'.
Proof.
  intros Hbody. revert s. induction l as [|i l IH]; intros s Hs; simpl.
  - by intros [= <-].
  - destruct (body i s) as [[s1|s1]|] eqn:Hi; simpl; [| |done].
    + apply IH. eapply Hbody; eauto.
    + intros [= <-]. eapply Hbody; eauto.
Qed.
End loops.

(** [stride] with enough fuel lists the multiples that fit. *)
Lemma stride_spec (fuel : nat) (k s : Z) :
  0 < s → 0 ≤ k → (Z.to_nat (s - k) ≤ fuel)%nat →
  stride fuel (1 + k * s) (s * s) s
  = (λ a, 1 + a * s) <$> seqZ k (s - k).
Proof.
  intros Hs. revert k. induction fuel as [|fuel IH]; intros k Hk Hfuel; simpl.
  - rewrite seqZ_nil by lia. done.
  - case_decide as Hle.
    + assert (k < s) by nia.
      rewrite seqZ_cons by lia. simpl. f_equal.
      replace (1 + k * s + s) with (1 + Z.succ k * s) by lia.
      rewrite IH by lia. do 2 f_equal. lia.
    + rewrite seqZ_nil; [done|]. nia.
Qed.

(** * The unit checks *)

Lemma marks_init (b : bool) (n : Z) :
  marks b n (replicate (Z.to_nat (n + 1)) (negb b)) [].
Proof.
  split; [by rewrite length_replicate|].
  intros v Hv. rewrite lookup_replicate_2 by lia.
  by rewrite bool_decide_eq_false_2 by apply not_elem_of_nil.
Qed.

Lemma marks_load (b : bool) (n : Z) (a : list bool) (sl : list Z) (v : Z) :
  marks b n a sl → 0 ≤ v ≤ n →
  zload a v = Some (if bool_decide (v ∈ sl) then b else negb b).
Proof.
  intros [_ H] Hv. unfold zload. rewrite decide_True by lia. by apply H.
Qed.

Lemma marks_store (b : bool) (n : Z) (a : list bool) (sl : list Z) (v : Z) :
  marks b n a sl → 0 ≤ v ≤ n →
  zstore a v b = Some (<[Z.to_nat v := b]> a) ∧
  marks b n (<[Z.to_nat v := b]> a) (v :: sl).
Proof.
  intros [Hlen H] Hv. split; [apply zstore_in_range; lia|].
  split; [by rewrite length_insert|].
  intros w Hw. destruct (decide (w = v)) as [->|Hne].
  - rewrite list_lookup_insert_eq by lia.
    by rewrite bool_decide_eq_true_2 by left.
  - rewrite list_lookup_insert_ne by lia. rewrite H by done.
    rewrite (bool_decide_ext (w ∈ v :: sl) (w ∈ sl)); [done|].
    rewrite elem_of_cons. naive_solver.
Qed.

(** The set recorded matters, not the list that names it. *)
Lemma marks_equiv (b : bool) (n : Z) (a : list bool) (sl sl' : list Z) :
  (∀ v, v ∈ sl ↔ v ∈ sl') → marks b n a sl → marks b n a sl'.
Proof.
  intros Heq [Hlen H]. split; [done|]. intros v Hv. rewrite H by done.
  by rewrite (bool_decide_ext (v ∈ sl) (v ∈ sl')).
Qed.

Lemma marks_seen_init (n : Z) :
  marks true n (replicate (Z.to_nat (n + 1)) false) [].
Proof. apply (marks_init true). Qed.

Lemma marks_possible_init (n : Z) :
  marks false n (replicate (Z.to_nat (n + 1)) true) [].
Proof. apply (marks_init false). Qed.

Lemma set_invalid_flagged (p : parameters) (m : mem) :
  slots_ok p m → set_invalid p m = Some (flagged true false p m).
Proof.
  intros [Hi _]. unfold set_invalid. by rewrite zstore_in_range.
Qed.

Lemma clear_complete_flagged (d : bool) (p : parameters) (m : mem) :
  slots_ok p m →
  clear_complete p (flagged d false p m) = Some (flagged d true p m).
Proof.
  intros [_ Hc]. unfold clear_complete. simpl. by rewrite zstore_in_range.
Qed.

(** The loop of [checkRow] and [checkCol], over any way [fetch] of reading
    the cells of the unit, computes [unit_scan] on the values read. *)
Lemma scan_loop_spec (n : Z) (p : parameters)
    (fetch : grid_t → Z → option Z) (idx : list Z) :
  ∀ (a : list bool) (sl : list Z) (rc : bool) (m : mem),
    marks true n a sl → slots_ok p m →
    Forall (λ i, ∃ v, fetch (grid m) i = Some v ∧ v ≤ n) idx →
    let r := unit_scan ((λ i, default 0 (fetch (grid m) i)) <$> idx) sl
               (negb rc) in
    ∃ a', for_break idx
            (λ i s, val ← fetch (grid (scan_mem s)) i; scan_step val p s)
            {| seen := a; rowComplete := rc; scan_mem := m |}
          = Some {| seen := a'; rowComplete := negb r.2;
                    scan_mem := flagged r.1 false p m |}.
Proof.
  induction idx as [|i idx IH]; intros a sl rc m Hmarks Hslots Hcells; simpl.
  - exists a. rewrite negb_involutive. by destruct m.
  - inversion Hcells as [|? ? (v & Hv & Hle) Hcells']; subst.
    rewrite Hv. simpl. unfold scan_step.
    destruct (decide (v ≤ 0)) as [Hneg|Hpos]; simpl.
    + apply (IH a sl false m); assumption.
    + rewrite (marks_load true n a sl v) by (done || lia). simpl.
      destruct (decide (v ∈ sl)) as [Hin|Hnotin].
      * rewrite bool_decide_eq_true_2 by done.
        rewrite set_invalid_flagged by done. simpl.
        exists a. by rewrite negb_involutive.
      * rewrite bool_decide_eq_false_2 by done. simpl.
        destruct (marks_store true n a sl v) as [-> Hmarks']; [done | lia |].
        simpl. apply (IH _ (v :: sl) rc m); done.
Qed.

Lemma all_cells_spec (n : Z) (g : grid_t) (ok : Z → bool) :
  all_cells n g ok ↔
  ∀ r c, 1 ≤ r ≤ n → 1 ≤ c ≤ n → ∃ v, cell g r c = Some v ∧ ok v.
Proof.
  unfold all_cells. rewrite forallb_True, Forall_forall. split.
  - intros H r c Hr Hc. specialize (H r). rewrite elem_of_seqZ in H.
    specialize (H ltac:(lia)). rewrite forallb_True, Forall_forall in H.
    specialize (H c). rewrite elem_of_seqZ in H. specialize (H ltac:(lia)).
    destruct (cell g r c) as [v|]; [|done]. eauto.
  - intros H r Hr%elem_of_seqZ. rewrite forallb_True, Forall_forall.
    intros c Hc%elem_of_seqZ.
    by destruct (H r c) as (v & -> & Hv); [lia | lia |].
Qed.

Lemma all_cells_impl (n : Z) (g : grid_t) (ok ok' : Z → bool) :
  (∀ v, ok v → ok' v) → all_cells n g ok → all_cells n g ok'.
Proof.
  intros Himpl. rewrite !all_cells_spec. intros H r c Hr Hc.
  destruct (H r c Hr Hc) as (v & ? & ?). eauto.
Qed.

Lemma well_formed_cell (n : Z) (g : grid_t) (r c : Z) :
  well_formed n g → 1 ≤ r ≤ n → 1 ≤ c ≤ n →
  ∃ v, cell g r c = Some v ∧ 0 ≤ v ≤ n.
Proof.
  unfold well_formed. intros H Hr Hc.
  destruct (proj1 (all_cells_spec n g _) H r c Hr Hc) as (v & ? & ?%bool_decide_unpack). eauto.
Qed.

Lemma bounded_cell (n : Z) (g : grid_t) (r c : Z) :
  bounded n g → 1 ≤ r ≤ n → 1 ≤ c ≤ n →
  ∃ v, cell g r c = Some v ∧ v ≤ n.
Proof.
  unfold bounded. intros H Hr Hc.
  destruct (proj1 (all_cells_spec n g _) H r c Hr Hc) as (v & ? & ?%bool_decide_unpack). eauto.
Qed.

Lemma fully_filled_cell (n : Z) (g : grid_t) (r c : Z) :
  fully_filled n g → 1 ≤ r ≤ n → 1 ≤ c ≤ n →
  ∃ v, cell g r c = Some v ∧ 1 ≤ v ≤ n.
Proof.
  unfold fully_filled. intros H Hr Hc.
  destruct (proj1 (all_cells_spec n g _) H r c Hr Hc) as (v & ? & ?%bool_decide_unpack). eauto.
Qed.

Lemma well_formed_bounded (n : Z) (g : grid_t) :
  well_formed n g → bounded n g.
Proof.
  apply all_cells_impl. intros v Hv%bool_decide_unpack.
  apply bool_decide_pack. lia.
Qed.

Lemma fully_filled_well_formed (n : Z) (g : grid_t) :
  fully_filled n g → well_formed n g.
Proof.
  apply all_cells_impl. intros v Hv%bool_decide_unpack.
  apply bool_decide_pack. lia.
Qed.

Lemma cell_value (g : grid_t) (r c v : Z) :
  cell g r c = Some v → value g r c = v.
Proof. unfold value. by intros ->. Qed.

Lemma checkRow_spec (p : parameters) (m : mem) :
  bounded (psize p) (grid m) → 1 ≤ row p ≤ psize p → slots_ok p m →
  let r := unit_scan (row_unit (psize p) (grid m) (row p)) [] false in
  checkRow p m = Some (flagged r.1 r.2 p m).
Proof.
  intros Hwf Hrow Hslots r. unfold checkRow.
  destruct (scan_loop_spec (psize p) p (λ g c, cell g (row p) c)
              (seqZ 1 (psize p)) _ [] true m (marks_seen_init _) Hslots)
    as [a' ->].
  - apply Forall_forall. intros c Hc%elem_of_seqZ.
    apply (bounded_cell (psize p) (grid m) (row p) c); [done | lia | lia].
  - simpl. unfold scan_finish. simpl. subst r. unfold row_unit, value.
    destruct (unit_scan _ _ _) as [d [|]]; simpl.
    + by apply clear_complete_flagged.
    + done.
Qed.

Lemma checkCol_spec (p : parameters) (m : mem) :
  bounded (psize p) (grid m) → 1 ≤ column p ≤ psize p → slots_ok p m →
  let r := unit_scan (col_unit (psize p) (grid m) (column p)) [] false in
  checkCol p m = Some (flagged r.1 r.2 p m).
Proof.
  intros Hwf Hcol Hslots r. unfold checkCol.
  destruct (scan_loop_spec (psize p) p (λ g r, cell g r (column p))
              (seqZ 1 (psize p)) _ [] true m (marks_seen_init _) Hslots)
    as [a' ->].
  - apply Forall_forall. intros c Hc%elem_of_seqZ.
    apply (bounded_cell (psize p) (grid m) c (column p)); [done | lia | lia].
  - simpl. unfold scan_finish. simpl. subst r. unfold col_unit, value.
    destruct (unit_scan _ _ _) as [d [|]]; simpl.
    + by apply clear_complete_flagged.
    + done.
Qed.

Lemma flagged_none (p : parameters) (m : mem) : flagged false false p m = m.
Proof. by destruct m. Qed.

Lemma flagged_again (d1 d2 : bool) (p : parameters) (m : mem) :
  flagged d2 false p (flagged d1 false p m) = flagged (d1 || d2) false p m.
Proof.
  unfold flagged. destruct d1, d2; simpl; try done.
  by rewrite list_insert_insert_eq.
Qed.

Lemma slots_ok_flagged (d i : bool) (p q : parameters) (m : mem) :
  slots_ok p m → slots_ok p (flagged d i q m).
Proof.
  unfold slots_ok, flagged. simpl.
  destruct d, i; rewrite ?length_insert; done.
Qed.

Lemma seqZ_succ (m : Z) (k : nat) :
  seqZ m (Z.of_nat (S k)) = m :: seqZ (m + 1) (Z.of_nat k).
Proof.
  rewrite seqZ_cons by lia. f_equal. f_equal; lia.
Qed.

(** One cell of a block. *)
Lemma checkSubgrid_inner_step (n : Z) (p : parameters) (j r c v : Z)
    (a : list bool) (sl : list Z) (m : mem) :
  marks true n a sl → slots_ok p m →
  cell (grid m) (row p + r) (column p + c) = Some v → 0 ≤ v ≤ n →
  checkSubgrid_inner p j
    {| sub_seen := a; incrementC := c; incrementR := r; sub_mem := m |}
  = Some (if bool_decide (v ∈ sl)
          then Break {| sub_seen := a; incrementC := c; incrementR := r;
                        sub_mem := flagged true false p m |}
          else Next {| sub_seen := <[Z.to_nat v := true]> a;
                       incrementC := c + 1; incrementR := r; sub_mem := m |}).
Proof.
  intros Hmarks Hslots Hv Hrange. unfold checkSubgrid_inner. simpl.
  rewrite Hv. simpl. rewrite (marks_load true n a sl v) by done. simpl.
  case_bool_decide; simpl.
  - by rewrite set_invalid_flagged.
  - by destruct (marks_store true n a sl v) as [-> _].
Qed.

(** One row of a block: the inner loop of [checkSubgrid]. *)
Lemma checkSubgrid_inner_spec (n : Z) (p : parameters) (r : Z) (js : list Z) :
  ∀ (c0 : Z) (a : list bool) (sl : list Z) (m : mem),
    marks true n a sl → slots_ok p m →
    (∀ j, c0 ≤ j < c0 + Z.of_nat (length js) →
          ∃ v, cell (grid m) (row p + r) (column p + j) = Some v ∧ 0 ≤ v ≤ n) →
    let res := block_row_scan
                 ((λ j, value (grid m) (row p + r) (column p + j))
                    <$> seqZ c0 (Z.of_nat (length js))) sl in
    ∃ a' c',
      for_break js (checkSubgrid_inner p)
        {| sub_seen := a; incrementC := c0; incrementR := r; sub_mem := m |}
      = Some {| sub_seen := a'; incrementC := c'; incrementR := r;
                sub_mem := flagged res.1 false p m |}
      ∧ marks true n a' res.2.
Proof.
  induction js as [|j0 js IH]; intros c0 a sl m Hmarks Hslots Hcells res.
  - simpl. exists a, c0. by rewrite flagged_none.
  - subst res. cbn [length]. rewrite seqZ_succ. cbn [for_break fmap list_fmap].
    destruct (Hcells c0) as (v & Hv & Hrange); [cbn [length]; lia|].
    rewrite (checkSubgrid_inner_step n p j0 r c0 v a sl m) by done.
    rewrite (cell_value _ _ _ _ Hv). cbn [mbind option_bind block_row_scan].
    destruct (decide (v ∈ sl)) as [Hin|Hnotin].
    + rewrite bool_decide_eq_true_2 by done. by exists a, c0.
    + rewrite bool_decide_eq_false_2 by done.
      apply (IH (c0 + 1) _ (v :: sl) m); [|done|].
      * by apply marks_store.
      * intros j Hj. apply Hcells. cbn [length]. lia.
Qed.

Lemma checkSubgrid_outer_eq (p : parameters) (s i : Z) (st : subscan) :
  checkSubgrid_outer p s i st
  = for_break (seqZ 1 s) (checkSubgrid_inner p)
      {| sub_seen := sub_seen st; incrementC := 0;
         incrementR := incrementR st; sub_mem := sub_mem st |}
    ≫= λ s2, Some {| sub_seen := sub_seen s2; incrementC := incrementC s2;
                     incrementR := incrementR s2 + 1; sub_mem := sub_mem s2 |}.
Proof. done. Qed.

(** The rows of a block: the outer loop of [checkSubgrid]. *)
Lemma checkSubgrid_outer_spec (n : Z) (p : parameters) (s : Z)
    (idx : list Z) :
  0 ≤ s →
  ∀ (r0 c : Z) (a : list bool) (sl : list Z) (m : mem),
    marks true n a sl → slots_ok p m →
    (∀ i j, r0 ≤ i < r0 + Z.of_nat (length idx) → 0 ≤ j < s →
            ∃ v, cell (grid m) (row p + i) (column p + j) = Some v
                 ∧ 0 ≤ v ≤ n) →
    ∃ s', for_loop idx (checkSubgrid_outer p s)
            {| sub_seen := a; incrementC := c; incrementR := r0;
               sub_mem := m |} = Some s'
          ∧ sub_mem s'
            = flagged
                (block_scan
                   ((λ i, (λ j, value (grid m) (row p + i) (column p + j))
                            <$> seqZ 0 s) <$> seqZ r0 (Z.of_nat (length idx)))
                   sl) false p m.
Proof.
  intros Hs.
  induction idx as [|i0 idx IH]; intros r0 c a sl m Hmarks Hslots Hcells.
  - simpl. eexists. split; [done|]. simpl. by rewrite flagged_none.
  - cbn [length]. rewrite seqZ_succ. cbn [for_loop fmap list_fmap block_scan].
    rewrite checkSubgrid_outer_eq. cbn [sub_seen incrementR sub_mem].
    destruct (checkSubgrid_inner_spec n p r0 (seqZ 1 s) 0 a sl m)
      as (a' & c' & Hinner & Hmarks'); [done | done | |].
    { intros j Hj. rewrite length_seqZ in Hj. apply Hcells; cbn [length]; lia. }
    rewrite length_seqZ, Z2Nat.id in Hinner, Hmarks' by done.
    rewrite Hinner. cbn [mbind option_bind sub_seen incrementC incrementR sub_mem].
    destruct (block_row_scan _ sl) as [d sl'] eqn:Hrow. cbn [fst snd] in *.
    destruct (IH (r0 + 1) c' a' sl' (flagged d false p m))
      as (s' & Hloop & Hmem); [done | by apply slots_ok_flagged | |].
    { intros i j Hi Hj. apply Hcells; cbn [length]; lia. }
    exists s'. split; [done|]. rewrite Hmem. by rewrite flagged_again.
Qed.

Lemma checkSubgrid_spec (p : parameters) (m : mem) :
  let n := psize p in
  let s := Z.sqrt n in
  0 ≤ n → slots_ok p m →
  (∀ i j, 0 ≤ i < s → 0 ≤ j < s →
          ∃ v, cell (grid m) (row p + i) (column p + j) = Some v ∧ 0 ≤ v ≤ n) →
  checkSubgrid p m
  = Some (flagged (block_scan (block_rows s (grid m) (row p) (column p)) [])
            false p m).
Proof.
  intros n s Hn Hslots Hcells. unfold checkSubgrid, int_sqrt.
  rewrite decide_True by done. cbn [mbind option_bind].
  assert (0 ≤ s) as Hs by apply Z.sqrt_nonneg.
  destruct (checkSubgrid_outer_spec n p s (seqZ 1 s) Hs 0 0
              (replicate (Z.to_nat (n + 1)) false) [] m)
    as (s' & Hloop & Hmem); [apply marks_seen_init | done | |].
  { intros i j Hi Hj. rewrite length_seqZ in Hi. apply Hcells; lia. }
  fold n. fold s. rewrite Hloop. cbn [mbind option_bind].
  rewrite Hmem, length_seqZ, Z2Nat.id by done. done.
Qed.

(** * The orchestrator *)

Lemma mk_params_app (n k : Z) (ts1 ts2 : list thread) :
  mk_params n k (ts1 ++ ts2)
  = mk_params n k ts1 ++ mk_params n (k + Z.of_nat (length ts1)) ts2.
Proof.
  revert k. induction ts1 as [|[[f r] c] ts1 IH]; intros k; simpl.
  - f_equal. lia.
  - rewrite IH. do 3 f_equal. lia.
Qed.

Lemma length_mk_params (n k : Z) (ts : list thread) :
  length (mk_params n k ts) = length ts.
Proof.
  revert k. induction ts as [|[[f r] c] ts IH]; intros k; simpl; [done|].
  by rewrite IH.
Qed.

Lemma create_spawned (n : Z) (f : routine) (r c : Z) (ts : list thread)
    (free : nat) :
  create f r c n (spawned n ts (S free))
  = Some (spawned n (ts ++ [(f, r, c)]) free).
Proof.
  unfold create, spawned. simpl.
  rewrite zstore_in_range
    by (rewrite length_app, length_fmap, length_mk_params; simpl; lia).
  simpl. f_equal. f_equal.
  - rewrite length_app. simpl. lia.
  - rewrite Nat2Z.id. rewrite mk_params_app, fmap_app. simpl.
    rewrite <- (length_mk_params n 0 ts) at 1.
    rewrite <- (length_fmap Some (mk_params n 0 ts)).
    rewrite insert_app_r_alt by lia. rewrite Nat.sub_diag. simpl.
    rewrite <- app_assoc. simpl. by rewrite Z.add_0_l.
Qed.

(** A loop whose iteration [i] creates the threads [gen i]. *)
Lemma spawn_loop (n : Z) (gen : Z → list thread)
    (body : Z → spawner → option spawner) (idx : list Z) :
  (∀ i ts free, i ∈ idx →
     body i (spawned n ts (length (gen i) + free))
     = Some (spawned n (ts ++ gen i) free)) →
  ∀ ts free,
    for_loop idx body (spawned n ts (length (idx ≫= gen) + free))
    = Some (spawned n (ts ++ (idx ≫= gen)) free).
Proof.
  induction idx as [|i idx IH]; intros Hbody ts free; simpl.
  - by rewrite app_nil_r.
  - rewrite length_app, <- Nat.add_assoc.
    rewrite Hbody by left. simpl.
    rewrite IH by (intros; apply Hbody; by right).
    by rewrite app_assoc.
Qed.

Lemma spawn_row_col_loop (n : Z) (ts : list thread) (free : nat) :
  for_loop (seqZ 1 n) (spawn_row_col n)
    (spawned n ts (length (seqZ 1 n ≫= row_col_threads) + free))
  = Some (spawned n (ts ++ (seqZ 1 n ≫= row_col_threads)) free).
Proof.
  apply spawn_loop. intros i ts' free' _. unfold spawn_row_col. simpl.
  rewrite create_spawned. simpl. rewrite create_spawned.
  by rewrite <- app_assoc.
Qed.

Lemma stride_block_starts (s : Z) :
  0 < s → stride (Z.to_nat (s * s)) 1 (s * s) s = block_starts s.
Proof.
  intros Hs. replace 1 with (1 + 0 * s) at 1 by lia.
  rewrite stride_spec by nia. unfold block_starts. do 2 f_equal. lia.
Qed.

Lemma spawn_subgrids_loop (s : Z) (ts : list thread) (free : nat) :
  0 < s →
  spawn_subgrids (s * s) s
    (spawned (s * s) ts (length (subgrid_threads s) + free))
  = Some (spawned (s * s) (ts ++ subgrid_threads s) free).
Proof.
  intros Hs. unfold spawn_subgrids. rewrite stride_block_starts by done.
  apply (spawn_loop (s * s)
           (λ r, block_starts s ≫= λ c, [(CheckSubgrid, r, c)])).
  intros r ts' free' _.
  apply (spawn_loop (s * s) (λ c, [(CheckSubgrid, r, c)])).
  intros c ts'' free'' _. simpl. apply create_spawned.
Qed.

Lemma length_bind_const {A B} (f : A → list B) (k : nat) (l : list A) :
  (∀ x, length (f x) = k) → length (l ≫= f) = (length l * k)%nat.
Proof.
  intros Hf. induction l as [|x l IH]; [done|].
  by rewrite bind_cons, length_app, Hf, IH.
Qed.

Lemma length_row_col_threads (n : Z) :
  length (seqZ 1 n ≫= row_col_threads) = Z.to_nat (n * 2).
Proof.
  rewrite (length_bind_const _ 2) by done. rewrite length_seqZ. lia.
Qed.

Lemma length_subgrid_threads (s : Z) :
  0 ≤ s → length (subgrid_threads s) = Z.to_nat (s * s).
Proof.
  intros Hs. unfold subgrid_threads.
  rewrite (length_bind_const _ (Z.to_nat s)).
  - unfold block_starts. rewrite length_fmap, length_seqZ. lia.
  - intros r. rewrite (length_bind_const _ 1) by done.
    unfold block_starts. rewrite length_fmap, length_seqZ. lia.
Qed.

Lemma has_subgrids_spec (n : Z) :
  has_subgrids n ↔ Z.sqrt n * Z.sqrt n = n ∧ 1 < Z.sqrt n.
Proof.
  unfold has_subgrids. rewrite andb_True, !bool_decide_spec. lia.
Qed.

Lemma length_threads_of (n : Z) :
  0 ≤ n →
  length (threads_of n)
  = Z.to_nat (n * 2 + (if has_subgrids n then n else 0)).
Proof.
  intros Hn. unfold threads_of. rewrite length_app, length_row_col_threads.
  destruct (has_subgrids n) eqn:Hflag; simpl; [|lia].
  apply Is_true_true, has_subgrids_spec in Hflag as [Hsq Hs].
  rewrite length_subgrid_threads by lia. lia.
Qed.

Lemma mk_params_lookup (n k : Z) (ts : list thread) (i : nat)
    (f : routine) (r c : Z) :
  ts !! i = Some (f, r, c) →
  mk_params n k ts !! i
  = Some (f, {| row := r; column := c; psize := n;
                complete := k + Z.of_nat i; invalid := k + Z.of_nat i |}).
Proof.
  revert k i. induction ts as [|[[f' r'] c'] ts IH]; intros k i H; [done|].
  destruct i as [|i]; simpl in *.
  - injection H as -> -> ->. do 3 f_equal; lia.
  - rewrite (IH (k + 1) i H). do 3 f_equal; lia.
Qed.

(** Joining thread [k]: it has run, and its two slots are read. *)
Lemma join_step (n : Z) (g : grid_t) (done_ rest : list thread) (t : thread)
    (v : verdict) :
  thread_ok n g t →
  grid (v_mem v) = g →
  untouched_from (length done_) (length (done_ ++ t :: rest)) (v_mem v) →
  ∃ v',
    join (Some <$> mk_params n 0 (done_ ++ t :: rest))
      (Z.of_nat (length done_)) v = Some v'
    ∧ grid (v_mem v') = g
    ∧ untouched_from (S (length done_)) (length (done_ ++ t :: rest))
        (v_mem v')
    ∧ v_complete v' = v_complete v && negb (unit_flags n g t).2
    ∧ v_valid v' = v_valid v && negb (unit_flags n g t).1.
Proof.
  intros Hok Hg (Hli & Hlc & Hfree). destruct t as [[f r] c].
  assert (length done_ < length (done_ ++ (f, r, c) :: rest))%nat as Hk.
  { rewrite length_app. simpl. lia. }
  assert ((done_ ++ (f, r, c) :: rest) !! length done_ = Some (f, r, c))
    as Hlook by (by rewrite lookup_app_r, Nat.sub_diag by lia).
  revert Hli Hlc Hfree Hk Hlook.
  generalize (length (done_ ++ (f, r, c) :: rest)) as total.
  generalize (done_ ++ (f, r, c) :: rest) as all.
  generalize (length done_) as k. intros k all total Hli Hlc Hfree Hk Hlook.
  unfold join. rewrite zload_nat, list_lookup_fmap.
  rewrite (mk_params_lookup n 0 _ k f r c) by done.
  rewrite Z.add_0_l. cbn [fmap option_fmap option_map mjoin option_join mbind option_bind fst snd].
  specialize (Hok (Z.of_nat k) (v_mem v) Hg). cbn [fst snd] in Hok.
  destruct (unit_flags n g (f, r, c)) as [d i].
  rewrite Hok by (split; simpl; lia). clear Hok. simpl.
  destruct (Hfree k) as [Hik Hck]; [lia|].
  rewrite !zload_nat, !Nat2Z.id.
  assert ((if d then <[k:=true]> (listInvalid (v_mem v))
           else listInvalid (v_mem v)) !! k = Some d) as ->.
  { destruct d; [|exact Hik]. apply list_lookup_insert_eq. lia. }
  assert ((if i then <[k:=false]> (listComplete (v_mem v))
           else listComplete (v_mem v)) !! k = Some (negb i)) as ->.
  { destruct i; simpl; [|exact Hck]. apply list_lookup_insert_eq. lia. }
  simpl. eexists. split; [done|]. simpl. split; [done|]. split.
  - split; [|split].
    + simpl. destruct d; by rewrite ?length_insert.
    + simpl. destruct i; by rewrite ?length_insert.
    + intros j Hj. destruct (Hfree j) as [Hij Hcj]; [lia|]. simpl.
      destruct d, i; rewrite ?list_lookup_insert_ne by lia; done.
  - by destruct d, i, (v_complete v), (v_valid v).
Qed.

Lemma join_loop_spec (n : Z) (g : grid_t) (all : list thread) :
  Forall (thread_ok n g) all →
  ∀ (rest done_ : list thread) (v : verdict),
    all = done_ ++ rest →
    grid (v_mem v) = g →
    untouched_from (length done_) (length all) (v_mem v) →
    ∃ v',
      for_loop (seqZ (Z.of_nat (length done_)) (Z.of_nat (length rest)))
        (join (Some <$> mk_params n 0 all)) v = Some v'
      ∧ grid (v_mem v') = g
      ∧ v_complete v' = v_complete v && all_complete n g rest
      ∧ v_valid v' = v_valid v && all_valid n g rest.
Proof.
  intros Hall. induction rest as [|t rest IH]; intros done_ v -> Hg Hfree.
  - simpl. exists v. by rewrite !andb_true_r.
  - cbn [length]. rewrite seqZ_succ. cbn [for_loop].
    destruct (join_step n g done_ rest t v) as (v1 & -> & Hg1 & Hfree1 & Hc & Hv);
      [|done|done|].
    { rewrite Forall_app, Forall_cons in Hall. tauto. }
    cbn [mbind option_bind].
    destruct (IH (done_ ++ [t]) v1) as (v' & Hloop & Hg' & Hc' & Hv').
    + by rewrite <- app_assoc.
    + done.
    + rewrite length_app. simpl. by rewrite Nat.add_1_r.
    + rewrite length_app, Nat.add_1_r in Hloop.
      replace (Z.of_nat (length done_) + 1) with (Z.of_nat (S (length done_)))
        by lia.
      exists v'. split; [done|]. split; [done|].
      unfold all_complete, all_valid in *. simpl.
      rewrite Hc', Hv', Hc, Hv, !andb_assoc. done.
Qed.

Lemma elem_of_block_starts (s x : Z) :
  x ∈ block_starts s ↔ ∃ a, 0 ≤ a < s ∧ x = 1 + a * s.
Proof.
  unfold block_starts. rewrite list_elem_of_fmap.
  setoid_rewrite elem_of_seqZ. naive_solver lia.
Qed.

Lemma elem_of_threads_of (n : Z) (t : thread) :
  t ∈ threads_of n ↔
  (∃ i, 1 ≤ i ≤ n ∧ (t = (CheckRow, i, 1) ∨ t = (CheckCol, 1, i)))
  ∨ (has_subgrids n ∧
     ∃ r c, r ∈ block_starts (Z.sqrt n) ∧ c ∈ block_starts (Z.sqrt n)
            ∧ t = (CheckSubgrid, r, c)).
Proof.
  unfold threads_of. rewrite elem_of_app, list_elem_of_bind.
  assert (∀ P Q P' Q' : Prop, (P ↔ P') → (Q ↔ Q') → (P ∨ Q ↔ P' ∨ Q'))
    as Hor by tauto.
  apply Hor.
  - unfold row_col_threads. setoid_rewrite elem_of_seqZ.
    setoid_rewrite elem_of_cons. setoid_rewrite elem_of_cons.
    setoid_rewrite elem_of_nil. naive_solver lia.
  - destruct (has_subgrids n); simpl.
    + unfold subgrid_threads. rewrite list_elem_of_bind.
      setoid_rewrite list_elem_of_bind. setoid_rewrite list_elem_of_singleton.
      naive_solver.
    + rewrite elem_of_nil. naive_solver.
Qed.

Lemma block_cell_in_grid (s a b i j : Z) :
  0 ≤ a < s → 0 ≤ b < s → 0 ≤ i < s → 0 ≤ j < s →
  1 ≤ 1 + a * s + i ≤ s * s ∧ 1 ≤ 1 + b * s + j ≤ s * s.
Proof. nia. Qed.

Lemma threads_of_ok (n : Z) (g : grid_t) :
  0 ≤ n → well_formed n g → Forall (thread_ok n g) (threads_of n).
Proof.
  intros Hn Hwf. apply Forall_forall. intros t Ht k m Hg p Hslots.
  apply elem_of_threads_of in Ht
    as [(i & Hi & [-> | ->]) | (Hflag & r & c & Hr & Hc & ->)]; subst p g;
    cbn [fst snd start unit_flags] in *.
  - apply (checkRow_spec {| row := i; column := 1; psize := n;
                            complete := k; invalid := k |} m);
      [by apply well_formed_bounded | done | done].
  - apply (checkCol_spec {| row := 1; column := i; psize := n;
                            complete := k; invalid := k |} m);
      [by apply well_formed_bounded | done | done].
  - rewrite checkSubgrid_spec; simpl; [done | done | done |].
    apply has_subgrids_spec in Hflag as [Hsq Hs].
    apply elem_of_block_starts in Hr as (a & Ha & ->).
    apply elem_of_block_starts in Hc as (b & Hb & ->).
    intros i j Hi Hj.
    pose proof (block_cell_in_grid (Z.sqrt n) a b i j Ha Hb Hi Hj) as Hin.
    rewrite Hsq in Hin. apply (well_formed_cell n (grid m)); [done | |];
      apply Hin.
Qed.

Lemma untouched_init (total : nat) (g : grid_t) :
  untouched_from 0 total
    {| grid := g; listInvalid := replicate total false;
       listComplete := replicate total true |}.
Proof.
  split; [|split]; simpl; try by rewrite length_replicate.
  intros j Hj. by rewrite !lookup_replicate_2 by lia.
Qed.

(** [checkPuzzle] on a grid of the data model: it returns, leaves the grid
    as it was, and aggregates the flags of its threads. *)
Lemma checkPuzzle_spec (n : Z) (g : grid_t) :
  0 ≤ n → well_formed n g →
  checkPuzzle n g
  = Some (g, all_complete n g (threads_of n), all_valid n g (threads_of n)).
Proof.
  intros Hn Hwf. unfold checkPuzzle, int_sqrt.
  rewrite decide_True by done. cbn [mbind option_bind].
  fold (has_subgrids n).
  set (subs := if has_subgrids n then subgrid_threads (Z.sqrt n) else []).
  assert (threads_of n = (seqZ 1 n ≫= row_col_threads) ++ subs) as Hall
    by done.
  assert (n * 2 + (if has_subgrids n then n else 0)
          = Z.of_nat (length (threads_of n))) as ->
    by (rewrite length_threads_of by done; destruct (has_subgrids n); lia).
  rewrite Nat2Z.id.
  change {| threadIndex := 0;
            params := replicate (length (threads_of n)) None |}
    with (spawned n [] (length (threads_of n))).
  assert (for_loop (seqZ 1 n) (spawn_row_col n)
            (spawned n [] (length (threads_of n)))
          = Some (spawned n (seqZ 1 n ≫= row_col_threads) (length subs)))
    as ->.
  { rewrite Hall, length_app. apply spawn_row_col_loop. }
  cbn [mbind option_bind].
  assert ((if has_subgrids n
           then spawn_subgrids n (Z.sqrt n)
                  (spawned n (seqZ 1 n ≫= row_col_threads) (length subs))
           else Some (spawned n (seqZ 1 n ≫= row_col_threads) (length subs)))
          = Some (spawned n (threads_of n) 0)) as ->.
  { rewrite Hall. subst subs. destruct (has_subgrids n) eqn:Hflag.
    - apply Is_true_true, has_subgrids_spec in Hflag as [Hsq Hs].
      rewrite <- (Nat.add_0_r (length _)).
      pose proof (spawn_subgrids_loop (Z.sqrt n)
                    (seqZ 1 n ≫= row_col_threads) 0) as Hsub.
      rewrite Hsq in Hsub. apply Hsub. lia.
    - simpl. by rewrite app_nil_r. }
  cbn [mbind option_bind]. unfold spawned at 1. cbn [params replicate].
  rewrite app_nil_r.
  destruct (join_loop_spec n g (threads_of n) (threads_of_ok n g Hn Hwf)
              (threads_of n) []
              {| v_mem := {| grid := g;
                             listInvalid :=
                               replicate (length (threads_of n)) false;
                             listComplete :=
                               replicate (length (threads_of n)) true |};
                 v_complete := true; v_valid := true |})
    as (v' & Hloop & Hg & Hc & Hv); [done | done | apply untouched_init |].
  change (Z.of_nat (length (@nil thread))) with 0 in Hloop.
  rewrite Hloop. simpl. by rewrite Hg, Hc, Hv.
Qed.

(** * What the scans find *)

(** The duplicate flag of a row or column scan: some value above 0 occurs
    twice. *)
Lemma unit_scan_dup (vals sl : list Z) (inc : bool) :
  NoDup sl →
  (unit_scan vals sl inc).1 = false ↔ NoDup (filter (λ v, 0 < v) vals ++ sl).
Proof.
  revert sl inc. induction vals as [|v vals IH]; intros sl inc Hsl; simpl.
  - done.
  - destruct (decide (v ≤ 0)) as [Hneg|Hpos].
    + rewrite filter_cons_False by lia. by apply IH.
    + rewrite filter_cons_True by lia.
      destruct (decide (v ∈ sl)) as [Hin|Hnotin]; simpl.
      * split; [done|]. intros [H _]%NoDup_cons. destruct H.
        apply elem_of_app. by right.
      * rewrite IH by (by apply NoDup_cons).
        by rewrite <- Permutation_middle.
Qed.

(** The incomplete flag of a row or column scan that found no duplicate:
    some value is 0 or below. *)
Lemma unit_scan_incomplete (vals sl : list Z) (inc : bool) :
  (unit_scan vals sl inc).1 = false →
  (unit_scan vals sl inc).2 = inc || existsb (λ v, bool_decide (v ≤ 0)) vals.
Proof.
  revert sl inc. induction vals as [|v vals IH]; intros sl inc; simpl.
  - by rewrite orb_false_r.
  - destruct (decide (v ≤ 0)) as [Hneg|Hpos].
    + rewrite bool_decide_eq_true_2 by done. intros H.
      rewrite IH by done. simpl. by rewrite orb_true_r.
    + rewrite bool_decide_eq_false_2 by done.
      destruct (decide (v ∈ sl)); simpl; [done|]. apply IH.
Qed.

(** A unit without a value of 0 or below is never reported incomplete. *)
Lemma unit_scan_filled (vals sl : list Z) (inc : bool) :
  Forall (λ v, 0 < v) vals → (unit_scan vals sl inc).2 = inc.
Proof.
  revert sl. induction vals as [|v vals IH]; intros sl Hvals; simpl; [done|].
  apply Forall_cons in Hvals as [Hv Hvals].
  rewrite decide_False by lia.
  destruct (decide (v ∈ sl)); simpl; [done|]. by apply IH.
Qed.

Lemma block_row_scan_spec (vals sl : list Z) :
  NoDup sl →
  let res := block_row_scan vals sl in
  if res.1 then ¬ NoDup (vals ++ sl)
  else NoDup (vals ++ sl) ∧ res.2 ≡ₚ vals ++ sl.
Proof.
  revert sl. induction vals as [|v vals IH]; intros sl Hsl; simpl.
  - done.
  - destruct (decide (v ∈ sl)) as [Hin|Hnotin]; simpl.
    + intros [H _]%NoDup_cons. destruct H. apply elem_of_app. by right.
    + specialize (IH (v :: sl)). simpl in IH.
      destruct (block_row_scan vals (v :: sl)).1.
      * rewrite <- Permutation_middle in IH. apply IH. by apply NoDup_cons.
      * rewrite <- Permutation_middle in IH. apply IH. by apply NoDup_cons.
Qed.

(** The duplicate flag of a block scan: some value, 0 included, occurs
    twice in the block. *)
Lemma block_scan_dup (rows : list (list Z)) (sl : list Z) :
  NoDup sl →
  block_scan rows sl = false ↔ NoDup (concat rows ++ sl).
Proof.
  revert sl. induction rows as [|r rows IH]; intros sl Hsl; simpl.
  - done.
  - pose proof (block_row_scan_spec r sl Hsl) as Hrow. simpl in Hrow.
    destruct (block_row_scan r sl) as [[|] sl']; simpl in *.
    + split; [done|]. intros H. destruct Hrow.
      rewrite <- app_assoc in H. rewrite (Permutation_app_comm (concat rows)) in H.
      rewrite app_assoc in H. by apply NoDup_app in H as [H _].
    + destruct Hrow as [Hnd Hperm]. rewrite IH by (by rewrite Hperm).
      rewrite Hperm. rewrite <- app_assoc.
      by rewrite (Permutation_app_swap_app (concat rows) r sl).
Qed.

(** * The units and their threads *)

Lemma units_threads (n : Z) (g : grid_t) (u : list Z) :
  u ∈ units n g ↔ ∃ t, t ∈ threads_of n ∧ u = unit_of n g t.
Proof.
  unfold units, rows, cols, blocks. rewrite !elem_of_app, !list_elem_of_fmap.
  setoid_rewrite elem_of_threads_of. setoid_rewrite elem_of_seqZ. split.
  - intros [(r & -> & Hr) | [(c & -> & Hc) | Hb]].
    + exists (CheckRow, r, 1). split; [|done]. left. exists r. split; [lia|]. by left.
    + exists (CheckCol, 1, c). split; [|done]. left. exists c. split; [lia|]. by right.
    + destruct (has_subgrids n) eqn:Hflag; [|by apply elem_of_nil in Hb].
      apply list_elem_of_bind in Hb as (r0 & Hu & Hr0).
      apply list_elem_of_bind in Hu as (c0 & Hu & Hc0).
      apply list_elem_of_singleton in Hu as ->.
      exists (CheckSubgrid, r0, c0). split; [|done]. right.
      split; [done|]. eauto.
  - intros (t & [(i & Hi & [-> | ->]) | (Hflag & r & c & Hr & Hc & ->)] & ->);
      simpl.
    + left. exists i. split; [done | lia].
    + right. left. exists i. split; [done | lia].
    + right. right. apply Is_true_true in Hflag. rewrite Hflag.
      apply list_elem_of_bind. exists r. split; [|done].
      apply list_elem_of_bind. exists c. split; [|done].
      by apply list_elem_of_singleton.
Qed.

(** When a thread reports no duplicate: rows and columns look at the values
    above 0, blocks at every value. *)
Lemma thread_no_dup (n : Z) (g : grid_t) (t : thread) :
  (unit_flags n g t).1 = false
  ↔ NoDup (match t.1.1 with
           | CheckSubgrid => unit_of n g t
           | _ => filter (λ v, 0 < v) (unit_of n g t)
           end).
Proof.
  destruct t as [[[| |] r] c]; simpl.
  - rewrite unit_scan_dup by apply NoDup_nil_2. by rewrite app_nil_r.
  - rewrite unit_scan_dup by apply NoDup_nil_2. by rewrite app_nil_r.
  - rewrite block_scan_dup by apply NoDup_nil_2. by rewrite app_nil_r.
Qed.

Lemma all_valid_spec (n : Z) (g : grid_t) (ts : list thread) :
  all_valid n g ts = true ↔ ∀ t, t ∈ ts → (unit_flags n g t).1 = false.
Proof.
  unfold all_valid. rewrite <- Is_true_true, forallb_True, Forall_forall.
  apply forall_proper. intros t.
  by rewrite negb_True, Is_true_false.
Qed.

Lemma all_complete_spec (n : Z) (g : grid_t) (ts : list thread) :
  all_complete n g ts = true ↔ ∀ t, t ∈ ts → (unit_flags n g t).2 = false.
Proof.
  unfold all_complete. rewrite <- Is_true_true, forallb_True, Forall_forall.
  apply forall_proper. intros t.
  by rewrite negb_True, Is_true_false.
Qed.

Lemma elem_of_subgrid_unit (s : Z) (g : grid_t) (r0 c0 v : Z) :
  v ∈ subgrid_unit s g r0 c0
  ↔ ∃ i j, 0 ≤ i < s ∧ 0 ≤ j < s ∧ v = value g (r0 + i) (c0 + j).
Proof.
  unfold subgrid_unit, block_rows.
  rewrite list_elem_of_In, in_concat. setoid_rewrite <- list_elem_of_In.
  setoid_rewrite list_elem_of_fmap. setoid_rewrite elem_of_seqZ. split.
  - intros (u & (i & -> & Hi) & Hv).
    apply list_elem_of_fmap in Hv as (j & -> & Hj%elem_of_seqZ).
    exists i, j. lia.
  - intros (i & j & Hi & Hj & ->). eexists. split.
    + exists i. split; [done | lia].
    + apply list_elem_of_fmap. exists j. split; [done|].
      apply elem_of_seqZ. lia.
Qed.

(** The cells a thread of [checkPuzzle] scans are cells of the grid. *)
Lemma unit_values (n : Z) (g : grid_t) (ok : Z → bool) (t : thread) :
  all_cells n g ok → t ∈ threads_of n → Forall (λ v, ok v) (unit_of n g t).
Proof.
  intros Hcells Ht. pose proof (proj1 (all_cells_spec n g ok) Hcells) as H.
  assert (∀ r c, 1 ≤ r ≤ n → 1 ≤ c ≤ n → ok (value g r c)) as Hval.
  { intros r c Hr Hc. destruct (H r c Hr Hc) as (v & Hv & Hok).
    by rewrite (cell_value _ _ _ _ Hv). }
  apply elem_of_threads_of in Ht
    as [(i & Hi & [-> | ->]) | (Hflag & r & c & Hr & Hc & ->)]; simpl.
  - unfold row_unit. apply Forall_fmap, Forall_forall.
    intros c Hc%elem_of_seqZ. simpl. apply Hval; lia.
  - unfold col_unit. apply Forall_fmap, Forall_forall.
    intros r Hr%elem_of_seqZ. simpl. apply Hval; lia.
  - apply has_subgrids_spec in Hflag as [Hsq Hs].
    apply elem_of_block_starts in Hr as (a & Ha & ->).
    apply elem_of_block_starts in Hc as (b & Hb & ->).
    apply Forall_forall.
    intros v (i & j & Hi & Hj & ->)%elem_of_subgrid_unit.
    pose proof (block_cell_in_grid (Z.sqrt n) a b i j Ha Hb Hi Hj) as Hin.
    rewrite Hsq in Hin. apply Hval; apply Hin.
Qed.

Lemma sudoku_rules_unit (n : Z) (g : grid_t) (t : thread) :
  sudoku_rules n g → t ∈ threads_of n → NoDup (unit_of n g t).
Proof.
  unfold sudoku_rules. rewrite forallb_True, Forall_forall. intros H Ht.
  eapply bool_decide_unpack, H, units_threads. eauto.
Qed.

(** A fully filled grid that obeys the rules is reported complete and
    valid, whatever its size. *)
Lemma checkPuzzle_filled_consistent (n : Z) (g : grid_t) :
  0 ≤ n → fully_filled n g → sudoku_rules n g →
  checkPuzzle n g = Some (g, true, true).
Proof.
  intros Hn Hfull Hrules.
  rewrite checkPuzzle_spec by (done || by apply fully_filled_well_formed).
  assert (all_complete n g (threads_of n) = true) as ->.
  { apply all_complete_spec. intros t Ht.
    pose proof (unit_values n g _ t Hfull Ht) as Hvals.
    destruct t as [[[| |] r] c]; simpl in *; [| |done];
      apply unit_scan_filled; eapply Forall_impl; try exact Hvals;
      intros v Hv%bool_decide_unpack; lia. }
  assert (all_valid n g (threads_of n) = true) as ->; [|done].
  apply all_valid_spec. intros t Ht. apply thread_no_dup.
  pose proof (sudoku_rules_unit n g t Hrules Ht) as Hnd.
  destruct t as [[[| |] r] c]; simpl in *; [| |done]; by apply NoDup_filter.
Qed.

(** * Frame properties of the unit checks

    These hold for every memory and every parameters, with no assumption on
    the grid: whenever a unit check returns, it has written its own slots
    at most. *)

Lemma set_invalid_Some (p : parameters) (m m' : mem) :
  set_invalid p m = Some m' → m' = flagged true false p m.
Proof.
  unfold set_invalid. destruct (zstore _ _ _) as [l|] eqn:Hl; [|done].
  apply zstore_Some in Hl as [_ ->]. by intros [= <-].
Qed.

Lemma clear_complete_Some (p : parameters) (m m' : mem) :
  clear_complete p m = Some m' → m' = flagged false true p m.
Proof.
  unfold clear_complete. destruct (zstore _ _ _) as [l|] eqn:Hl; [|done].
  apply zstore_Some in Hl as [_ ->]. by intros [= <-].
Qed.

Lemma flagged_invalid_again (d : bool) (p : parameters) (m : mem) :
  flagged true false p (flagged d false p m) = flagged true false p m.
Proof. rewrite flagged_again. by destruct d. Qed.

Lemma scan_step_frame (p : parameters) (m0 : mem) (val : Z) (s s' : scan) :
  scan_step val p s = Some (Next s') ∨ scan_step val p s = Some (Break s') →
  (∃ d, scan_mem s = flagged d false p m0) →
  ∃ d, scan_mem s' = flagged d false p m0.
Proof.
  unfold scan_step. intros Hstep [d Hd].
  destruct (decide (val ≤ 0)).
  { destruct Hstep as [[= <-] | [=]]. simpl. eauto. }
  destruct (zload (seen s) val) as [[|]|]; simpl in Hstep.
  - destruct (set_invalid p (scan_mem s)) as [m'|] eqn:Hm'; simpl in Hstep.
    + apply set_invalid_Some in Hm'. rewrite Hd, flagged_invalid_again in Hm'.
      destruct Hstep as [[=] | [= <-]]. simpl. eauto.
    + by destruct Hstep.
  - destruct (zstore (seen s) val true); simpl in Hstep.
    + destruct Hstep as [[= <-] | [=]]. simpl. eauto.
    + by destruct Hstep.
  - by destruct Hstep.
Qed.

Lemma scan_finish_frame (p : parameters) (m0 m' : mem) (s : scan) :
  (∃ d, scan_mem s = flagged d false p m0) →
  scan_finish p s = Some m' → ∃ d i, m' = flagged d i p m0.
Proof.
  intros [d Hd]. unfold scan_finish. destruct (rowComplete s).
  - intros [= <-]. eauto.
  - intros ->%clear_complete_Some. rewrite Hd. exists d, true.
    unfold flagged. simpl. by destruct d.
Qed.

Lemma scan_frame (p : parameters) (m m' : mem)
    (fetch : grid_t → Z → option Z) (idx : list Z) (s0 : scan) :
  scan_mem s0 = m →
  for_break idx (λ i s, val ← fetch (grid (scan_mem s)) i; scan_step val p s)
    s0 ≫= scan_finish p = Some m' →
  ∃ d i, m' = flagged d i p m.
Proof.
  intros Hs0 Hrun.
  destruct (for_break _ _ _) as [s|] eqn:Hloop; simpl in Hrun; [|done].
  eapply scan_finish_frame; [|done].
  eapply (for_break_preserves (λ s, ∃ d, scan_mem s = flagged d false p m));
    [| |done].
  - intros i s1 s2 Hstep. simpl in Hstep.
    destruct (fetch _ i) as [val|]; simpl in Hstep; [|by destruct Hstep].
    by apply (scan_step_frame p m val s1 s2).
  - exists false. by rewrite flagged_none.
Qed.

Lemma checkRow_frame (p : parameters) (m m' : mem) :
  checkRow p m = Some m' → ∃ d i, m' = flagged d i p m.
Proof.
  unfold checkRow. intros H.
  by apply (scan_frame p m m' (λ g c, cell g (row p) c) (seqZ 1 (psize p))
              {| seen := replicate (Z.to_nat (psize p + 1)) false;
                 rowComplete := true; scan_mem := m |}).
Qed.

Lemma checkCol_frame (p : parameters) (m m' : mem) :
  checkCol p m = Some m' → ∃ d i, m' = flagged d i p m.
Proof.
  unfold checkCol. intros H.
  by apply (scan_frame p m m' (λ g r, cell g r (column p))
              (seqZ 1 (psize p))
              {| seen := replicate (Z.to_nat (psize p + 1)) false;
                 rowComplete := true; scan_mem := m |}).
Qed.

Lemma checkSubgrid_inner_frame (p : parameters) (m0 : mem) (j : Z)
    (s s' : subscan) :
  checkSubgrid_inner p j s = Some (Next s')
  ∨ checkSubgrid_inner p j s = Some (Break s') →
  (∃ d, sub_mem s = flagged d false p m0) →
  ∃ d, sub_mem s' = flagged d false p m0.
Proof.
  unfold checkSubgrid_inner. intros Hstep [d Hd].
  destruct (cell _ _ _) as [val|]; simpl in Hstep; [|by destruct Hstep].
  destruct (zload (sub_seen s) val) as [[|]|]; simpl in Hstep.
  - destruct (set_invalid p (sub_mem s)) as [m'|] eqn:Hm'; simpl in Hstep.
    + apply set_invalid_Some in Hm'. rewrite Hd, flagged_invalid_again in Hm'.
      destruct Hstep as [[=] | [= <-]]. simpl. eauto.
    + by destruct Hstep.
  - destruct (zstore (sub_seen s) val true); simpl in Hstep.
    + destruct Hstep as [[= <-] | [=]]. simpl. eauto.
    + by destruct Hstep.
  - by destruct Hstep.
Qed.

Lemma checkSubgrid_frame (p : parameters) (m m' : mem) :
  checkSubgrid p m = Some m' → ∃ d, m' = flagged d false p m.
Proof.
  unfold checkSubgrid. destruct (int_sqrt (psize p)) as [s|]; simpl; [|done].
  destruct (for_loop _ _ _) as [st|] eqn:Hloop; simpl; [|done].
  intros [= <-].
  eapply (for_loop_preserves (λ s, ∃ d, sub_mem s = flagged d false p m));
    [| |done].
  - intros i s1 s2 Houter Hs1. rewrite checkSubgrid_outer_eq in Houter.
    destruct (for_break _ _ _) as [s3|] eqn:Hinner; simpl in Houter; [|done].
    injection Houter as <-. simpl.
    eapply (for_break_preserves
              (λ s, ∃ d, sub_mem s = flagged d false p m)); [| |done].
    + intros j. apply checkSubgrid_inner_frame.
    + done.
  - exists false. by rewrite flagged_none.
Qed.

(** Every start routine leaves the grid alone and writes at most the two
    slots of its own parameters. *)
Lemma start_frame (f : routine) (p : parameters) (m m' : mem) :
  start f p m = Some m' → ∃ d i, m' = flagged d i p m.
Proof.
  destruct f; simpl.
  - apply checkRow_frame.
  - apply checkCol_frame.
  - intros [d ->]%checkSubgrid_frame. eauto.
Qed.

Lemma join_frame (ps : list (option (routine * parameters))) (i : Z)
    (v v' : verdict) :
  join ps i v = Some v' → grid (v_mem v') = grid (v_mem v).
Proof.
  unfold join.
  destruct (mjoin (zload ps i)) as [[f p]|]; cbn [mbind option_bind fst snd];
    [|done].
  destruct (start f p (v_mem v)) as [m'|] eqn:Hstart;
    cbn [mbind option_bind]; [|done].
  apply start_frame in Hstart as (d & c & ->).
  destruct (zload (listInvalid _) _); cbn [mbind option_bind]; [|done].
  destruct (zload (listComplete _) _); cbn [mbind option_bind]; [|done].
  by intros [= <-].
Qed.

(** [checkPuzzle] never changes the grid. *)
Lemma checkPuzzle_frame (n : Z) (g g' : grid_t) (c v : bool) :
  checkPuzzle n g = Some (g', c, v) → g' = g.
Proof.
  unfold checkPuzzle. destruct (int_sqrt n) as [s|]; simpl; [|done].
  destruct (for_loop (seqZ 1 n) _ _) as [sp1|]; simpl; [|done].
  match goal with
  | |- context [mbind _ ?o] => destruct o as [sp2|]; simpl; [|done]
  end.
  destruct (for_loop _ _ _) as [vd|] eqn:Hloop; simpl; [|done].
  intros [= <- _ _].
  apply (for_loop_preserves (λ vd, grid (v_mem vd) = g)) in Hloop;
    [done | | done].
  intros i v1 v2 Hjoin <-. by apply join_frame in Hjoin.
Qed.

Lemma all_complete_app (n : Z) (g : grid_t) (ts1 ts2 : list thread) :
  all_complete n g (ts1 ++ ts2)
  = all_complete n g ts1 && all_complete n g ts2.
Proof. unfold all_complete. apply forallb_app. Qed.

Lemma all_complete_subgrids (n : Z) (g : grid_t) (s : Z) :
  all_complete n g (subgrid_threads s) = true.
Proof.
  apply all_complete_spec. intros t Ht. unfold subgrid_threads in Ht.
  apply list_elem_of_bind in Ht as (r & Ht & _).
  apply list_elem_of_bind in Ht as (c & Ht & _).
  by apply list_elem_of_singleton in Ht as ->.
Qed.

(** The complete flag of [checkPuzzle] is the one of its row and column
    threads. *)
Lemma checkPuzzle_complete_rows_cols (n : Z) (g : grid_t) :
  all_complete n g (threads_of n)
  = all_complete n g (seqZ 1 n ≫= row_col_threads).
Proof.
  unfold threads_of. rewrite all_complete_app.
  destruct (has_subgrids n).
  - by rewrite all_complete_subgrids, andb_true_r.
  - by rewrite andb_true_r.
Qed.

Lemma NoDup_nonzero_1 (u : list Z) : NoDup u → NoDup (nonzero u).
Proof. apply NoDup_filter. Qed.

(** A unit with at most one empty cell has a duplicate iff it has a
    duplicate nonzero value. *)
Lemma NoDup_nonzero (u : list Z) :
  (empties u ≤ 1)%nat → NoDup u ↔ NoDup (nonzero u).
Proof.
  intros Hone. split; [apply NoDup_nonzero_1|]. intros Hnz.
  rewrite <- (filter_app_complement (λ v, v ≠ 0) u).
  apply NoDup_app. split; [done|]. split.
  - intros x [Hx _]%list_elem_of_filter [Hx' _]%list_elem_of_filter. done.
  - unfold empties in Hone.
    rewrite (list_filter_iff (λ v, v = 0) (λ v, ¬ v ≠ 0)) in Hone
      by (intros v; lia).
    assert (Forall (λ v, v = 0) (filter (λ v, ¬ v ≠ 0) u)) as Hzero.
    { apply Forall_forall. intros v [Hv _]%list_elem_of_filter. lia. }
    destruct (filter (λ v, ¬ v ≠ 0) u) as [|a [|b l]]; simpl in Hone.
    + apply NoDup_nil_2.
    + apply NoDup_singleton.
    + lia.
Qed.

(** On values that are not negative, the values above 0 are the nonzero
    ones. *)
Lemma positive_nonzero (u : list Z) :
  Forall (λ v, 0 ≤ v) u → filter (λ v, 0 < v) u = nonzero u.
Proof.
  unfold nonzero. induction 1 as [|v u Hv Hu IH]; [done|].
  destruct (decide (v = 0)) as [->|Hne].
  - by rewrite !filter_cons_False by lia.
  - rewrite !filter_cons_True by lia. by rewrite IH.
Qed.

Lemma unit_not_negative (n : Z) (g : grid_t) (t : thread) :
  well_formed n g → t ∈ threads_of n → Forall (λ v, 0 ≤ v) (unit_of n g t).
Proof.
  intros Hwf Ht. eapply Forall_impl; [by apply (unit_values n g _ t Hwf)|].
  intros v Hv%bool_decide_unpack. lia.
Qed.

Lemma blocks_one_empty_unit (n : Z) (g : grid_t) (r c : Z) :
  blocks_one_empty n g → (CheckSubgrid, r, c) ∈ threads_of n →
  (empties (subgrid_unit (Z.sqrt n) g r c) ≤ 1)%nat.
Proof.
  unfold blocks_one_empty. rewrite forallb_True, Forall_forall.
  intros H Ht. eapply bool_decide_unpack. apply H.
  apply elem_of_threads_of in Ht as [(i & _ & [[=] | [=]]) | (Hflag & Ht)].
  destruct Ht as (r' & c' & Hr & Hc & [= <- <-]).
  apply Is_true_true in Hflag. rewrite Hflag.
  unfold blocks. apply list_elem_of_bind. exists r. split; [|done].
  apply list_elem_of_bind. exists c. split; [|done].
  by apply list_elem_of_singleton.
Qed.

(** A thread reports a duplicate iff its unit holds a duplicate nonzero
    value, on a grid no block of which has two empty cells. *)
Lemma thread_dup_nonzero (n : Z) (g : grid_t) (t : thread) :
  well_formed n g → blocks_one_empty n g → t ∈ threads_of n →
  (unit_flags n g t).1 = false ↔ NoDup (nonzero (unit_of n g t)).
Proof.
  intros Hwf Hone Ht. rewrite thread_no_dup.
  pose proof (unit_not_negative n g t Hwf Ht) as Hpos.
  destruct t as [[[| |] r] c]; cbn [fst snd] in *.
  - by rewrite positive_nonzero.
  - by rewrite positive_nonzero.
  - apply NoDup_nonzero. by apply blocks_one_empty_unit.
Qed.

Lemma all_valid_false (n : Z) (g : grid_t) (ts : list thread) :
  all_valid n g ts = false ↔ ∃ t, t ∈ ts ∧ (unit_flags n g t).1 = true.
Proof.
  unfold all_valid. induction ts as [|t ts IH]; simpl.
  - split; [done|]. by intros (t & Ht%elem_of_nil & _).
  - rewrite andb_false_iff, IH, negb_false_iff.
    setoid_rewrite elem_of_cons. naive_solver.
Qed.

Lemma has_duplicate_spec (n : Z) (g : grid_t) :
  has_duplicate n g
  ↔ ∃ t, t ∈ threads_of n ∧ ¬ NoDup (nonzero (unit_of n g t)).
Proof.
  unfold has_duplicate. rewrite existb_True, Exists_exists.
  setoid_rewrite units_threads. setoid_rewrite negb_True.
  setoid_rewrite bool_decide_spec. naive_solver.
Qed.

(** * The single-candidate filler *)

Lemma zload_zstore {A} (a a' : list A) (i j : Z) (x : A) :
  zstore a i x = Some a' →
  zload a' j = if decide (j = i) then Some x else zload a j.
Proof.
  intros [Hi ->]%zstore_Some. unfold zload.
  destruct (decide (j = i)) as [->|Hne].
  - rewrite decide_True by lia. apply list_lookup_insert_eq. lia.
  - destruct (decide (0 ≤ j)); [|done].
    apply list_lookup_insert_ne. lia.
Qed.

Lemma store_cell_Some (g g' : grid_t) (r c k : Z) :
  store_cell g r c k = Some g' →
  ∀ r' c', cell g' r' c'
           = if decide ((r', c') = (r, c)) then Some k else cell g r' c'.
Proof.
  unfold store_cell, cell. intros H r' c'.
  destruct (zload g r) as [line|] eqn:Hline; simpl in H; [|done].
  destruct (zstore line c k) as [line'|] eqn:Hline'; simpl in H; [|done].
  rewrite (zload_zstore _ _ _ r' _ H).
  destruct (decide (r' = r)) as [->|Hr]; simpl.
  - rewrite (zload_zstore _ _ _ c' _ Hline'), Hline. simpl.
    destruct (decide (c' = c)) as [->|Hc].
    + by rewrite decide_True.
    + rewrite decide_False; [done|]. by intros [= ?].
  - rewrite decide_False; [done|]. by intros [= ?].
Qed.

Lemma store_cell_present (g : grid_t) (r c k v : Z) :
  cell g r c = Some v → is_Some (store_cell g r c k).
Proof.
  unfold store_cell, cell. intros H.
  destruct (zload g r) as [line|] eqn:Hline; simpl in *; [|done].
  apply zload_Some in Hline as [Hr Hline].
  apply zload_Some in H as [Hc H].
  apply lookup_lt_Some in Hline. apply lookup_lt_Some in H.
  rewrite zstore_in_range by lia. simpl.
  rewrite zstore_in_range by lia. done.
Qed.

Lemma elem_of_peers (n : Z) (g : grid_t) (r c v : Z) :
  v ∈ peers n g r c
  ↔ ∃ num, 1 ≤ num ≤ n ∧ (v = value g r num ∨ v = value g num c).
Proof.
  unfold peers, row_unit, col_unit.
  rewrite elem_of_app, !list_elem_of_fmap. setoid_rewrite elem_of_seqZ.
  split.
  - intros [(num & -> & H) | (num & -> & H)]; exists num; split; auto; lia.
  - intros (num & H & [-> | ->]); [left | right]; exists num;
      (split; [done | lia]).
Qed.

(** One round of the marking loop: the values above 0 at [(r, num)] and
    [(num, c)] are struck out of [possible]. *)
Lemma mark_spec (n : Z) (g : grid_t) (r c num x y : Z) (a : list bool)
    (sl : list Z) :
  marks false n a sl →
  cell g r num = Some x → x ≤ n → cell g num c = Some y → y ≤ n →
  ∃ a' sl', mark g r c num a = Some a' ∧ marks false n a' sl'
            ∧ ∀ v, v ∈ sl' ↔ v ∈ sl ∨ (0 < v ∧ (v = x ∨ v = y)).
Proof.
  intros Hmarks Hx Hxn Hy Hyn. unfold mark. rewrite Hx, Hy. simpl.
  destruct (decide (x > 0)) as [Hxp|Hxp]; simpl.
  - destruct (marks_store false n a sl x) as [-> Hm1]; [done | lia |]. simpl.
    destruct (decide (y > 0)) as [Hyp|Hyp]; simpl.
    + destruct (marks_store false n _ (x :: sl) y Hm1) as [-> Hm2]; [lia|].
      eexists _, _. split; [done|]. split; [done|].
      intros v. rewrite !elem_of_cons. naive_solver lia.
    + eexists _, _. split; [done|]. split; [done|].
      intros v. rewrite !elem_of_cons. naive_solver lia.
  - destruct (decide (y > 0)) as [Hyp|Hyp]; simpl.
    + destruct (marks_store false n a sl y) as [-> Hm2]; [done | lia |].
      eexists _, _. split; [done|]. split; [done|].
      intros v. rewrite !elem_of_cons. naive_solver lia.
    + eexists _, _. split; [done|]. split; [done|]. naive_solver lia.
Qed.

Lemma mark_loop_spec (n : Z) (g : grid_t) (r c : Z) (idx : list Z) :
  (∀ num, num ∈ idx →
     ∃ x y, cell g r num = Some x ∧ x ≤ n ∧ cell g num c = Some y ∧ y ≤ n) →
  ∀ (a : list bool) (sl : list Z),
    marks false n a sl →
    ∃ a' sl', for_loop idx (mark g r c) a = Some a' ∧ marks false n a' sl'
              ∧ ∀ v, v ∈ sl'
                     ↔ v ∈ sl ∨ (0 < v ∧ ∃ num, num ∈ idx ∧
                                   (v = value g r num ∨ v = value g num c)).
Proof.
  induction idx as [|num idx IH]; intros Hcells a sl Hmarks; simpl.
  - exists a, sl. split; [done|]. split; [done|]. intros v. split; [auto|].
    intros [? | (_ & num & Hnum%elem_of_nil & _)]; done.
  - destruct (Hcells num) as (x & y & Hx & Hxn & Hy & Hyn); [left|].
    destruct (mark_spec n g r c num x y a sl)
      as (a1 & sl1 & -> & Hm1 & Hsl1); [done..|]. simpl.
    destruct (IH (λ k Hk, Hcells k (list_elem_of_further _ _ _ Hk)) a1 sl1 Hm1)
      as (a2 & sl2 & Hloop & Hm2 & Hsl2).
    exists a2, sl2. split; [done|]. split; [done|].
    intros v. rewrite Hsl2, Hsl1.
    rewrite <- (cell_value _ _ _ _ Hx), <- (cell_value _ _ _ _ Hy).
    setoid_rewrite elem_of_cons. naive_solver.
Qed.

(** The counting loop: the number of values still possible, and the last
    of them. *)
Lemma count_loop_spec (n : Z) (a : list bool) (sl : list Z) (idx : list Z) :
  marks false n a sl →
  (∀ k, k ∈ idx → 0 ≤ k ≤ n) →
  ∀ acc : Z * option Z,
    for_loop idx (count a) acc
    = Some (acc.1 + Z.of_nat (length (filter (λ k, k ∉ sl) idx)),
            from_option Some acc.2 (last (filter (λ k, k ∉ sl) idx))).
Proof.
  intros Hmarks. induction idx as [|k idx IH]; intros Hidx [cnt mn].
  - simpl. by rewrite Z.add_0_r.
  - cbn [for_loop].
    change (count a k (cnt, mn))
      with (zload a k ≫= λ p : bool, if p then Some (cnt + 1, Some k)
                                     else Some (cnt, mn)).
    rewrite (marks_load false n a sl k); [|done | apply Hidx; left]. simpl.
    destruct (decide (k ∈ sl)) as [Hin|Hnotin].
    + rewrite bool_decide_eq_true_2 by done. simpl.
      rewrite filter_cons_False by naive_solver.
      apply IH. intros j Hj. apply Hidx. by right.
    + rewrite bool_decide_eq_false_2 by done. simpl.
      rewrite filter_cons_True by done.
      rewrite IH by (intros j Hj; apply Hidx; by right). simpl.
      rewrite last_cons. f_equal. f_equal; [lia|].
      by destruct (last _).
Qed.

(** Whatever the grid, a step of the filler writes at most its own cell. *)
Lemma solve_cell_cases (n r c : Z) (s s' : solver) :
  solve_cell n r c s = Some s' →
  s_grid s' = s_grid s
  ∨ (cell (s_grid s) r c = Some 0
     ∧ ∃ k, store_cell (s_grid s) r c k = Some (s_grid s')).
Proof.
  unfold solve_cell.
  destruct (cell (s_grid s) r c) as [v|]; simpl; [|done].
  destruct (decide (v = 0)) as [->|]; [|intros [= <-]; by left].
  destruct (for_loop _ (mark _ _ _) _) as [possible|]; simpl; [|done].
  destruct (for_loop _ (count _) _) as [[cnt mn]|]; simpl; [|done].
  destruct (decide (cnt = 1)); [|intros [= <-]; by left].
  destruct mn as [k|]; simpl; [|done].
  destruct (store_cell _ _ _ _) as [g'|] eqn:Hstore; simpl; [|done].
  intros [= <-]. right. eauto.
Qed.

Lemma solve_cell_other (n r c : Z) (s s' : solver) (r' c' : Z) :
  solve_cell n r c s = Some s' → (r', c') ≠ (r, c) →
  cell (s_grid s') r' c' = cell (s_grid s) r' c'.
Proof.
  intros [-> | (_ & k & Hstore)]%solve_cell_cases Hne; [done|].
  rewrite (store_cell_Some _ _ _ _ _ Hstore). by rewrite decide_False.
Qed.

(** A cell that is not empty is skipped. *)
Lemma solve_cell_filled (n r c v : Z) (s : solver) :
  cell (s_grid s) r c = Some v → v ≠ 0 → solve_cell n r c s = Some s.
Proof.
  intros Hv Hne. unfold solve_cell. rewrite Hv. simpl.
  by rewrite decide_False.
Qed.

(** The values the marking loop strikes out are the nonzero values of the
    row and the column. *)
Lemma struck_candidates (n : Z) (g : grid_t) (r c : Z) (sl : list Z) :
  well_formed n g → 1 ≤ r ≤ n → 1 ≤ c ≤ n →
  (∀ v, v ∈ sl ↔ v ∈ [] ∨ (0 < v ∧ ∃ num, num ∈ seqZ 1 n ∧
                             (v = value g r num ∨ v = value g num c))) →
  filter (λ k, k ∉ sl) (seqZ 1 n) = candidates n g r c.
Proof.
  intros Hwf Hr Hc Hsl. unfold candidates. apply list_filter_iff. intros k.
  unfold nonzero. rewrite Hsl, list_elem_of_filter, elem_of_peers, elem_of_nil.
  setoid_rewrite elem_of_seqZ.
  assert (∀ num, 1 ≤ num ≤ n → 0 ≤ value g r num ∧ 0 ≤ value g num c) as Hpos.
  { intros num Hnum.
    destruct (well_formed_cell n g r num) as (x & Hx & ?); [done..|].
    destruct (well_formed_cell n g num c) as (y & Hy & ?); [done..|].
    rewrite (cell_value _ _ _ _ Hx), (cell_value _ _ _ _ Hy). lia. }
  split; intros Hnot Hin; apply Hnot.
  - destruct Hin as [Hk (num & Hnum & Hv)]. right. split.
    + destruct (Hpos num Hnum). destruct Hv; lia.
    + exists num. split; [lia | done].
  - destruct Hin as [[] | [Hk (num & Hnum & Hv)]]. split; [lia|].
    exists num. split; [lia | done].
Qed.

(** An empty cell: the candidates are counted, and the cell is written iff
    there is exactly one. *)
Lemma solve_cell_empty (n r c : Z) (s : solver) :
  well_formed n (s_grid s) → 1 ≤ r ≤ n → 1 ≤ c ≤ n →
  cell (s_grid s) r c = Some 0 →
  ∃ s', solve_cell n r c s = Some s'
        ∧ match candidates n (s_grid s) r c with
          | [k] => store_cell (s_grid s) r c k = Some (s_grid s')
          | _ => s_grid s' = s_grid s
          end.
Proof.
  intros Hwf Hr Hc Hcell. unfold solve_cell. rewrite Hcell. simpl.
  destruct (mark_loop_spec n (s_grid s) r c (seqZ 1 n)) with
    (a := replicate (Z.to_nat (n + 1)) true) (sl := @nil Z)
    as (possible & sl & -> & Hmarks & Hsl).
  { intros num Hnum%elem_of_seqZ.
    destruct (well_formed_cell n (s_grid s) r num) as (x & Hx & ?);
      [done | done | lia |].
    destruct (well_formed_cell n (s_grid s) num c) as (y & Hy & ?);
      [done | lia | done |].
    exists x, y. repeat split; (done || lia). }
  { apply marks_possible_init. }
  simpl. rewrite (count_loop_spec n possible sl) by
    (done || (intros k Hk%elem_of_seqZ; lia)).
  rewrite (struck_candidates n (s_grid s) r c sl) by done. simpl.
  assert (∀ k, k ∈ candidates n (s_grid s) r c → 1 ≤ k ≤ n) as Hcand.
  { intros k [_ Hk%elem_of_seqZ]%list_elem_of_filter. lia. }
  destruct (candidates n (s_grid s) r c) as [|k [|k' l]]; simpl.
  - eauto.
  - destruct (store_cell_present (s_grid s) r c k 0 Hcell) as [g' ->].
    simpl. eauto.
  - rewrite decide_False by lia. eauto.
Qed.

Lemma solve_cell_well_formed (n r c : Z) (s s' : solver) :
  well_formed n (s_grid s) → 1 ≤ r ≤ n → 1 ≤ c ≤ n →
  solve_cell n r c s = Some s' → well_formed n (s_grid s').
Proof.
  intros Hwf Hr Hc Hstep.
  destruct (well_formed_cell n (s_grid s) r c) as (v & Hcell & Hv); [done..|].
  destruct (decide (v = 0)) as [->|Hne].
  2:{ rewrite (solve_cell_filled n r c v s) in Hstep by done.
      by injection Hstep as <-. }
  destruct (solve_cell_empty n r c s Hwf Hr Hc Hcell) as (s1 & Hs1 & Hcand).
  rewrite Hstep in Hs1. injection Hs1 as <-.
  assert (∀ j, j ∈ candidates n (s_grid s) r c → 1 ≤ j ≤ n) as Hin.
  { intros j [_ Hj%elem_of_seqZ]%list_elem_of_filter. lia. }
  destruct (candidates n (s_grid s) r c) as [|k [|k' l]];
    [by rewrite Hcand | | by rewrite Hcand].
  unfold well_formed. apply all_cells_spec. intros r' c' Hr' Hc'.
  rewrite (store_cell_Some _ _ _ _ _ Hcand).
  destruct (decide ((r', c') = (r, c))).
  - exists k. split; [done|]. apply bool_decide_pack.
    specialize (Hin k ltac:(left)). lia.
  - destruct (well_formed_cell n (s_grid s) r' c') as (w & Hw & ?); [done..|].
    exists w. split; [done|]. by apply bool_decide_pack.
Qed.

(** ** The pass over the grid *)

Lemma fill_cells_app (n : Z) (l1 l2 : list (Z * Z)) (s : solver) :
  fill_cells n (l1 ++ l2) s = fill_cells n l1 s ≫= fill_cells n l2.
Proof.
  revert s. induction l1 as [|[r c] l1 IH]; intros s; simpl; [done|].
  destruct (solve_cell n r c s) as [s'|]; simpl; [apply IH | done].
Qed.

Lemma nested_loops_cells (n : Z) (rs cs : list Z) (s : solver) :
  for_loop rs (λ r s, for_loop cs (λ c s, solve_cell n r c s) s) s
  = fill_cells n (rs ≫= λ r, cs ≫= λ c, [(r, c)]) s.
Proof.
  assert (∀ r s, for_loop cs (λ c s, solve_cell n r c s) s
                 = fill_cells n (cs ≫= λ c, [(r, c)]) s) as Hinner.
  { intros r. induction cs as [|c cs IH]; intros s1; simpl; [done|].
    destruct (solve_cell n r c s1) as [s'|]; simpl; [apply IH | done]. }
  revert s. induction rs as [|r rs IH]; intros s; [done|].
  rewrite bind_cons, fill_cells_app. cbn [for_loop].
  rewrite Hinner. destruct (fill_cells n _ s) as [s'|]; simpl;
    [apply IH | done].
Qed.

(** The two nested loops of [solveMissingNumber] visit the cells in the
    order of [cells], threading one state. *)
Lemma solveMissingNumber_cells (n : Z) (g : grid_t) :
  solveMissingNumber g n
  = s_grid <$> fill_cells n (cells n) {| s_grid := g; missingNum := None |}.
Proof.
  unfold solveMissingNumber, cells. rewrite nested_loops_cells.
  by destruct (fill_cells n _ _).
Qed.

Lemma elem_of_cells (n r c : Z) :
  (r, c) ∈ cells n ↔ 1 ≤ r ≤ n ∧ 1 ≤ c ≤ n.
Proof.
  unfold cells. rewrite list_elem_of_bind.
  setoid_rewrite list_elem_of_bind. setoid_rewrite list_elem_of_singleton.
  setoid_rewrite elem_of_seqZ. split.
  - intros (r' & (c' & [= -> ->] & Hc) & Hr). lia.
  - intros [Hr Hc]. exists r. split; [|lia]. exists c. split; [done | lia].
Qed.

Lemma seqZ_sorted (m : Z) (k : nat) :
  StronglySorted Z.lt (seqZ m (Z.of_nat k)).
Proof.
  revert m. induction k as [|k IH]; intros m.
  - constructor.
  - rewrite seqZ_succ. constructor; [apply IH|].
    apply Forall_forall. intros x Hx%elem_of_seqZ. lia.
Qed.

Lemma bind_sorted {A B} (R : relation A) (R' : relation B)
    (f : A → list B) (l : list A) :
  StronglySorted R l →
  (∀ x, x ∈ l → StronglySorted R' (f x)) →
  (∀ x1 x2 y1 y2, R x1 x2 → y1 ∈ f x1 → y2 ∈ f x2 → R' y1 y2) →
  StronglySorted R' (l ≫= f).
Proof.
  intros Hl Hf HR. induction Hl as [|x l Hl IH Hx].
  - constructor.
  - rewrite bind_cons. apply StronglySorted_app_2.
    + intros y1 y2 Hy1 (x2 & Hy2 & Hx2)%list_elem_of_bind.
      rewrite Forall_forall in Hx. eapply HR; eauto.
    + apply Hf. left.
    + apply IH. intros x' Hx'. apply Hf. by right.
Qed.

(** [cells] lists the cells in row-major order. *)
Lemma cells_row_major (n : Z) : StronglySorted row_major (cells n).
Proof.
  unfold cells.
  assert (∀ m, StronglySorted Z.lt (seqZ 1 m)) as Hseq.
  { intros m. destruct (decide (0 ≤ m)).
    - rewrite <- (Z2Nat.id m) by done. apply seqZ_sorted.
    - rewrite seqZ_nil by lia. constructor. }
  apply (bind_sorted Z.lt); [apply Hseq | |].
  - intros r _. apply (bind_sorted Z.lt); [apply Hseq | |].
    + intros c _. repeat constructor.
    + intros c1 c2 y1 y2 Hc ->%list_elem_of_singleton ->%list_elem_of_singleton.
      right. simpl. done.
  - intros r1 r2 y1 y2 Hr (c1 & ->%list_elem_of_singleton & _)%list_elem_of_bind
      (c2 & ->%list_elem_of_singleton & _)%list_elem_of_bind.
    by left.
Qed.

Lemma row_major_irrefl (a : Z * Z) : ¬ row_major a a.
Proof. unfold row_major. lia. Qed.

(** A cell is visited once: it is not among the cells that follow it. *)
Lemma cells_once (n : Z) (pre post : list (Z * Z)) (x : Z * Z) :
  cells n = pre ++ x :: post → x ∉ post.
Proof.
  intros Hcells Hin. pose proof (cells_row_major n) as Hsorted.
  rewrite Hcells in Hsorted.
  apply StronglySorted_app_1_r, StronglySorted_cons in Hsorted as [Hx _].
  rewrite Forall_forall in Hx. by apply (row_major_irrefl x), Hx.
Qed.

Lemma cells_not_before (n : Z) (pre post : list (Z * Z)) (x : Z * Z) :
  cells n = pre ++ x :: post → x ∉ pre.
Proof.
  intros Hcells Hin. pose proof (cells_row_major n) as Hsorted.
  rewrite Hcells in Hsorted. apply (row_major_irrefl x).
  eapply StronglySorted_app_1_elem_of; [done | done | left].
Qed.

(** On a grid of the data model the pass never fails, keeps the grid in
    the data model, and leaves alone the cells it does not visit. *)
Lemma fill_cells_total (n : Z) (l : list (Z * Z)) :
  (∀ r c, (r, c) ∈ l → 1 ≤ r ≤ n ∧ 1 ≤ c ≤ n) →
  ∀ s, well_formed n (s_grid s) →
       ∃ s', fill_cells n l s = Some s' ∧ well_formed n (s_grid s')
             ∧ ∀ r c, (r, c) ∉ l → cell (s_grid s') r c = cell (s_grid s) r c.
Proof.
  induction l as [|[r c] l IH]; intros Hl s Hwf; simpl.
  - eauto.
  - destruct (Hl r c) as [Hr Hc]; [left|].
    assert (∃ s1, solve_cell n r c s = Some s1) as [s1 Hs1].
    { destruct (well_formed_cell n (s_grid s) r c) as (v & Hv & _); [done..|].
      destruct (decide (v = 0)) as [->|Hne].
      - destruct (solve_cell_empty n r c s) as (s1 & ? & _); eauto.
      - exists s. by apply (solve_cell_filled n r c v). }
    rewrite Hs1. simpl.
    destruct (IH (λ r' c' H, Hl r' c' (list_elem_of_further _ _ _ H)) s1)
      as (s' & Hs' & Hwf' & Hother).
    { by apply (solve_cell_well_formed n r c s). }
    exists s'. split; [done|]. split; [done|].
    intros r' c' Hnot. rewrite not_elem_of_cons in Hnot.
    destruct Hnot as [Hne Hnot]. rewrite Hother by done.
    by apply (solve_cell_other n r c s s1).
Qed.

Lemma fill_cells_filled (n : Z) (l : list (Z * Z)) (s : solver) :
  (∀ r c, (r, c) ∈ l → ∃ v, cell (s_grid s) r c = Some v ∧ v ≠ 0) →
  fill_cells n l s = Some s.
Proof.
  induction l as [|[r c] l IH]; intros Hl; simpl; [done|].
  destruct (Hl r c) as (v & Hv & Hne); [left|].
  rewrite (solve_cell_filled n r c v s) by done. simpl.
  apply IH. intros r' c' H. apply Hl. by right.
Qed.

Lemma filter_unique (P : Z → Prop) `{!∀ k, Decision (P k)} (l : list Z)
    (d : Z) :
  NoDup l → d ∈ l → (∀ k, k ∈ l → P k ↔ k = d) → filter P l = [d].
Proof.
  induction 1 as [|x l Hx Hl IH]; intros Hd HP.
  - by apply elem_of_nil in Hd.
  - destruct (decide (x = d)) as [->|Hne].
    + rewrite filter_cons_True by (apply HP; [left | done]). f_equal.
      clear IH Hd. induction l as [|y l IHl]; [done|].
      apply NoDup_cons in Hl as [_ Hl]. apply not_elem_of_cons in Hx as [? ?].
      rewrite filter_cons_False.
      * apply IHl; [done | done |]. intros k Hk. apply HP.
        apply elem_of_cons in Hk as [-> | Hk]; [left | by do 2 right].
      * intros Hy. apply HP in Hy; [done | right; left].
    + rewrite filter_cons_False.
      * apply IH; [by apply elem_of_cons in Hd as [? | ?] |].
        intros k Hk. apply HP. by right.
      * intros Hy. apply HP in Hy; [done | left].
Qed.

(** When the digits in the row and the column are all of [1..n] but [d],
    the candidate set is [d] alone. *)
Lemma candidates_single (n : Z) (g : grid_t) (r c d : Z) :
  1 ≤ d ≤ n →
  (∀ k, 1 ≤ k ≤ n → k ∈ peers n g r c ↔ k ≠ d) →
  candidates n g r c = [d].
Proof.
  intros Hd Hpeers. unfold candidates.
  apply filter_unique; [apply NoDup_seqZ | apply elem_of_seqZ; lia |].
  intros k Hk%elem_of_seqZ. unfold nonzero.
  rewrite list_elem_of_filter, Hpeers by lia.
  destruct (decide (k = d)); naive_solver lia.
Qed.

(** * Further facts *)

(** The threads of [checkPuzzle] commute: two threads with different slots,
    run one after the other in either order, leave the same memory.  The
    order in which the embedding runs them is therefore immaterial. *)
Lemma flagged_commute (d1 i1 d2 i2 : bool) (p1 p2 : parameters) (m : mem) :
  Z.to_nat (invalid p1) ≠ Z.to_nat (invalid p2) →
  Z.to_nat (complete p1) ≠ Z.to_nat (complete p2) →
  flagged d1 i1 p1 (flagged d2 i2 p2 m)
  = flagged d2 i2 p2 (flagged d1 i1 p1 m).
Proof.
  intros Hi Hc. unfold flagged. simpl. f_equal.
  - destruct d1, d2; try done. by apply list_insert_insert_ne.
  - destruct i1, i2; try done. by apply list_insert_insert_ne.
Qed.

Lemma threads_commute (n : Z) (g : grid_t) (t1 t2 : thread) (k1 k2 : Z)
    (m : mem) :
  thread_ok n g t1 → thread_ok n g t2 → grid m = g → k1 ≠ k2 →
  0 ≤ k1 < Z.of_nat (length (listInvalid m)) →
  0 ≤ k1 < Z.of_nat (length (listComplete m)) →
  0 ≤ k2 < Z.of_nat (length (listInvalid m)) →
  0 ≤ k2 < Z.of_nat (length (listComplete m)) →
  let p1 := {| row := t1.1.2; column := t1.2; psize := n;
               complete := k1; invalid := k1 |} in
  let p2 := {| row := t2.1.2; column := t2.2; psize := n;
               complete := k2; invalid := k2 |} in
  start t1.1.1 p1 m ≫= start t2.1.1 p2
  = start t2.1.1 p2 m ≫= start t1.1.1 p1.
Proof.
  intros H1 H2 Hg Hne Hi1 Hc1 Hi2 Hc2 p1 p2.
  assert (∀ m', grid m' = g → slots_ok p1 m' →
                start t1.1.1 p1 m'
                = Some (flagged (unit_flags n g t1).1 (unit_flags n g t1).2
                          p1 m')) as E1 by (intros; by apply H1).
  assert (∀ m', grid m' = g → slots_ok p2 m' →
                start t2.1.1 p2 m'
                = Some (flagged (unit_flags n g t2).1 (unit_flags n g t2).2
                          p2 m')) as E2 by (intros; by apply H2).
  assert (slots_ok p1 m) as Hs1 by done.
  assert (slots_ok p2 m) as Hs2 by done.
  rewrite (E1 m), (E2 m) by done. cbn [mbind option_bind].
  rewrite E1, E2 by (done || by apply slots_ok_flagged).
  f_equal. symmetry. apply flagged_commute; simpl; lia.
Qed.

Lemma has_empty_spec (n : Z) (g : grid_t) :
  has_empty n g ↔ ∃ r c, 1 ≤ r ≤ n ∧ 1 ≤ c ≤ n ∧ cell g r c = Some 0.
Proof.
  unfold has_empty. rewrite existb_True, Exists_exists.
  setoid_rewrite existb_True. setoid_rewrite Exists_exists.
  setoid_rewrite bool_decide_spec. setoid_rewrite elem_of_seqZ.
  split.
  - intros (r & Hr & c & Hc & H). exists r, c. split; [lia|]. split; [lia|done].
  - intros (r & c & Hr & Hc & H). exists r. split; [lia|]. exists c.
    split; [lia | done].
Qed.

(** What does hold of C2: a grid with an empty cell that is reported valid
    is reported incomplete. *)
Lemma checkPuzzle_empty_valid_incomplete (n : Z) (g : grid_t) :
  0 ≤ n → well_formed n g → has_empty n g →
  ∃ c v, checkPuzzle n g = Some (g, c, v) ∧ (v = true → c = false).
Proof.
  intros Hn Hwf (r & c0 & Hr & Hc0 & Hcell)%has_empty_spec.
  rewrite checkPuzzle_spec by done. eexists _, _. split; [done|].
  intros Hvalid. apply not_true_iff_false. intros Hcomplete.
  rewrite all_valid_spec in Hvalid. rewrite all_complete_spec in Hcomplete.
  assert ((CheckRow, r, 1) ∈ threads_of n) as Ht.
  { apply elem_of_threads_of. left. exists r. split; [done|]. by left. }
  specialize (Hvalid _ Ht). specialize (Hcomplete _ Ht). simpl in *.
  rewrite unit_scan_incomplete in Hcomplete by done. simpl in Hcomplete.
  apply Is_true_false_2 in Hcomplete. apply Hcomplete.
  apply existb_True, Exists_exists. exists 0. split.
  - unfold row_unit. apply list_elem_of_fmap. exists c0.
    split; [by rewrite (cell_value _ _ _ _ Hcell)|]. apply elem_of_seqZ. lia.
  - by apply bool_decide_pack.
Qed.

(** The valid flag on every grid of the data model: some row or column
    holds a duplicate nonzero value, or some block holds the same value
    twice, the empty value 0 included. *)
Lemma checkPuzzle_valid_spec (n : Z) (g : grid_t) :
  0 ≤ n → well_formed n g →
  ∃ c v, checkPuzzle n g = Some (g, c, v)
         ∧ (v = false
            ↔ ∃ t, t ∈ threads_of n
                   ∧ ¬ NoDup (match t.1.1 with
                              | CheckSubgrid => unit_of n g t
                              | _ => nonzero (unit_of n g t)
                              end)).
Proof.
  intros Hn Hwf. rewrite checkPuzzle_spec by done.
  eexists _, _. split; [done|]. rewrite all_valid_false.
  assert (∀ t, t ∈ threads_of n →
               (unit_flags n g t).1 = true
               ↔ ¬ NoDup (match t.1.1 with
                          | CheckSubgrid => unit_of n g t
                          | _ => nonzero (unit_of n g t)
                          end)) as Hflag.
  { intros t Ht. pose proof (thread_no_dup n g t) as Hiff.
    pose proof (unit_not_negative n g t Hwf Ht) as Hpos.
    destruct t as [[[| |] r] c]; cbn [fst snd] in *;
      rewrite ?positive_nonzero in Hiff by done;
      destruct (unit_flags n g _).1; naive_solver. }
  split; intros (t & Ht & H); exists t; (split; [done|]); by apply Hflag.
Qed.

(** * More about the filler *)

(** A step of the filler changes no cell that is not empty. *)
Lemma solve_cell_keeps (n r c : Z) (s s' : solver) (r' c' : Z) :
  solve_cell n r c s = Some s' → cell (s_grid s) r' c' ≠ Some 0 →
  cell (s_grid s') r' c' = cell (s_grid s) r' c'.
Proof.
  intros [-> | (Hzero & k & Hstore)]%solve_cell_cases Hne; [done|].
  rewrite (store_cell_Some _ _ _ _ _ Hstore).
  rewrite decide_False; [done|]. intros [= -> ->]. done.
Qed.

Lemma fill_cells_keeps (n : Z) (l : list (Z * Z)) (s s' : solver) (r c : Z) :
  fill_cells n l s = Some s' → cell (s_grid s) r c ≠ Some 0 →
  cell (s_grid s') r c = cell (s_grid s) r c.
Proof.
  revert s. induction l as [|[r0 c0] l IH]; intros s; simpl.
  - by intros [= <-].
  - destruct (solve_cell n r0 c0 s) as [s1|] eqn:Hstep; simpl; [|done].
    intros Hrest Hne.
    pose proof (solve_cell_keeps n r0 c0 s s1 r c Hstep Hne) as Hkeep.
    rewrite <- Hkeep. apply IH; [done|]. by rewrite Hkeep.
Qed.

(** What a step writes is not 0, on a grid of the data model. *)
Lemma solve_cell_writes (n r c : Z) (s s' : solver) :
  well_formed n (s_grid s) → 1 ≤ r ≤ n → 1 ≤ c ≤ n →
  solve_cell n r c s = Some s' →
  s_grid s' = s_grid s
  ∨ (cell (s_grid s) r c = Some 0
     ∧ ∃ k, candidates n (s_grid s) r c = [k]
            ∧ store_cell (s_grid s) r c k = Some (s_grid s')).
Proof.
  intros Hwf Hr Hc Hstep.
  destruct (well_formed_cell n (s_grid s) r c) as (v & Hcell & Hv); [done..|].
  destruct (decide (v = 0)) as [->|Hne].
  2:{ rewrite (solve_cell_filled n r c v s) in Hstep by done.
      injection Hstep as <-. by left. }
  destruct (solve_cell_empty n r c s Hwf Hr Hc Hcell) as (s1 & Hs1 & Hcand).
  rewrite Hstep in Hs1. injection Hs1 as <-.
  destruct (candidates n (s_grid s) r c) as [|k [|k' l]]; [by left | | by left].
  right. eauto.
Qed.

Lemma candidates_range (n : Z) (g : grid_t) (r c k : Z) :
  k ∈ candidates n g r c → 1 ≤ k ≤ n ∧ k ∉ nonzero (peers n g r c).
Proof.
  unfold candidates. intros [Hk Hin%elem_of_seqZ]%list_elem_of_filter.
  split; [lia | done].
Qed.

Lemma elem_of_determined (n : Z) (g : grid_t) (r c : Z) :
  (r, c) ∈ determined n g
  ↔ (1 ≤ r ≤ n ∧ 1 ≤ c ≤ n) ∧ cell g r c = Some 0
    ∧ ∃ k, candidates n g r c = [k].
Proof.
  unfold determined. rewrite list_elem_of_filter, elem_of_cells. simpl.
  split.
  - intros [[Hz Hlen] Hin]. split; [done|]. split; [done|].
    destruct (candidates n g r c) as [|k [|k' l]]; simpl in Hlen;
      [lia | eauto | lia].
  - intros (Hin & Hz & k & ->). done.
Qed.

(** A pass over cells none of which is determined leaves the grid as it
    is. *)
Lemma fill_cells_undetermined (n : Z) (l : list (Z * Z)) :
  ∀ s, well_formed n (s_grid s) →
       (∀ r c, (r, c) ∈ l → (1 ≤ r ≤ n ∧ 1 ≤ c ≤ n)
                            ∧ (r, c) ∉ determined n (s_grid s)) →
       ∃ s', fill_cells n l s = Some s' ∧ s_grid s' = s_grid s.
Proof.
  induction l as [|[r c] l IH]; intros s Hwf Hl; simpl; [eauto|].
  destruct (Hl r c) as [[Hr Hc] Hnot]; [left|].
  destruct (fill_cells_total n [(r, c)]) with (s := s)
    as (s1 & Hs1 & Hwf1 & _); [|done|].
  { by intros r' c' [= -> ->]%list_elem_of_singleton. }
  simpl in Hs1.
  destruct (solve_cell n r c s) as [s1'|] eqn:Hstep; simpl in Hs1; [|done].
  injection Hs1 as ->. simpl.
  assert (s_grid s1 = s_grid s) as Hsame.
  { destruct (solve_cell_writes n r c s s1) as [? | (Hz & k & Hk & _)];
      [done.. | ].
    destruct Hnot. apply elem_of_determined. eauto. }
  destruct (IH s1) as (s' & Hs' & Hg'); [done | |].
  { intros r' c' H. rewrite Hsame. apply Hl. by right. }
  exists s'. split; [done|]. by rewrite Hg'.
Qed.

(** A pass that ends on the grid it started from has written nothing: none
    of its cells was determined. *)
Lemma fill_cells_fixed (n : Z) (l : list (Z * Z)) :
  ∀ s s', well_formed n (s_grid s) →
          (∀ r c, (r, c) ∈ l → 1 ≤ r ≤ n ∧ 1 ≤ c ≤ n) →
          fill_cells n l s = Some s' → s_grid s' = s_grid s →
          ∀ r c, (r, c) ∈ l → (r, c) ∉ determined n (s_grid s).
Proof.
  induction l as [|[r0 c0] l IH]; intros s s' Hwf Hl Hrun Hfix r c Hin.
  { by apply elem_of_nil in Hin. }
  simpl in Hrun.
  destruct (solve_cell n r0 c0 s) as [s1|] eqn:Hstep; simpl in Hrun; [|done].
  destruct (Hl r0 c0) as [Hr0 Hc0]; [left|].
  assert (∀ k, candidates n (s_grid s) r0 c0 = [k] →
               store_cell (s_grid s) r0 c0 k = Some (s_grid s1) →
               cell (s_grid s) r0 c0 = Some 0 → False) as Hwrite.
  { intros k Hk Hstore Hz.
    destruct (candidates_range n (s_grid s) r0 c0 k) as [Hrange _].
    { rewrite Hk. left. }
    pose proof (store_cell_Some _ _ _ _ _ Hstore r0 c0) as Hnew.
    rewrite decide_True in Hnew by done.
    pose proof (fill_cells_keeps n l s1 s' r0 c0 Hrun) as Hkeep.
    rewrite Hnew in Hkeep. specialize (Hkeep ltac:(intros [= ?]; lia)).
    rewrite Hfix, Hz in Hkeep. injection Hkeep as ?. lia. }
  assert (s_grid s1 = s_grid s) as Hsame.
  { destruct (solve_cell_writes n r0 c0 s s1) as [? | (Hz & k & Hk & Hstore)];
      [done.. |]. destruct (Hwrite k Hk Hstore Hz). }
  apply elem_of_cons in Hin as [[= -> ->] | Hin].
  - intros (_ & Hz & k & Hk)%elem_of_determined.
    destruct (solve_cell_empty n r0 c0 s Hwf Hr0 Hc0 Hz) as (s2 & Hs2 & Hcand).
    rewrite Hstep in Hs2. injection Hs2 as <-. rewrite Hk in Hcand.
    by apply (Hwrite k).
  - rewrite <- Hsame. apply (IH s1 s'); [by rewrite Hsame | | done | | done].
    + intros r' c' H. apply Hl. by right.
    + by rewrite Hfix.
Qed.

Lemma value_store (g g' : grid_t) (r c k r' c' : Z) :
  store_cell g r c k = Some g' →
  value g' r' c' = if decide ((r', c') = (r, c)) then k else value g r' c'.
Proof.
  intros Hstore. unfold value. rewrite (store_cell_Some _ _ _ _ _ Hstore).
  by destruct (decide ((r', c') = (r, c))).
Qed.

(** The values of a unit, by position. *)
Lemma row_unit_lookup (n : Z) (g : grid_t) (r : Z) (i : nat) :
  Z.of_nat i < n → row_unit n g r !! i = Some (value g r (1 + Z.of_nat i)).
Proof.
  intros Hi. unfold row_unit. by rewrite list_lookup_fmap, lookup_seqZ_lt.
Qed.

Lemma col_unit_lookup (n : Z) (g : grid_t) (c : Z) (i : nat) :
  Z.of_nat i < n → col_unit n g c !! i = Some (value g (1 + Z.of_nat i) c).
Proof.
  intros Hi. unfold col_unit. by rewrite list_lookup_fmap, lookup_seqZ_lt.
Qed.

Lemma length_row_unit (n : Z) (g : grid_t) (r : Z) :
  length (row_unit n g r) = Z.to_nat n.
Proof. unfold row_unit. by rewrite length_fmap, length_seqZ. Qed.

Lemma length_col_unit (n : Z) (g : grid_t) (c : Z) :
  length (col_unit n g c) = Z.to_nat n.
Proof. unfold col_unit. by rewrite length_fmap, length_seqZ. Qed.

(** Writing a cell changes one position of its row and of its column and
    no other unit. *)
Lemma row_unit_store (n : Z) (g g' : grid_t) (r c k r' : Z) :
  store_cell g r c k = Some g' → 1 ≤ c ≤ n →
  row_unit n g' r'
  = if decide (r' = r) then <[Z.to_nat (c - 1) := k]> (row_unit n g r)
    else row_unit n g r'.
Proof.
  intros Hstore Hc. apply list_eq. intros i.
  destruct (decide (Z.of_nat i < n)) as [Hi|Hi].
  - rewrite row_unit_lookup, (value_store _ _ _ _ _ _ _ Hstore) by done.
    destruct (decide (r' = r)) as [->|Hne].
    + destruct (decide (i = Z.to_nat (c - 1))) as [->|Hic].
      * rewrite list_lookup_insert_eq by (rewrite length_row_unit; lia).
        rewrite decide_True; [done|]. f_equal. lia.
      * rewrite list_lookup_insert_ne by done.
        rewrite row_unit_lookup by done.
        rewrite decide_False; [done|]. intros [= ?]. lia.
    + rewrite row_unit_lookup by done.
      rewrite decide_False; [done|]. by intros [= ? ?].
  - assert (∀ h x, row_unit n h x !! i = None) as Hnone.
    { intros h x. apply lookup_ge_None. rewrite length_row_unit. lia. }
    rewrite Hnone. symmetry.
    destruct (decide (r' = r)); [|done].
    apply lookup_ge_None. rewrite length_insert, length_row_unit. lia.
Qed.

Lemma col_unit_store (n : Z) (g g' : grid_t) (r c k c' : Z) :
  store_cell g r c k = Some g' → 1 ≤ r ≤ n →
  col_unit n g' c'
  = if decide (c' = c) then <[Z.to_nat (r - 1) := k]> (col_unit n g c)
    else col_unit n g c'.
Proof.
  intros Hstore Hr. apply list_eq. intros i.
  destruct (decide (Z.of_nat i < n)) as [Hi|Hi].
  - rewrite col_unit_lookup, (value_store _ _ _ _ _ _ _ Hstore) by done.
    destruct (decide (c' = c)) as [->|Hne].
    + destruct (decide (i = Z.to_nat (r - 1))) as [->|Hic].
      * rewrite list_lookup_insert_eq by (rewrite length_col_unit; lia).
        rewrite decide_True; [done|]. f_equal. lia.
      * rewrite list_lookup_insert_ne by done.
        rewrite col_unit_lookup by done.
        rewrite decide_False; [done|]. intros [= ?]. lia.
    + rewrite col_unit_lookup by done.
      rewrite decide_False; [done|]. by intros [= ? ?].
  - assert (∀ h x, col_unit n h x !! i = None) as Hnone.
    { intros h x. apply lookup_ge_None. rewrite length_col_unit. lia. }
    rewrite Hnone. symmetry.
    destruct (decide (c' = c)); [|done].
    apply lookup_ge_None. rewrite length_insert, length_col_unit. lia.
Qed.

(** Filling an empty position of a unit adds one value to its filled
    cells. *)
Lemma nonzero_insert (u : list Z) (i : nat) (k : Z) :
  u !! i = Some 0 → k ≠ 0 → nonzero (<[i := k]> u) ≡ₚ k :: nonzero u.
Proof.
  intros Hi Hk. pose proof (lookup_lt_Some _ _ _ Hi) as Hlen.
  rewrite insert_take_drop by done.
  rewrite <- (take_drop_middle u i 0 Hi) at 3. unfold nonzero.
  rewrite !filter_app, filter_cons_True by done.
  rewrite filter_cons_False by (intros H; by apply H).
  by rewrite Permutation_middle.
Qed.

Lemma NoDup_nonzero_insert (u : list Z) (i : nat) (k : Z) :
  u !! i = Some 0 → k ≠ 0 → k ∉ nonzero u → NoDup (nonzero u) →
  NoDup (nonzero (<[i := k]> u)).
Proof.
  intros Hi Hk Hnot Hnd. rewrite nonzero_insert by done.
  by apply NoDup_cons.
Qed.

Lemma rows_cols_distinct_spec (n : Z) (g : grid_t) :
  rows_cols_distinct n g
  ↔ ∀ x, 1 ≤ x ≤ n →
         NoDup (nonzero (row_unit n g x)) ∧ NoDup (nonzero (col_unit n g x)).
Proof.
  unfold rows_cols_distinct, rows, cols.
  rewrite forallb_True, Forall_app, !Forall_fmap, !Forall_forall.
  setoid_rewrite elem_of_seqZ. simpl. split.
  - intros [Hr Hc] x Hx. split; eapply bool_decide_unpack.
    + apply Hr. lia.
    + apply Hc. lia.
  - intros H. split; intros x Hx; apply bool_decide_pack; apply H; lia.
Qed.

(** A step keeps the rows and columns free of duplicates. *)
Lemma solve_cell_distinct (n r c : Z) (s s' : solver) :
  well_formed n (s_grid s) → 1 ≤ r ≤ n → 1 ≤ c ≤ n →
  solve_cell n r c s = Some s' →
  rows_cols_distinct n (s_grid s) → rows_cols_distinct n (s_grid s').
Proof.
  intros Hwf Hr Hc Hstep Hdist.
  destruct (solve_cell_writes n r c s s' Hwf Hr Hc Hstep)
    as [-> | (Hz & k & Hk & Hstore)]; [done|].
  destruct (candidates_range n (s_grid s) r c k) as [Hrange Hnot].
  { rewrite Hk. left. }
  unfold nonzero, peers in Hnot. rewrite filter_app, not_elem_of_app in Hnot.
  destruct Hnot as [Hnrow Hncol].
  rewrite rows_cols_distinct_spec in Hdist |- *. intros x Hx.
  rewrite (row_unit_store n _ _ _ _ _ x Hstore Hc).
  rewrite (col_unit_store n _ _ _ _ _ x Hstore Hr).
  destruct (Hdist x Hx) as [Hrx Hcx]. split.
  - destruct (decide (x = r)) as [->|]; [|done].
    apply NoDup_nonzero_insert; [|lia|done|done].
    rewrite row_unit_lookup by lia. f_equal.
    replace (1 + Z.of_nat (Z.to_nat (c - 1))) with c by lia.
    by apply cell_value.
  - destruct (decide (x = c)) as [->|]; [|done].
    apply NoDup_nonzero_insert; [|lia|done|done].
    rewrite col_unit_lookup by lia. f_equal.
    replace (1 + Z.of_nat (Z.to_nat (r - 1))) with r by lia.
    by apply cell_value.
Qed.

(** An invariant of the steps that holds of the grid given holds of the
    grid returned. *)
Lemma fill_cells_invariant (n : Z) (P : grid_t → Prop) (l : list (Z * Z)) :
  (∀ r c s s', well_formed n (s_grid s) → 1 ≤ r ≤ n → 1 ≤ c ≤ n →
               solve_cell n r c s = Some s' →
               P (s_grid s) → P (s_grid s')) →
  (∀ r c, (r, c) ∈ l → 1 ≤ r ≤ n ∧ 1 ≤ c ≤ n) →
  ∀ s s', well_formed n (s_grid s) → fill_cells n l s = Some s' →
          P (s_grid s) → P (s_grid s').
Proof.
  intros Hstep. induction l as [|[r c] l IH]; intros Hl s s' Hwf; simpl.
  - by intros [= <-].
  - destruct (solve_cell n r c s) as [s1|] eqn:Hs1; simpl; [|done].
    destruct (Hl r c) as [Hr Hc]; [left|]. intros Hrun HP.
    apply (IH (λ r' c' H, Hl r' c' (list_elem_of_further _ _ _ H)) s1);
      [by apply (solve_cell_well_formed n r c s) | done |].
    by apply (Hstep r c s s1).
Qed.

Lemma solveMissingNumber_invariant (n : Z) (P : grid_t → Prop)
    (g g' : grid_t) :
  (∀ r c s s', well_formed n (s_grid s) → 1 ≤ r ≤ n → 1 ≤ c ≤ n →
               solve_cell n r c s = Some s' →
               P (s_grid s) → P (s_grid s')) →
  well_formed n g → solveMissingNumber g n = Some g' → P g → P g'.
Proof.
  intros Hstep Hwf. rewrite solveMissingNumber_cells.
  destruct (fill_cells n (cells n) _) as [s'|] eqn:Hrun; simpl; [|done].
  intros [= <-] HP.
  apply (fill_cells_invariant n P (cells n) Hstep
           (λ r c, proj1 (elem_of_cells n r c))
           {| s_grid := g; missingNum := None |} s' Hwf Hrun HP).
Qed.

(** ** Completions *)

Lemma latin_square_spec (n : Z) (sol : grid_t) :
  latin_square n sol
  ↔ fully_filled n sol
    ∧ ∀ x, 1 ≤ x ≤ n → NoDup (row_unit n sol x) ∧ NoDup (col_unit n sol x).
Proof.
  unfold latin_square, rows, cols.
  rewrite andb_True, forallb_True, Forall_app, !Forall_fmap, !Forall_forall.
  setoid_rewrite elem_of_seqZ. simpl.
  apply and_iff_compat_l. split.
  - intros [Hr Hc] x Hx. split; eapply bool_decide_unpack.
    + apply Hr. lia.
    + apply Hc. lia.
  - intros H. split; intros x Hx; apply bool_decide_pack; apply H; lia.
Qed.

Lemma agrees_spec (n : Z) (g sol : grid_t) :
  agrees n g sol
  ↔ ∀ r c, 1 ≤ r ≤ n → 1 ≤ c ≤ n →
           value g r c = 0 ∨ value g r c = value sol r c.
Proof.
  unfold agrees. rewrite forallb_True, Forall_forall. split.
  - intros H r c Hr Hc.
    apply (bool_decide_unpack _ (H (r, c) (proj2 (elem_of_cells n r c) (conj Hr Hc)))).
  - intros H [r c] [Hr Hc]%elem_of_cells. apply bool_decide_pack. by apply H.
Qed.

Lemma elem_of_row_unit (n : Z) (g : grid_t) (r v : Z) :
  v ∈ row_unit n g r ↔ ∃ c, 1 ≤ c ≤ n ∧ value g r c = v.
Proof.
  unfold row_unit. rewrite list_elem_of_fmap.
  setoid_rewrite elem_of_seqZ. split.
  - intros (c & -> & Hc). exists c. split; [lia | done].
  - intros (c & Hc & <-). exists c. split; [done | lia].
Qed.

Lemma elem_of_col_unit (n : Z) (g : grid_t) (c v : Z) :
  v ∈ col_unit n g c ↔ ∃ r, 1 ≤ r ≤ n ∧ value g r c = v.
Proof.
  unfold col_unit. rewrite list_elem_of_fmap.
  setoid_rewrite elem_of_seqZ. split.
  - intros (r & -> & Hr). exists r. split; [lia | done].
  - intros (r & Hr & <-). exists r. split; [done | lia].
Qed.

(** In a row or column without duplicates a value has one position. *)
Lemma row_unit_inj (n : Z) (g : grid_t) (r c1 c2 : Z) :
  NoDup (row_unit n g r) → 1 ≤ c1 ≤ n → 1 ≤ c2 ≤ n →
  value g r c1 = value g r c2 → c1 = c2.
Proof.
  intros Hnd H1 H2 Heq.
  assert (Z.to_nat (c1 - 1) = Z.to_nat (c2 - 1)); [|lia].
  apply (NoDup_lookup _ _ _ (value g r c1) Hnd).
  - rewrite row_unit_lookup by lia. do 2 f_equal. lia.
  - rewrite row_unit_lookup, Heq by lia. do 2 f_equal. lia.
Qed.

Lemma col_unit_inj (n : Z) (g : grid_t) (c r1 r2 : Z) :
  NoDup (col_unit n g c) → 1 ≤ r1 ≤ n → 1 ≤ r2 ≤ n →
  value g r1 c = value g r2 c → r1 = r2.
Proof.
  intros Hnd H1 H2 Heq.
  assert (Z.to_nat (r1 - 1) = Z.to_nat (r2 - 1)); [|lia].
  apply (NoDup_lookup _ _ _ (value g r1 c) Hnd).
  - rewrite col_unit_lookup by lia. do 2 f_equal. lia.
  - rewrite col_unit_lookup, Heq by lia. do 2 f_equal. lia.
Qed.

(** The value a completion gives to an empty cell is among the cell's
    candidates. *)
Lemma completion_candidate (n : Z) (g sol : grid_t) (r c : Z) :
  latin_square n sol → agrees n g sol → 1 ≤ r ≤ n → 1 ≤ c ≤ n →
  value g r c = 0 → value sol r c ∈ candidates n g r c.
Proof.
  intros Hlat Hag Hr Hc Hz.
  apply latin_square_spec in Hlat as [Hfull Hnd].
  pose proof (proj1 (agrees_spec n g sol) Hag) as Hag'. clear Hag.
  rename Hag' into Hag.
  destruct (fully_filled_cell n sol r c Hfull Hr Hc) as (v & Hv%cell_value & Hrange).
  rewrite Hv. unfold candidates. apply list_elem_of_filter.
  split; [|apply elem_of_seqZ; lia].
  unfold nonzero, peers. rewrite list_elem_of_filter, elem_of_app.
  rewrite elem_of_row_unit, elem_of_col_unit.
  intros [Hv0 [(c' & Hc' & Hval) | (r' & Hr' & Hval)]].
  - destruct (Hag r c' Hr Hc') as [?|Hsol]; [lia|].
    assert (c' = c) as ->; [|lia].
    apply (row_unit_inj n sol r); [by apply Hnd | done.. | lia].
  - destruct (Hag r' c Hr' Hc) as [?|Hsol]; [lia|].
    assert (r' = r) as ->; [|lia].
    apply (col_unit_inj n sol c); [by apply Hnd | done.. | lia].
Qed.

(** A step stays inside every completion of the grid. *)
Lemma solve_cell_agrees (n : Z) (sol : grid_t) (r c : Z) (s s' : solver) :
  latin_square n sol →
  well_formed n (s_grid s) → 1 ≤ r ≤ n → 1 ≤ c ≤ n →
  solve_cell n r c s = Some s' →
  agrees n (s_grid s) sol → agrees n (s_grid s') sol.
Proof.
  intros Hlat Hwf Hr Hc Hstep Hag.
  destruct (solve_cell_writes n r c s s' Hwf Hr Hc Hstep)
    as [-> | (Hz & k & Hk & Hstore)]; [done|].
  pose proof (completion_candidate n _ sol r c Hlat Hag Hr Hc
                (cell_value _ _ _ _ Hz)) as Hin.
  rewrite Hk, list_elem_of_singleton in Hin.
  rewrite agrees_spec in Hag |- *. intros r' c' Hr' Hc'.
  rewrite (value_store _ _ _ _ _ _ _ Hstore).
  destruct (decide ((r', c') = (r, c))) as [[= -> ->]|]; [by right|].
  by apply Hag.
Qed.


(** ** Candidates in the grid given and during the pass *)

Lemma NoDup_single {A} (l : list A) (k : A) :
  NoDup l → k ∈ l → (∀ x, x ∈ l → x = k) → l = [k].
Proof.
  intros Hnd Hk Hall. destruct l as [|a [|b l]].
  - by apply elem_of_nil in Hk.
  - f_equal. apply Hall. left.
  - rewrite (Hall a) in Hnd by left.
    rewrite (Hall b) in Hnd by (right; left).
    apply NoDup_cons in Hnd as [Hnot _]. destruct Hnot. left.
Qed.

(** Filling cells can only remove candidates of the other cells. *)
Lemma candidates_mono (n : Z) (g g1 : grid_t) (r c k : Z) :
  well_formed n g → 1 ≤ r ≤ n → 1 ≤ c ≤ n →
  (∀ r' c', cell g r' c' ≠ Some 0 → cell g1 r' c' = cell g r' c') →
  k ∈ candidates n g1 r c → k ∈ candidates n g r c.
Proof.
  intros Hwf Hr Hc Hkeep. unfold candidates.
  rewrite !list_elem_of_filter. intros [Hnot Hseq]. split; [|done].
  intros Hin. apply Hnot. unfold nonzero, peers in *.
  rewrite list_elem_of_filter, elem_of_app in Hin |- *.
  destruct Hin as [Hk0 Hin]. split; [done|].
  rewrite elem_of_row_unit, elem_of_col_unit in Hin |- *.
  destruct Hin as [(c' & Hc' & Hval) | (r' & Hr' & Hval)]; [left | right].
  - exists c'. split; [done|].
    destruct (well_formed_cell n g r c' Hwf Hr Hc') as (v & Hv & _).
    rewrite (cell_value _ _ _ _ Hv) in Hval. subst v.
    apply cell_value. rewrite Hkeep; [done|]. rewrite Hv. by intros [= ?].
  - exists r'. split; [done|].
    destruct (well_formed_cell n g r' c Hwf Hr' Hc) as (v & Hv & _).
    rewrite (cell_value _ _ _ _ Hv) in Hval. subst v.
    apply cell_value. rewrite Hkeep; [done|]. rewrite Hv. by intros [= ?].
Qed.

(** In a grid that has a completion, a cell with a single candidate in the
    grid given still has that single candidate when the pass reaches
    it. *)
Lemma completion_single_candidate (n : Z) (g sol : grid_t)
    (pre : list (Z * Z)) (s1 : solver) (r c k : Z) :
  well_formed n g → latin_square n sol → agrees n g sol →
  (∀ r' c', (r', c') ∈ pre → 1 ≤ r' ≤ n ∧ 1 ≤ c' ≤ n) →
  1 ≤ r ≤ n → 1 ≤ c ≤ n →
  fill_cells n pre {| s_grid := g; missingNum := None |} = Some s1 →
  cell g r c = Some 0 → cell (s_grid s1) r c = Some 0 →
  candidates n g r c = [k] →
  candidates n (s_grid s1) r c = [k].
Proof.
  intros Hwf Hlat Hag Hpre Hr Hc Hrun Hcell Hcell1 Hcand.
  assert (agrees n (s_grid s1) sol) as Hag1.
  { apply (fill_cells_invariant n (λ h, agrees n h sol) pre
             (λ r c s s', solve_cell_agrees n sol r c s s' Hlat) Hpre
             {| s_grid := g; missingNum := None |} s1 Hwf Hrun Hag). }
  assert (value sol r c = k) as Hsol.
  { pose proof (completion_candidate n g sol r c Hlat Hag Hr Hc
                  (cell_value _ _ _ _ Hcell)) as Hin.
    rewrite Hcand in Hin. by apply list_elem_of_singleton in Hin. }
  apply NoDup_single.
  - unfold candidates. apply NoDup_filter, NoDup_seqZ.
  - rewrite <- Hsol.
    apply (completion_candidate n (s_grid s1) sol r c Hlat Hag1 Hr Hc).
    by apply cell_value.
  - intros x Hx.
    apply (candidates_mono n g (s_grid s1) r c x Hwf Hr Hc) in Hx.
    + rewrite Hcand in Hx. by apply list_elem_of_singleton in Hx.
    + intros r' c' Hne.
      by apply (fill_cells_keeps n pre _ s1 r' c' Hrun).
Qed.

(** A cell of the grid during a pass, with [s1] the state of the pass when
    it reaches the cell: the candidate set is computed on [s1]; exactly one
    candidate is written, otherwise the cell stays as it is; the pass does
    not touch the cell again and returns. *)
Lemma single_candidate_fill (n : Z) (g : grid_t)
    (pre post : list (Z * Z)) (r c : Z) :
  well_formed n g → cells n = pre ++ (r, c) :: post →
  ∃ s1 s2 g',
    fill_cells n pre {| s_grid := g; missingNum := None |} = Some s1
    ∧ solve_cell n r c s1 = Some s2
    ∧ solveMissingNumber g n = Some g'
    ∧ cell (s_grid s1) r c = cell g r c
    ∧ cell g' r c = cell (s_grid s2) r c
    ∧ (cell g r c ≠ Some 0 → s_grid s2 = s_grid s1)
    ∧ (cell g r c = Some 0 →
       match candidates n (s_grid s1) r c with
       | [k] => store_cell (s_grid s1) r c k = Some (s_grid s2)
                ∧ cell g' r c = Some k
       | _ => s_grid s2 = s_grid s1 ∧ cell g' r c = Some 0
       end
       ∧ ∀ d, 1 ≤ d ≤ n →
              (∀ k, 1 ≤ k ≤ n → k ∈ peers n (s_grid s1) r c ↔ k ≠ d) →
              cell g' r c = Some d).
Proof.
  intros Hwf Hcells.
  assert (∀ r' c', (r', c') ∈ cells n → 1 ≤ r' ≤ n ∧ 1 ≤ c' ≤ n) as Hin
    by (intros r' c'; apply elem_of_cells).
  rewrite Hcells in Hin.
  destruct (fill_cells_total n pre) with
    (s := {| s_grid := g; missingNum := None |})
    as (s1 & Hs1 & Hwf1 & Hbefore); [|done|].
  { intros r' c' H. apply Hin, elem_of_app. by left. }
  specialize (Hbefore r c (cells_not_before n pre post (r, c) Hcells)).
  simpl in Hbefore.
  destruct (Hin r c) as [Hr Hc]; [apply elem_of_app; right; left|].
  destruct (fill_cells_total n [(r, c)]) with (s := s1)
    as (s2 & Hs2 & Hwf2 & _); [|done|].
  { by intros r' c' [= -> ->]%list_elem_of_singleton. }
  simpl in Hs2.
  destruct (solve_cell n r c s1) as [s2'|] eqn:Hstep; simpl in Hs2; [|done].
  injection Hs2 as ->.
  destruct (fill_cells_total n post) with (s := s2)
    as (s3 & Hs3 & _ & Hkeep); [|done|].
  { intros r' c' H. apply Hin, elem_of_app. right. by right. }
  exists s1, s2, (s_grid s3).
  assert (solveMissingNumber g n = Some (s_grid s3)) as Hpass.
  { rewrite solveMissingNumber_cells, Hcells, fill_cells_app, Hs1.
    cbn [mbind option_bind fill_cells]. rewrite Hstep.
    cbn [mbind option_bind]. by rewrite Hs3. }
  assert (cell (s_grid s3) r c = cell (s_grid s2) r c) as Hsame.
  { apply Hkeep. by apply (cells_once n pre post (r, c)). }
  split; [done|]. split; [done|]. split; [done|]. split; [done|].
  split; [done|]. rewrite <- Hbefore. split.
  - intros Hfilled.
    destruct (well_formed_cell n (s_grid s1) r c) as (v & Hv & _); [done..|].
    rewrite (solve_cell_filled n r c v s1) in Hstep; [|done|congruence].
    by injection Hstep as <-.
  - intros Hempty.
    destruct (solve_cell_empty n r c s1 Hwf1 Hr Hc Hempty)
      as (s2' & Hs2' & Hcand).
    rewrite Hstep in Hs2'. injection Hs2' as <-.
    assert (∀ k, store_cell (s_grid s1) r c k = Some (s_grid s2) →
                 cell (s_grid s3) r c = Some k) as Hwritten.
    { intros k Hstore. rewrite Hsame, (store_cell_Some _ _ _ _ _ Hstore).
      by rewrite decide_True. }
    split.
    + destruct (candidates n (s_grid s1) r c) as [|k [|k' l]].
      * by rewrite Hsame, Hcand.
      * auto.
      * by rewrite Hsame, Hcand.
    + intros d Hd Hpeers.
      rewrite (candidates_single n (s_grid s1) r c d) in Hcand by done.
      auto.
Qed.


(** * The claims of the specification *)

(** C1. For every fully filled grid of size N in {1, 4, 9, 16} that
    satisfies the Sudoku rules (no duplicate value in any row, column or
    subgrid), [checkPuzzle] sets complete = true and valid = true. *)
Theorem C1_filled_consistent_complete_valid (n : Z) (g : grid_t) :
  n ∈ [1; 4; 9; 16] → fully_filled n g → sudoku_rules n g →
  checkPuzzle n g = Some (g, true, true).
Proof.
  intros Hn. apply checkPuzzle_filled_consistent.
  apply list_elem_of_In in Hn. simpl in Hn. lia.
Qed.

Lemma C1_witness :
  checkPuzzle 4 (puzzle [[1;2;3;4];[3;4;1;2];[2;1;4;3];[4;3;2;1]])
  = Some (puzzle [[1;2;3;4];[3;4;1;2];[2;1;4;3];[4;3;2;1]], true, true).
Proof.
  apply (C1_filled_consistent_complete_valid 4); [|by vm_compute..].
  apply list_elem_of_In. simpl. lia.
Defined.

(** C2, at its failing input: the empty cell (3,3) lies behind a duplicate
    both in its row and in its column, so neither scan reaches it and the
    grid is reported complete. *)
Theorem C2_empty_cell_behind_duplicates :
  let g := puzzle [[1;2;1];[1;2;1];[1;1;0]] in
  well_formed 3 g ∧ has_empty 3 g ∧ checkPuzzle 3 g = Some (g, true, false).
Proof. by vm_compute. Qed.

(** C3, as stated, fails on a grid with two empty cells in one block: no
    unit holds a duplicate nonzero value, and yet valid = false. *)
Lemma C3_counterexample :
  let g := puzzle [[0;2;3;4];[3;0;1;2];[2;1;4;3];[4;3;2;1]] in
  well_formed 4 g ∧ has_duplicate 4 g = false
  ∧ checkPuzzle 4 g = Some (g, false, false).
Proof. by vm_compute. Qed.

(** C3, amended. On a grid of the data model in which no subgrid holds two
    empty cells, [checkPuzzle] sets valid = false iff some row, column or
    (when N is a perfect square above 1) subgrid holds a duplicate nonzero
    value; empty cells elsewhere do not matter. *)
Theorem C3_valid_iff_no_duplicate (n : Z) (g : grid_t) :
  0 ≤ n → well_formed n g → blocks_one_empty n g →
  ∃ c v, checkPuzzle n g = Some (g, c, v)
         ∧ (v = false ↔ has_duplicate n g).
Proof.
  intros Hn Hwf Hone. rewrite checkPuzzle_spec by done.
  eexists _, _. split; [done|].
  rewrite has_duplicate_spec, all_valid_false.
  split; intros (t & Ht & Hdup); exists t; (split; [done|]);
    pose proof (thread_dup_nonzero n g t Hwf Hone Ht) as Hiff;
    destruct (unit_flags n g t).1; naive_solver.
Qed.

Lemma C3_witness :
  let g := puzzle [[0;2;3;4];[3;4;1;2];[2;1;0;3];[4;3;2;1]] in
  ∃ c v, checkPuzzle 4 g = Some (g, c, v) ∧ (v = false ↔ has_duplicate 4 g).
Proof.
  intros g. apply (C3_valid_iff_no_duplicate 4 g); [lia | by vm_compute..].
Defined.

(** C4, as stated, fails when the candidates are those of the grid given:
    in the grid below, of the data model and with no digit repeated in a
    row or a column, the cell (1,2) is empty and its row and column hold
    exactly the N - 1 = 2 digits 3 and 2, so that 1 is its single
    candidate; but the pass fills (1,1) with 1 first, and (1,2) is left
    empty. *)
Lemma C4_counterexample :
  let g := puzzle [[0;0;0];[2;3;1];[3;2;0]] in
  well_formed 3 g ∧ rows_cols_distinct 3 g
  ∧ cell g 1 2 = Some 0
  ∧ nonzero (peers 3 g 1 2) = [3; 2]
  ∧ candidates 3 g 1 2 = [1]
  ∧ solveMissingNumber g 3 = Some (puzzle [[1;0;0];[2;3;1];[3;2;0]])
  ∧ cell (puzzle [[1;0;0];[2;3;1];[3;2;0]]) 1 2 = Some 0.
Proof. by vm_compute. Qed.

(** C4, amended.  For every cell [(r, c)] of a grid of the data model,
    with [s1] the state of the pass when it reaches the cell (the cell
    itself still as in the grid given): if the cell is empty, the candidate
    set is the digits 1..N minus the nonzero values that its row and column
    hold in [s1], the digits written earlier in the pass included; exactly
    one candidate is written into the cell (so a cell whose row and column
    then hold every digit but [d] receives [d]), and with no or several
    candidates the cell stays 0.  A filled cell is skipped.  The pass does
    not touch the cell again and raises no error.  If moreover the grid
    given has a completion (a Latin square that agrees with its filled
    cells), the candidates may be taken in the grid given: an empty cell
    with the single candidate [k] there, in particular one whose row and
    column hold every digit but [k], receives [k] within the pass. *)
Theorem C4_single_candidate_fill (n : Z) (g : grid_t)
    (pre post : list (Z * Z)) (r c : Z) :
  well_formed n g → cells n = pre ++ (r, c) :: post →
  ∃ s1 s2 g',
    fill_cells n pre {| s_grid := g; missingNum := None |} = Some s1
    ∧ solve_cell n r c s1 = Some s2
    ∧ solveMissingNumber g n = Some g'
    ∧ cell (s_grid s1) r c = cell g r c
    ∧ cell g' r c = cell (s_grid s2) r c
    ∧ (cell g r c ≠ Some 0 → s_grid s2 = s_grid s1)
    ∧ (cell g r c = Some 0 →
       match candidates n (s_grid s1) r c with
       | [k] => store_cell (s_grid s1) r c k = Some (s_grid s2)
                ∧ cell g' r c = Some k
       | _ => s_grid s2 = s_grid s1 ∧ cell g' r c = Some 0
       end
       ∧ ∀ d, 1 ≤ d ≤ n →
              (∀ k, 1 ≤ k ≤ n → k ∈ peers n (s_grid s1) r c ↔ k ≠ d) →
              cell g' r c = Some d)
    ∧ (∀ sol, latin_square n sol → agrees n g sol → cell g r c = Some 0 →
         (∀ k, candidates n g r c = [k] →
               candidates n (s_grid s1) r c = [k] ∧ cell g' r c = Some k)
         ∧ ∀ d, 1 ≤ d ≤ n →
                (∀ k, 1 ≤ k ≤ n → k ∈ peers n g r c ↔ k ≠ d) →
                cell g' r c = Some d).
Proof.
  intros Hwf Hcells.
  destruct (single_candidate_fill n g pre post r c Hwf Hcells)
    as (s1 & s2 & g' & Hs1 & Hs2 & Hpass & Hbefore & Hafter & Hfilled
        & Hempty).
  exists s1, s2, g'. do 7 (split; [done|]).
  intros sol Hlat Hag Hcell.
  assert (∀ r' c', (r', c') ∈ cells n → 1 ≤ r' ≤ n ∧ 1 ≤ c' ≤ n) as Hin
    by (intros r' c'; apply elem_of_cells).
  rewrite Hcells in Hin.
  destruct (Hin r c) as [Hr Hc]; [apply elem_of_app; right; left|].
  assert (∀ k, candidates n g r c = [k] →
               candidates n (s_grid s1) r c = [k] ∧ cell g' r c = Some k)
    as Hsingle.
  { intros k Hk.
    assert (candidates n (s_grid s1) r c = [k]) as Hk1.
    { apply (completion_single_candidate n g sol pre s1 r c k); try done.
      - intros r' c' H. apply Hin, elem_of_app. by left.
      - by rewrite Hbefore. }
    split; [done|]. destruct (Hempty Hcell) as [Hmatch _].
    rewrite Hk1 in Hmatch. by destruct Hmatch. }
  split; [done|]. intros d Hd Hpeers.
  by apply Hsingle, candidates_single.
Qed.

Lemma C4_witness :
  let g := puzzle [[1;0;0];[0;0;0];[0;0;2]] in
  ∃ s1 s2 g',
    fill_cells 3 [(1, 1); (1, 2)] {| s_grid := g; missingNum := None |}
    = Some s1
    ∧ solve_cell 3 1 3 s1 = Some s2
    ∧ solveMissingNumber g 3 = Some g'
    ∧ candidates 3 g 1 3 = [3]
    ∧ candidates 3 (s_grid s1) 1 3 = [3]
    ∧ store_cell (s_grid s1) 1 3 3 = Some (s_grid s2)
    ∧ cell g' 1 3 = Some 3.
Proof.
  intros g.
  destruct (C4_single_candidate_fill 3 g [(1, 1); (1, 2)]
              [(2, 1); (2, 2); (2, 3); (3, 1); (3, 2); (3, 3)] 1 3)
    as (s1 & s2 & g' & H1 & H2 & H3 & _ & _ & _ & Hempty & Hcompl);
    [by vm_compute | reflexivity |].
  destruct (Hcompl (puzzle [[1;2;3];[2;3;1];[3;1;2]]))
    as [Hsingle _]; [by vm_compute | by vm_compute | reflexivity |].
  destruct (Hsingle 3) as [Hcand Hcell]; [by vm_compute|].
  destruct Hempty as [Hmatch _]; [reflexivity|].
  rewrite Hcand in Hmatch. destruct Hmatch as [Hstore _].
  exists s1, s2, g'. split; [exact H1|]. split; [exact H2|].
  split; [exact H3|]. split; [by vm_compute|]. split; [exact Hcand|].
  split; [exact Hstore | exact Hcell].
Defined.

(** C5. The row and the column check scan the N cells of their unit in
    order and, for each value v: if v ≤ 0 the unit is marked incomplete and
    the scan continues (a zero is never a duplicate); if v > 0 was already
    seen a duplicate is marked and the scan stops; otherwise v is recorded
    as seen.  That is [unit_scan] on the cells of the unit, whose two flags
    are what the check writes to its slots. *)
Theorem C5_row_col_check_is_unit_scan (p : parameters) (m : mem) :
  bounded (psize p) (grid m) → slots_ok p m →
  1 ≤ row p ≤ psize p → 1 ≤ column p ≤ psize p →
  let r := unit_scan (row_unit (psize p) (grid m) (row p)) [] false in
  let c := unit_scan (col_unit (psize p) (grid m) (column p)) [] false in
  checkRow p m = Some (flagged r.1 r.2 p m)
  ∧ checkCol p m = Some (flagged c.1 c.2 p m).
Proof.
  intros Hb Hs Hr Hc. split.
  - by apply checkRow_spec.
  - by apply checkCol_spec.
Qed.

Lemma C5_witness :
  let p := {| row := 3; column := 3; psize := 3; complete := 0;
              invalid := 0 |} in
  let m := {| grid := puzzle [[1;2;1];[1;0;1];[1;1;0]];
              listInvalid := [false]; listComplete := [true] |} in
  checkRow p m = Some {| grid := grid m; listInvalid := [true];
                         listComplete := [true] |}
  ∧ checkCol p m = Some {| grid := grid m; listInvalid := [true];
                           listComplete := [true] |}.
Proof.
  intros p m.
  apply (C5_row_col_check_is_unit_scan p m);
    [by vm_compute | split; simpl; lia | simpl; lia | simpl; lia].
Defined.

(** C6. Subgrid checks never contribute to the complete flag.  Whatever
    the memory, a subgrid scan that returns has left [listComplete] (and
    the grid) as they were.  On every grid of the data model the complete
    result of [checkPuzzle] is the conjunction over the row and column
    scans alone, and each subgrid thread returns, having set its invalid
    slot if a nonzero value is repeated in its block. *)
Theorem C6_subgrid_scan_never_marks_incomplete (n : Z) (g : grid_t) :
  (∀ p m m', checkSubgrid p m = Some m' →
             listComplete m' = listComplete m ∧ grid m' = grid m)
  ∧ (0 ≤ n → well_formed n g →
     (∃ v, checkPuzzle n g
           = Some (g, all_complete n g (seqZ 1 n ≫= row_col_threads), v))
     ∧ ∀ r c k m,
         (CheckSubgrid, r, c) ∈ threads_of n →
         grid m = g →
         0 ≤ k < Z.of_nat (length (listInvalid m)) →
         0 ≤ k < Z.of_nat (length (listComplete m)) →
         ∃ m', checkSubgrid {| row := r; column := c; psize := n;
                               complete := k; invalid := k |} m = Some m'
               ∧ listComplete m' = listComplete m
               ∧ (¬ NoDup (nonzero (subgrid_unit (Z.sqrt n) g r c)) →
                  zload (listInvalid m') k = Some true)).
Proof.
  split; [by intros p m m' [d ->]%checkSubgrid_frame|].
  intros Hn Hwf. split.
  - rewrite checkPuzzle_spec, checkPuzzle_complete_rows_cols by done. eauto.
  - intros r c k m Ht Hg Hki Hkc.
    pose proof (threads_of_ok n g Hn Hwf) as Hok.
    rewrite Forall_forall in Hok. specialize (Hok _ Ht k m Hg).
    cbn [fst snd start unit_flags] in Hok. rewrite Hok by done.
    eexists. split; [done|].
    cbn [flagged listComplete grid listInvalid invalid complete].
    split; [done|]. intros Hdup.
    destruct (block_scan _ _) eqn:Hscan.
    + apply zload_Some. split; [lia|]. apply list_lookup_insert_eq. lia.
    + apply block_scan_dup in Hscan; [|apply NoDup_nil_2].
      rewrite app_nil_r in Hscan. destruct Hdup.
      by apply NoDup_nonzero_1.
Qed.

Lemma C6_witness :
  let g := puzzle [[1;2;0;0];[0;1;0;0];[0;0;0;0];[0;0;0;0]] in
  let m := {| grid := g; listInvalid := replicate 12 false;
              listComplete := replicate 12 true |} in
  (∃ v, checkPuzzle 4 g = Some (g, false, v))
  ∧ ∃ m', checkSubgrid {| row := 1; column := 1; psize := 4;
                          complete := 8; invalid := 8 |} m = Some m'
          ∧ listComplete m' = listComplete m
          ∧ zload (listInvalid m') 8 = Some true.
Proof.
  intros g m.
  destruct (C6_subgrid_scan_never_marks_incomplete 4 g) as [_ H].
  destruct H as [[v Hv] Hsub]; [lia | by vm_compute |].
  split; [by exists v|].
  destruct (Hsub 1 1 8 m) as (m' & Hm' & Hc & Hi);
    [compute_done | reflexivity | simpl; lia | simpl; lia |].
  exists m'. split; [done|]. split; [done|]. apply Hi. compute_done.
Defined.

(** C7. [checkPuzzle] is pure with respect to the grid: whenever it
    returns, the grid is the one it was given, and it does return on every
    grid of the data model of size N ≥ 1; neither the orchestrator nor any
    unit check writes a grid cell. *)
Theorem C7_checkPuzzle_leaves_grid (n : Z) (g : grid_t) :
  (∀ g' c v, checkPuzzle n g = Some (g', c, v) → g' = g)
  ∧ (∀ f p m m', start f p m = Some m' → grid m' = grid m)
  ∧ (1 ≤ n → well_formed n g → ∃ c v, checkPuzzle n g = Some (g, c, v)).
Proof.
  split; [|split].
  - apply checkPuzzle_frame.
  - by intros f p m m' (d & i & ->)%start_frame.
  - intros Hn Hwf. rewrite checkPuzzle_spec by (done || lia). eauto.
Qed.

Lemma C7_witness :
  ∃ c v, checkPuzzle 4 (puzzle [[1;2;3;4];[3;4;1;2];[2;1;4;3];[4;3;0;0]])
         = Some (puzzle [[1;2;3;4];[3;4;1;2];[2;1;4;3];[4;3;0;0]], c, v).
Proof.
  apply (C7_checkPuzzle_leaves_grid 4); [lia | by vm_compute].
Defined.

(** C8. Running [solveMissingNumber] on a grid with no empty cell leaves
    every cell of the grid unchanged. *)
Theorem C8_no_empty_cell_unchanged (n : Z) (g : grid_t) :
  no_empty n g → solveMissingNumber g n = Some g.
Proof.
  unfold no_empty. intros Hfull. rewrite solveMissingNumber_cells.
  rewrite fill_cells_filled; [done|]. simpl.
  intros r c [Hr Hc]%elem_of_cells.
  destruct (proj1 (all_cells_spec n g _) Hfull r c Hr Hc)
    as (v & Hv & Hne%bool_decide_unpack).
  eauto.
Qed.

Lemma C8_witness :
  solveMissingNumber (puzzle [[1;2;3];[2;3;1];[3;1;2]]) 3
  = Some (puzzle [[1;2;3];[2;3;1];[3;1;2]]).
Proof. apply C8_no_empty_cell_unchanged. by vm_compute. Defined.

(** C9, as stated, fails at N = 0, on the grid without rows that the
    reader of the program builds for that size: the call returns flags. *)
Lemma C9_counterexample :
  checkPuzzle 0 (puzzle []) = Some (puzzle [], true, true).
Proof. by vm_compute. Qed.

(** C9, amended. [checkPuzzle] has no check of the size: called with
    N = 0 it creates no thread, joins none, and returns complete = true and
    valid = true, whatever the grid. *)
Theorem C9_size_zero_returns_true_true (g : grid_t) :
  checkPuzzle 0 g = Some (g, true, true)
  ∧ ∀ sp, for_loop (seqZ 1 0) (spawn_row_col 0) sp = Some sp.
Proof. done. Qed.

(** Below 0 the program has no defined behaviour: the square root of the
    size is not a number. *)
Remark checkPuzzle_negative_size (n : Z) (g : grid_t) :
  n < 0 → checkPuzzle n g = None.
Proof.
  intros Hn. unfold checkPuzzle, int_sqrt. by rewrite decide_False by lia.
Qed.

(** C10. Within one call the cells are scanned in row-major order and filled
    in place: the step for a cell runs on the state left by the steps for
    the cells before it, so a value written earlier in the pass is among the
    row and column values of a later cell.  One call can thus fill a chain
    of cells: in the grid below the cell (1,2) has two candidates in the
    original grid (a step on it alone leaves it empty), one once (1,1) is
    filled, and the call fills it. *)
Theorem C10_in_place_row_major_pass :
  (∀ n, StronglySorted row_major (cells n))
  ∧ (∀ n g pre r c post,
       cells n = pre ++ (r, c) :: post →
       solveMissingNumber g n
       = s_grid <$> (s1 ← fill_cells n pre {| s_grid := g;
                                              missingNum := None |};
                     s2 ← solve_cell n r c s1;
                     fill_cells n post s2))
  ∧ (let g := puzzle [[0;0];[2;0]] in
     candidates 2 g 1 2 = [1; 2]
     ∧ s_grid <$> solve_cell 2 1 2 {| s_grid := g; missingNum := None |}
       = Some g
     ∧ fill_cells 2 [(1, 1)] {| s_grid := g; missingNum := None |}
       = Some {| s_grid := puzzle [[1;0];[2;0]]; missingNum := Some 1 |}
     ∧ candidates 2 (puzzle [[1;0];[2;0]]) 1 2 = [2]
     ∧ solveMissingNumber g 2 = Some (puzzle [[1;2];[2;1]])).
Proof.
  split; [apply cells_row_major|]. split.
  - intros n g pre r c post Hcells.
    rewrite solveMissingNumber_cells, Hcells, fill_cells_app.
    destruct (fill_cells n pre _) as [s1|]; simpl; [|done].
    by destruct (solve_cell n r c s1).
  - by vm_compute.
Qed.

Lemma C10_witness :
  solveMissingNumber (puzzle [[0;0];[2;0]]) 2
  = s_grid <$> (s1 ← fill_cells 2 [(1, 1)]
                       {| s_grid := puzzle [[0;0];[2;0]];
                          missingNum := None |};
                s2 ← solve_cell 2 1 2 s1;
                fill_cells 2 [(2, 1); (2, 2)] s2).
Proof.
  by apply (proj1 (proj2 C10_in_place_row_major_pass) 2).
Defined.

(** * Further properties of the filler *)

(** A call changes no cell that is not empty. *)
Lemma solveMissingNumber_keeps (n : Z) (g g' : grid_t) (r c : Z) :
  solveMissingNumber g n = Some g' → cell g r c ≠ Some 0 →
  cell g' r c = cell g r c.
Proof.
  rewrite solveMissingNumber_cells.
  destruct (fill_cells n (cells n) _) as [s'|] eqn:Hrun; simpl; [|done].
  intros [= <-] Hne.
  by apply (fill_cells_keeps n (cells n) _ s' r c Hrun).
Qed.

Lemma solveMissingNumber_total (n : Z) (g : grid_t) :
  well_formed n g →
  ∃ g', solveMissingNumber g n = Some g' ∧ well_formed n g'.
Proof.
  intros Hwf. rewrite solveMissingNumber_cells.
  destruct (fill_cells_total n (cells n)
              (λ r c, proj1 (elem_of_cells n r c))
              {| s_grid := g; missingNum := None |} Hwf)
    as (s' & -> & Hwf' & _).
  by exists (s_grid s').
Qed.

(** X1. [solveMissingNumber] writes to empty cells only: whenever a call
    returns, every cell that did not hold 0 before the call (a clue, a
    cell filled earlier, the unused row 0 and column 0) holds what it held
    before. *)
Theorem X1_filler_keeps_filled_cells (n : Z) (g g' : grid_t) (r c : Z) :
  solveMissingNumber g n = Some g' → cell g r c ≠ Some 0 →
  cell g' r c = cell g r c.
Proof. apply solveMissingNumber_keeps. Qed.

Lemma X1_witness :
  cell (puzzle [[1;2];[2;1]]) 2 1 = cell (puzzle [[0;0];[2;0]]) 2 1.
Proof.
  apply (X1_filler_keeps_filled_cells 2 (puzzle [[0;0];[2;0]])
           (puzzle [[1;2];[2;1]]) 2 1); by vm_compute.
Defined.

(** X2. On a grid of the data model (cells hold 0 or a digit of 1..N) a
    call of [solveMissingNumber] returns, and the grid it leaves is again
    of the data model: what it writes are digits of 1..N. *)
Theorem X2_filler_keeps_data_model (n : Z) (g : grid_t) :
  well_formed n g →
  ∃ g', solveMissingNumber g n = Some g' ∧ well_formed n g'.
Proof. apply solveMissingNumber_total. Qed.

Lemma X2_witness :
  ∃ g', solveMissingNumber (puzzle [[0;0];[2;0]]) 2 = Some g'
        ∧ well_formed 2 g'.
Proof.
  apply (X2_filler_keeps_data_model 2 (puzzle [[0;0];[2;0]])).
  by vm_compute.
Defined.

(** X3. The fixed points of a pass.  On a grid of the data model, a call
    of [solveMissingNumber] leaves the grid as it was exactly when no empty
    cell of the grid has a single candidate. *)
Theorem X3_filler_fixed_point (n : Z) (g : grid_t) :
  well_formed n g →
  solveMissingNumber g n = Some g ↔ determined n g = [].
Proof.
  intros Hwf. rewrite solveMissingNumber_cells. split.
  - destruct (fill_cells n (cells n) _) as [s'|] eqn:Hrun; simpl; [|done].
    intros [= Hfix].
    pose proof (fill_cells_fixed n (cells n)
                  {| s_grid := g; missingNum := None |} s' Hwf
                  (λ r c, proj1 (elem_of_cells n r c)) Hrun Hfix) as Hnone.
    apply elem_of_nil_inv. intros [r c] Hin. apply (Hnone r c); [|done].
    apply elem_of_determined in Hin as [Hrc _]. by apply elem_of_cells.
  - intros Hnone.
    destruct (fill_cells_undetermined n (cells n)
                {| s_grid := g; missingNum := None |} Hwf)
      as (s' & -> & Hsame).
    + intros r c Hin%elem_of_cells. split; [done|]. simpl.
      rewrite Hnone. apply not_elem_of_nil.
    + simpl. by rewrite Hsame.
Qed.

Lemma X3_witness :
  solveMissingNumber (puzzle [[0;0;0];[0;0;0];[0;0;1]]) 3
  = Some (puzzle [[0;0;0];[0;0;0];[0;0;1]])
  ↔ determined 3 (puzzle [[0;0;0];[0;0;0];[0;0;1]]) = [].
Proof.
  apply (X3_filler_fixed_point 3 (puzzle [[0;0;0];[0;0;0];[0;0;1]])).
  by vm_compute.
Defined.

(** X4. The filler never creates a duplicate in a row or a column: if no
    row and no column of a grid of the data model repeats a digit, the same
    holds of the grid a call of [solveMissingNumber] leaves. *)
Theorem X4_filler_keeps_rows_cols_distinct (n : Z) (g g' : grid_t) :
  well_formed n g → rows_cols_distinct n g →
  solveMissingNumber g n = Some g' → rows_cols_distinct n g'.
Proof.
  intros Hwf Hdist Hrun.
  apply (solveMissingNumber_invariant n (λ h, rows_cols_distinct n h) g g');
    [|done..].
  intros r c s s'. apply solve_cell_distinct.
Qed.

Lemma X4_witness : rows_cols_distinct 2 (puzzle [[1;2];[2;1]]).
Proof.
  apply (X4_filler_keeps_rows_cols_distinct 2 (puzzle [[0;0];[2;0]])
           (puzzle [[1;2];[2;1]])); by vm_compute.
Defined.

(** X5. The filler is sound for every completion.  Let [sol] be a Latin
    square of size N (every solved Sudoku is one) that agrees with the
    filled cells of a grid of the data model.  Then [sol] agrees with the
    filled cells of the grid a call of [solveMissingNumber] leaves: every
    digit the call writes is the digit [sol] has in that cell. *)
Theorem X5_filler_sound_for_completions (n : Z) (g g' sol : grid_t) :
  well_formed n g → latin_square n sol → agrees n g sol →
  solveMissingNumber g n = Some g' → agrees n g' sol.
Proof.
  intros Hwf Hlat Hag Hrun.
  apply (solveMissingNumber_invariant n (λ h, agrees n h sol) g g');
    [|done..].
  intros r c s s'. by apply solve_cell_agrees.
Qed.

Lemma X5_witness :
  agrees 3 (puzzle [[1;0;3];[0;0;1];[3;1;2]]) (puzzle [[1;2;3];[2;3;1];[3;1;2]]).
Proof.
  apply (X5_filler_sound_for_completions 3
           (puzzle [[1;0;0];[0;0;0];[0;0;2]])
           (puzzle [[1;0;3];[0;0;1];[3;1;2]])
           (puzzle [[1;2;3];[2;3;1];[3;1;2]])); by vm_compute.
Defined.

(** * Further properties of the validation engine *)

Lemma unit_scan_incomplete_inv (vals sl : list Z) (inc : bool) :
  (unit_scan vals sl inc).2 = true → inc = true ∨ ∃ v, v ∈ vals ∧ v ≤ 0.
Proof.
  revert sl inc. induction vals as [|v vals IH]; intros sl inc; simpl.
  - by left.
  - destruct (decide (v ≤ 0)) as [Hneg|Hpos].
    + intros _. right. exists v. split; [left | done].
    + destruct (decide (v ∈ sl)); simpl; [by left|].
      intros [?|(w & Hw & ?)]%IH; [by left|].
      right. exists w. split; [by right | done].
Qed.

(** The flags of a row or column thread whose unit holds an empty cell and
    no duplicate. *)
Lemma unit_scan_empty (vals : list Z) :
  Forall (λ v, 0 ≤ v) vals → 0 ∈ vals → NoDup (nonzero vals) →
  unit_scan vals [] false = (false, true).
Proof.
  intros Hpos Hzero Hnd.
  assert ((unit_scan vals [] false).1 = false) as Hdup.
  { apply unit_scan_dup; [apply NoDup_nil_2|].
    by rewrite app_nil_r, positive_nonzero. }
  pose proof (unit_scan_incomplete vals [] false Hdup) as Hinc.
  destruct (unit_scan vals [] false) as [d i]. simpl in *. subst d.
  f_equal. rewrite Hinc. apply existsb_exists. exists 0.
  split; [by apply list_elem_of_In | done].
Qed.

Lemma row_unit_not_negative (n : Z) (g : grid_t) (r : Z) :
  well_formed n g → 1 ≤ r ≤ n → Forall (λ v, 0 ≤ v) (row_unit n g r).
Proof.
  intros Hwf Hr. apply Forall_forall. intros v (c & Hc & <-)%elem_of_row_unit.
  destruct (well_formed_cell n g r c Hwf Hr Hc) as (x & ->%cell_value & ?). lia.
Qed.

Lemma col_unit_not_negative (n : Z) (g : grid_t) (c : Z) :
  well_formed n g → 1 ≤ c ≤ n → Forall (λ v, 0 ≤ v) (col_unit n g c).
Proof.
  intros Hwf Hc. apply Forall_forall. intros v (r & Hr & <-)%elem_of_col_unit.
  destruct (well_formed_cell n g r c Hwf Hr Hc) as (x & ->%cell_value & ?). lia.
Qed.

Lemma all_complete_row_col (n : Z) (g : grid_t) :
  all_complete n g (threads_of n) = true
  ↔ ∀ i, 1 ≤ i ≤ n →
         (unit_scan (row_unit n g i) [] false).2 = false
         ∧ (unit_scan (col_unit n g i) [] false).2 = false.
Proof.
  rewrite checkPuzzle_complete_rows_cols, all_complete_spec. split.
  - intros H i Hi. split.
    + apply (H (CheckRow, i, 1)). apply list_elem_of_bind. exists i.
      split; [left | apply elem_of_seqZ; lia].
    + apply (H (CheckCol, 1, i)). apply list_elem_of_bind. exists i.
      split; [right; left | apply elem_of_seqZ; lia].
  - intros H t (i & Ht & Hi%elem_of_seqZ)%list_elem_of_bind.
    destruct (H i) as [Hr Hc]; [lia|]. unfold row_col_threads in Ht.
    apply elem_of_cons in Ht as [-> | Ht]; [done|].
    by apply list_elem_of_singleton in Ht as ->.
Qed.

Lemma all_valid_checked (n : Z) (g : grid_t) :
  well_formed n g → all_valid n g (threads_of n) = checked_valid n g.
Proof.
  intros Hwf. apply eq_true_iff_eq. rewrite all_valid_spec.
  unfold checked_valid. rewrite andb_true_iff, <- !Is_true_true.
  rewrite rows_cols_distinct_spec, forallb_True, Forall_forall.
  split.
  - intros H. split.
    + intros x Hx. split.
      * rewrite <- positive_nonzero by by apply row_unit_not_negative.
        apply (thread_no_dup n g (CheckRow, x, 1)), H, elem_of_threads_of.
        left. exists x. split; [done | by left].
      * rewrite <- positive_nonzero by by apply col_unit_not_negative.
        apply (thread_no_dup n g (CheckCol, 1, x)), H, elem_of_threads_of.
        left. exists x. split; [done | by right].
    + destruct (has_subgrids n) eqn:Hflag; [|by intros u ?%elem_of_nil].
      intros u (r & (c & ->%list_elem_of_singleton & Hc)%list_elem_of_bind
                  & Hr)%list_elem_of_bind.
      apply bool_decide_pack.
      apply (thread_no_dup n g (CheckSubgrid, r, c)), H, elem_of_threads_of.
      right. rewrite Hflag. split; [done|]. by exists r, c.
  - intros [Hrc Hblocks] t
      [(i & Hi & [-> | ->]) | (Hflag & r & c & Hr & Hc & ->)]%elem_of_threads_of;
      apply thread_no_dup; cbn [fst snd unit_of].
    + rewrite positive_nonzero by by apply row_unit_not_negative.
      by apply Hrc.
    + rewrite positive_nonzero by by apply col_unit_not_negative.
      by apply Hrc.
    + apply Is_true_true in Hflag. rewrite Hflag in Hblocks.
      eapply bool_decide_unpack. apply Hblocks. unfold blocks.
      apply list_elem_of_bind. exists r. split; [|done].
      apply list_elem_of_bind. exists c. split; [left | done].
Qed.

(** X6. What the complete flag of [checkPuzzle] says on a grid of the
    data model.  A verdict complete = false is always right: the grid then
    holds an empty cell.  An empty cell is found (complete = false)
    whenever its row or its column holds no duplicate digit; it can only
    go unnoticed behind duplicates in both. *)
Theorem X6_complete_verdict (n : Z) (g : grid_t) :
  0 ≤ n → well_formed n g →
  ∃ c v, checkPuzzle n g = Some (g, c, v)
         ∧ (c = false → has_empty n g)
         ∧ ∀ r0 c0, 1 ≤ r0 ≤ n → 1 ≤ c0 ≤ n → cell g r0 c0 = Some 0 →
                    NoDup (nonzero (row_unit n g r0))
                    ∨ NoDup (nonzero (col_unit n g c0)) →
                    c = false.
Proof.
  intros Hn Hwf. rewrite checkPuzzle_spec by done. eexists _, _.
  split; [done|]. split.
  - intros Hc. destruct (has_empty n g) eqn:Hempty; [done|]. exfalso.
    apply not_true_iff_false in Hc. apply Hc. clear Hc.
    apply all_complete_row_col. intros i Hi.
    assert (∀ u, Forall (λ v, 0 ≤ v) u → 0 ∉ u → Forall (λ v, 0 < v) u)
      as Hfilled.
    { intros u Hu Hz. rewrite Forall_forall in Hu |- *. intros v Hv.
      specialize (Hu v Hv). destruct (decide (v = 0)) as [->|]; [done | lia]. }
    split; apply unit_scan_filled, Hfilled.
    + by apply row_unit_not_negative.
    + intros (c0 & Hc0 & Hval)%elem_of_row_unit.
      apply Is_true_false_2 in Hempty. apply Hempty, has_empty_spec.
      exists i, c0. split; [done|]. split; [done|].
      destruct (well_formed_cell n g i c0 Hwf Hi Hc0) as (x & Hx & _).
      by rewrite Hx, <- (cell_value _ _ _ _ Hx), Hval.
    + by apply col_unit_not_negative.
    + intros (r0 & Hr0 & Hval)%elem_of_col_unit.
      apply Is_true_false_2 in Hempty. apply Hempty, has_empty_spec.
      exists r0, i. split; [done|]. split; [done|].
      destruct (well_formed_cell n g r0 i Hwf Hr0 Hi) as (x & Hx & _).
      by rewrite Hx, <- (cell_value _ _ _ _ Hx), Hval.
  - intros r0 c0 Hr0 Hc0 Hcell Hnd. apply not_true_iff_false.
    intros Hall. rewrite all_complete_row_col in Hall.
    destruct Hnd as [Hnd|Hnd].
    + destruct (Hall r0 Hr0) as [Hrow _].
      rewrite unit_scan_empty in Hrow; [done | | | done].
      * by apply row_unit_not_negative.
      * apply elem_of_row_unit. exists c0. split; [done|].
        by apply cell_value.
    + destruct (Hall c0 Hc0) as [_ Hcol].
      rewrite unit_scan_empty in Hcol; [done | | | done].
      * by apply col_unit_not_negative.
      * apply elem_of_col_unit. exists r0. split; [done|].
        by apply cell_value.
Qed.

Lemma X6_witness :
  let g := puzzle [[1;1;3];[1;1;0];[3;2;1]] in
  ∃ c v, checkPuzzle 3 g = Some (g, c, v) ∧ c = false.
Proof.
  intros g.
  destruct (X6_complete_verdict 3 g) as (c & v & Hrun & _ & Hfound);
    [lia | by vm_compute |].
  exists c, v. split; [done|].
  apply (Hfound 2 3); [lia | lia | reflexivity | right; compute_done].
Defined.

(** X7. What the valid flag of [checkPuzzle] says on a grid of the data
    model, with no further assumption: valid = true exactly when no row and
    no column repeats a digit and, for a size that is a perfect square
    above 1, no block repeats a value, where a second empty cell in a block
    counts as a repeated 0.  For the other sizes the blocks are not looked
    at. *)
Theorem X7_valid_verdict (n : Z) (g : grid_t) :
  0 ≤ n → well_formed n g →
  ∃ c, checkPuzzle n g = Some (g, c, checked_valid n g).
Proof.
  intros Hn Hwf. rewrite checkPuzzle_spec by done.
  rewrite all_valid_checked by done. eauto.
Qed.

Lemma X7_witness :
  let g := puzzle [[1;2;3;4;5];[2;3;4;5;1];[0;0;0;0;0];[4;5;1;2;3];
                   [5;1;2;3;4]] in
  ∃ c, checkPuzzle 5 g = Some (g, c, checked_valid 5 g).
Proof.
  intros g. apply (X7_valid_verdict 5 g); [lia | by vm_compute].
Defined.

(** * Values outside the data model *)

Lemma zstore_length {A} (a a' : list A) (i : Z) (x : A) :
  zstore a i x = Some a' → length a' = length a.
Proof. intros [_ ->]%zstore_Some. apply length_insert. Qed.

Lemma zstore_out_of_range {A} (a : list A) (i : Z) (x : A) :
  Z.of_nat (length a) ≤ i → zstore a i x = None.
Proof. intros H. unfold zstore. rewrite decide_False; [done | lia]. Qed.

Lemma zload_out_of_range {A} (a : list A) (i : Z) :
  Z.of_nat (length a) ≤ i → zload a i = None.
Proof.
  intros H. unfold zload. destruct (decide (0 ≤ i)); [|done].
  apply lookup_ge_None. lia.
Qed.

Lemma mark_length (g : grid_t) (r c num : Z) (a a' : list bool) :
  mark g r c num a = Some a' → length a' = length a.
Proof.
  unfold mark. destruct (cell g r num) as [x|]; simpl; [|done].
  destruct (decide (x > 0)); simpl.
  - destruct (zstore a x false) as [p1|] eqn:Hp1; simpl; [|done].
    apply zstore_length in Hp1.
    destruct (cell g num c) as [y|]; simpl; [|done].
    destruct (decide (y > 0)).
    + intros ?%zstore_length. congruence.
    + intros [= <-]. done.
  - destruct (cell g num c) as [y|]; simpl; [|done].
    destruct (decide (y > 0)).
    + apply zstore_length.
    + by intros [= <-].
Qed.

(** The marking loop writes past [possible] at a value above the size. *)
Lemma mark_out_of_range (n : Z) (g : grid_t) (r c num v : Z)
    (a : list bool) :
  length a = Z.to_nat (n + 1) → 0 ≤ n → n < v →
  cell g r num = Some v ∨ cell g num c = Some v →
  mark g r c num a = None.
Proof.
  intros Hlen Hn Hv Hcell. unfold mark.
  destruct (cell g r num) as [x|] eqn:Hx; simpl; [|done].
  destruct (decide (x > 0)) as [Hpos|Hneg]; simpl.
  - destruct (zstore a x false) as [p1|] eqn:Hp1; simpl; [|done].
    pose proof (zstore_length _ _ _ _ Hp1) as Hlen1.
    apply zstore_Some in Hp1 as [Hrange _].
    destruct Hcell as [[= ->] | Hy]; [lia|]. rewrite Hy. simpl.
    rewrite decide_True by lia. apply zstore_out_of_range. lia.
  - destruct Hcell as [[= ->] | Hy]; [lia|]. rewrite Hy. simpl.
    rewrite decide_True by lia. apply zstore_out_of_range. lia.
Qed.

Lemma mark_loop_out_of_range (n : Z) (g : grid_t) (r c i v : Z) :
  1 ≤ i ≤ n → n < v →
  cell g r i = Some v ∨ cell g i c = Some v →
  for_loop (seqZ 1 n) (mark g r c) (replicate (Z.to_nat (n + 1)) true)
  = None.
Proof.
  intros Hi Hv Hpeer.
  replace n with ((i - 1) + Z.succ (n - i)) at 1 by lia.
  rewrite seqZ_app by lia.
  rewrite (seqZ_cons (1 + (i - 1))) by lia.
  replace (1 + (i - 1)) with i by lia.
  rewrite for_loop_app.
  destruct (for_loop (seqZ 1 (i - 1)) _ _) as [a|] eqn:Hpre;
    cbn [mbind option_bind for_loop]; [|done].
  assert (length a = Z.to_nat (n + 1)) as Hlen.
  { apply (for_loop_preserves (λ a, length a = Z.to_nat (n + 1)))
      in Hpre; [done | | by rewrite length_replicate].
    intros j a1 a2 Hmark Ha1. by rewrite (mark_length _ _ _ _ _ _ Hmark). }
  by rewrite (mark_out_of_range n g r c i v a) by (done || lia).
Qed.

Lemma solve_cell_out_of_range (n r c i v : Z) (s : solver) :
  1 ≤ i ≤ n → n < v → cell (s_grid s) r c = Some 0 →
  cell (s_grid s) r i = Some v ∨ cell (s_grid s) i c = Some v →
  solve_cell n r c s = None.
Proof.
  intros Hi Hv Hcell Hpeer. unfold solve_cell. rewrite Hcell.
  cbn [mbind option_bind]. rewrite decide_True by done.
  by rewrite (mark_loop_out_of_range n (s_grid s) r c i v).
Qed.

Lemma fill_cells_out_of_range (n r c i v : Z) (l : list (Z * Z)) :
  1 ≤ i ≤ n → n < v → (r, c) ∈ l →
  ∀ s, cell (s_grid s) r c = Some 0 →
       cell (s_grid s) r i = Some v ∨ cell (s_grid s) i c = Some v →
       fill_cells n l s = None.
Proof.
  intros Hi Hv. induction l as [|[r0 c0] l IH]; intros Hin s Hcell Hpeer.
  { by apply elem_of_nil in Hin. }
  simpl. destruct (decide ((r0, c0) = (r, c))) as [[= -> ->]|Hne].
  { by rewrite (solve_cell_out_of_range n r c i v s). }
  destruct (solve_cell n r0 c0 s) as [s1|] eqn:Hstep; simpl; [|done].
  apply IH.
  - apply elem_of_cons in Hin as [?|?]; [congruence | done].
  - rewrite (solve_cell_other n r0 c0 s s1 r c Hstep); [done | congruence].
  - destruct Hpeer as [Hp|Hp]; [left | right];
      rewrite (solve_cell_keeps n r0 c0 s s1 _ _ Hstep); try done;
      rewrite Hp; intros [= ?]; lia.
Qed.

(** X8. The filler relies on the digits being at most N and does not check
    it.  If a cell of the grid is empty and a cell of its row or of its
    column holds a value above N, the marking loop writes
    [possible[value]] past the end of the array of N + 1 entries: the call
    has no defined behaviour. *)
Theorem X8_filler_digit_above_size (n : Z) (g : grid_t) (r c i v : Z) :
  1 ≤ r ≤ n → 1 ≤ c ≤ n → 1 ≤ i ≤ n → n < v →
  cell g r c = Some 0 →
  cell g r i = Some v ∨ cell g i c = Some v →
  solveMissingNumber g n = None.
Proof.
  intros Hr Hc Hi Hv Hcell Hpeer. rewrite solveMissingNumber_cells.
  rewrite (fill_cells_out_of_range n r c i v (cells n)); try done.
  by apply elem_of_cells.
Qed.

Lemma X8_witness : solveMissingNumber (puzzle [[1;2;3];[0;3;1];[7;1;2]]) 3 = None.
Proof.
  apply (X8_filler_digit_above_size 3 _ 2 1 3 7);
    [lia | lia | lia | lia | reflexivity | right; reflexivity].
Defined.

(** A loop whose body is undefined at one of its indices is undefined, when
    the states on which it is undefined are kept by the iterations. *)
Lemma for_loop_None {S} (P : S → Prop) (l : list Z)
    (body : Z → S → option S) (x : Z) :
  x ∈ l →
  (∀ i s s', body i s = Some s' → P s → P s') →
  (∀ s, P s → body x s = None) →
  ∀ s, P s → for_loop l body s = None.
Proof.
  intros Hx Hkeep Hnone. induction l as [|i l IH]; intros s Hs.
  { by apply elem_of_nil in Hx. }
  simpl. destruct (decide (i = x)) as [->|Hne].
  { by rewrite Hnone. }
  destruct (body i s) as [s1|] eqn:Hi; simpl; [|done].
  apply IH; [|by eapply Hkeep].
  apply elem_of_cons in Hx as [?|?]; [congruence | done].
Qed.

(** The scan of a row or column reads past [seen] at a value above the
    size, unless a duplicate stops it before. *)
Lemma scan_loop_out_of_range (n : Z) (p : parameters)
    (fetch : grid_t → Z → option Z) (idx : list Z) (m : mem) :
  0 ≤ n →
  (∃ i v, i ∈ idx ∧ fetch (grid m) i = Some v ∧ n < v) →
  ∀ (a : list bool) (sl : list Z) (rc : bool),
    marks true n a sl →
    NoDup (filter (λ v, 0 < v) ((λ i, default 0 (fetch (grid m) i)) <$> idx)
           ++ sl) →
    for_break idx
      (λ i s, val ← fetch (grid (scan_mem s)) i; scan_step val p s)
      {| seen := a; rowComplete := rc; scan_mem := m |}
    = None.
Proof.
  intros Hn. induction idx as [|i0 idx IH];
    intros (i & v & Hin & Hv & Hbig) a sl rc Hmarks Hnd.
  { by apply elem_of_nil in Hin. }
  cbn [for_break scan_mem]. rewrite fmap_cons in Hnd.
  destruct (fetch (grid m) i0) as [v0|] eqn:Hv0; cbn [mbind option_bind];
    [|done].
  simpl in Hnd. unfold scan_step. cbn [seen rowComplete scan_mem].
  assert (n < v0 ∨ ∃ i v, i ∈ idx ∧ fetch (grid m) i = Some v ∧ n < v)
    as [Hbig0 | Htail].
  { apply elem_of_cons in Hin as [-> | Hin]; [|by eauto 6].
    left. congruence. }
  - rewrite decide_False by lia.
    rewrite zload_out_of_range; [done|]. destruct Hmarks as [-> _]. lia.
  - destruct (decide (v0 ≤ 0)) as [Hneg|Hpos].
    + rewrite filter_cons_False in Hnd by lia.
      cbn [mbind option_bind]. by apply (IH Htail a sl).
    + rewrite filter_cons_True in Hnd by lia.
      destruct (decide (n < v0)) as [Hbig0|Hsmall].
      { rewrite zload_out_of_range; [done|]. destruct Hmarks as [-> _]. lia. }
      rewrite (marks_load true n a sl v0) by (done || lia).
      simpl in Hnd. apply NoDup_cons in Hnd as [Hnotin Hnd].
      rewrite bool_decide_eq_false_2
        by (intros ?; apply Hnotin, elem_of_app; by right).
      cbn [mbind option_bind negb].
      destruct (marks_store true n a sl v0) as [-> Hmarks']; [done | lia |].
      cbn [mbind option_bind]. apply (IH Htail _ (v0 :: sl)); [done|].
      rewrite <- Permutation_middle. apply NoDup_cons. by split.
Qed.

Lemma checkRow_out_of_range (p : parameters) (m : mem) (c v : Z) :
  1 ≤ c ≤ psize p → cell (grid m) (row p) c = Some v → psize p < v →
  NoDup (filter (λ v, 0 < v) (row_unit (psize p) (grid m) (row p))) →
  checkRow p m = None.
Proof.
  intros Hc Hcell Hv Hnd. unfold checkRow. cbn zeta.
  rewrite (scan_loop_out_of_range (psize p) p (λ g c, cell g (row p) c)
             (seqZ 1 (psize p)) m ltac:(lia)) with (sl := []);
    [done | | apply marks_seen_init | by rewrite app_nil_r].
  exists c, v. split; [apply elem_of_seqZ; lia | done].
Qed.

Lemma checkCol_out_of_range (p : parameters) (m : mem) (r v : Z) :
  1 ≤ r ≤ psize p → cell (grid m) r (column p) = Some v → psize p < v →
  NoDup (filter (λ v, 0 < v) (col_unit (psize p) (grid m) (column p))) →
  checkCol p m = None.
Proof.
  intros Hr Hcell Hv Hnd. unfold checkCol. cbn zeta.
  rewrite (scan_loop_out_of_range (psize p) p (λ g r, cell g r (column p))
             (seqZ 1 (psize p)) m ltac:(lia)) with (sl := []);
    [done | | apply marks_seen_init | by rewrite app_nil_r].
  exists r, v. split; [apply elem_of_seqZ; lia | done].
Qed.

Lemma spawn_threads_spec (n : Z) :
  0 ≤ n → spawn_threads n = Some (spawned n (threads_of n) 0).
Proof.
  intros Hn. unfold spawn_threads, int_sqrt.
  rewrite decide_True by done. cbn [mbind option_bind].
  fold (has_subgrids n).
  set (subs := if has_subgrids n then subgrid_threads (Z.sqrt n) else []).
  assert (threads_of n = (seqZ 1 n ≫= row_col_threads) ++ subs) as Hall
    by done.
  assert (n * 2 + (if has_subgrids n then n else 0)
          = Z.of_nat (length (threads_of n))) as ->
    by (rewrite length_threads_of by done; destruct (has_subgrids n); lia).
  rewrite Nat2Z.id.
  change {| threadIndex := 0;
            params := replicate (length (threads_of n)) None |}
    with (spawned n [] (length (threads_of n))).
  assert (for_loop (seqZ 1 n) (spawn_row_col n)
            (spawned n [] (length (threads_of n)))
          = Some (spawned n (seqZ 1 n ≫= row_col_threads) (length subs)))
    as ->.
  { rewrite Hall, length_app. apply spawn_row_col_loop. }
  cbn [mbind option_bind].
  rewrite Hall. subst subs. destruct (has_subgrids n) eqn:Hflag.
  - apply Is_true_true, has_subgrids_spec in Hflag as [Hsq Hs].
    rewrite <- (Nat.add_0_r (length _)).
    pose proof (spawn_subgrids_loop (Z.sqrt n)
                  (seqZ 1 n ≫= row_col_threads) 0) as Hsub.
    rewrite Hsq in Hsub. apply Hsub. lia.
  - simpl. by rewrite app_nil_r.
Qed.

(** The creation phase is the one of [checkPuzzle]. *)
Lemma checkPuzzle_spawn_threads (n : Z) (g : grid_t) :
  checkPuzzle n g
  = sp ← spawn_threads n;
    v ← for_loop (seqZ 0 (n * 2 + (if has_subgrids n then n else 0)))
          (join (params sp))
          {| v_mem := initial_mem g
                        (Z.to_nat (n * 2 + (if has_subgrids n then n else 0)));
             v_complete := true; v_valid := true |};
    Some (grid (v_mem v), v_complete v, v_valid v).
Proof.
  unfold checkPuzzle, spawn_threads, int_sqrt.
  destruct (decide (0 ≤ n)); cbn [mbind option_bind]; [|done].
  fold (has_subgrids n).
  destruct (for_loop (seqZ 1 n) _ _) as [sp1|]; cbn [mbind option_bind];
    [|done].
  by destruct (has_subgrids n).
Qed.

(** [checkPuzzle] from the join loop on: the two creation loops have filled
    [params] with one entry per thread, thread [k] owning the slots [k]. *)
Lemma checkPuzzle_joins (n : Z) (g : grid_t) :
  0 ≤ n →
  checkPuzzle n g
  = v ← for_loop (seqZ 0 (Z.of_nat (length (threads_of n))))
          (join (Some <$> mk_params n 0 (threads_of n)))
          {| v_mem := {| grid := g;
                         listInvalid :=
                           replicate (length (threads_of n)) false;
                         listComplete :=
                           replicate (length (threads_of n)) true |};
             v_complete := true; v_valid := true |};
    Some (grid (v_mem v), v_complete v, v_valid v).
Proof.
  intros Hn. rewrite checkPuzzle_spawn_threads, spawn_threads_spec by done.
  cbn [mbind option_bind]. unfold spawned, initial_mem.
  cbn [params replicate]. rewrite app_nil_r.
  assert (n * 2 + (if has_subgrids n then n else 0)
          = Z.of_nat (length (threads_of n))) as ->
    by (rewrite length_threads_of by done; destruct (has_subgrids n); lia).
  by rewrite Nat2Z.id.
Qed.

(** A thread that is undefined on the grid makes the whole call
    undefined. *)
Lemma checkPuzzle_thread_None (n : Z) (g : grid_t) (t : thread) :
  0 ≤ n → t ∈ threads_of n →
  (∀ k m, grid m = g →
          start t.1.1 {| row := t.1.2; column := t.2; psize := n;
                         complete := k; invalid := k |} m = None) →
  checkPuzzle n g = None.
Proof.
  intros Hn Ht Hnone. rewrite checkPuzzle_joins by done.
  apply list_elem_of_lookup in Ht as [k Hk].
  pose proof (lookup_lt_Some _ _ _ Hk) as Hlt.
  rewrite (for_loop_None (λ v, grid (v_mem v) = g) _ _ (Z.of_nat k)); [done|..].
  - apply elem_of_seqZ. lia.
  - intros i v v' Hjoin Hg. by rewrite (join_frame _ _ _ _ Hjoin).
  - intros v Hg. unfold join. rewrite zload_nat, list_lookup_fmap.
    destruct t as [[f r] c].
    rewrite (mk_params_lookup n 0 _ k f r c) by done.
    cbn [fmap option_fmap option_map mjoin option_join mbind option_bind
         fst snd].
    specialize (Hnone (0 + Z.of_nat k) (v_mem v) Hg). cbn [fst snd] in Hnone.
    by rewrite Hnone.
  - done.
Qed.

(** X9. The validation engine relies on the digits being at most N and
    does not check it.  If a cell of the N x N grid holds a value above N
    and its row, or its column, holds no repeated positive value (so that
    no duplicate stops the scan before), the scan of that unit reads
    [seen[value]] past the end of the array of N + 1 entries: the call of
    [checkPuzzle] has no defined behaviour. *)
Theorem X9_checker_digit_above_size (n : Z) (g : grid_t) (r c v : Z) :
  1 ≤ r ≤ n → 1 ≤ c ≤ n → cell g r c = Some v → n < v →
  NoDup (filter (λ v, 0 < v) (row_unit n g r))
  ∨ NoDup (filter (λ v, 0 < v) (col_unit n g c)) →
  checkPuzzle n g = None.
Proof.
  intros Hr Hc Hcell Hv [Hnd|Hnd].
  - apply (checkPuzzle_thread_None n g (CheckRow, r, 1)); [lia | |].
    + apply elem_of_threads_of. left. exists r. split; [done | by left].
    + intros k m <-. cbn [fst snd start].
      by apply (checkRow_out_of_range _ m c v).
  - apply (checkPuzzle_thread_None n g (CheckCol, 1, c)); [lia | |].
    + apply elem_of_threads_of. left. exists c. split; [done | by right].
    + intros k m <-. cbn [fst snd start].
      by apply (checkCol_out_of_range _ m r v).
Qed.

Lemma X9_witness : checkPuzzle 3 (puzzle [[1;2;3];[2;2;1];[3;9;2]]) = None.
Proof.
  apply (X9_checker_digit_above_size 3 _ 3 2 9);
    [lia | lia | reflexivity | lia | left; compute_done].
Defined.

(** * The threads and their slots *)

(** X10. The creation phase of [checkPuzzle] fills its arrays exactly.
    For every size N ≥ 0 the two creation loops return with [threadIndex]
    equal to [totalThreads] (2N, or 3N when N is a perfect square above 1:
    the strided loops create exactly N subgrid threads), no store to
    [params] falls outside the array, every entry of [params] is set, and
    thread k is given the size N and the two slots of index k. *)
Theorem X10_creation_fills_params (n : Z) :
  0 ≤ n →
  ∃ sp, spawn_threads n = Some sp
        ∧ threadIndex sp = n * 2 + (if has_subgrids n then n else 0)
        ∧ Z.of_nat (length (params sp)) = threadIndex sp
        ∧ ∀ k, 0 ≤ k < threadIndex sp →
               ∃ f p, zload (params sp) k = Some (Some (f, p))
                      ∧ psize p = n ∧ invalid p = k ∧ complete p = k
                      ∧ (f, row p, column p) ∈ threads_of n.
Proof.
  intros Hn. rewrite spawn_threads_spec by done. eexists. split; [done|].
  unfold spawned. cbn [threadIndex params replicate].
  rewrite app_nil_r, length_fmap, length_mk_params, length_threads_of by done.
  assert (0 ≤ n * 2 + (if has_subgrids n then n else 0)) as Htotal
    by (destruct (has_subgrids n); lia).
  split; [lia|]. split; [lia|].
  intros k Hk.
  destruct (lookup_lt_is_Some_2 (threads_of n) (Z.to_nat k))
    as [[[f r] c] Ht]; [rewrite length_threads_of by done; lia|].
  exists f, {| row := r; column := c; psize := n;
               complete := 0 + Z.of_nat (Z.to_nat k);
               invalid := 0 + Z.of_nat (Z.to_nat k) |}.
  split.
  - apply zload_Some. split; [lia|].
    by rewrite list_lookup_fmap, (mk_params_lookup n 0 _ _ f r c).
  - simpl. split; [done|]. split; [lia|]. split; [lia|].
    by eapply list_elem_of_lookup_2.
Qed.

Lemma X10_witness :
  ∃ sp, spawn_threads 4 = Some sp ∧ threadIndex sp = 12
        ∧ Z.of_nat (length (params sp)) = 12.
Proof.
  destruct (X10_creation_fills_params 4) as (sp & Hsp & Hidx & Hlen & _);
    [lia|].
  exists sp. split; [done|]. split; [exact Hidx|]. by rewrite Hlen, Hidx.
Defined.

(** X11. A unit check writes to its own two slots and to nothing else.
    Whatever the parameters and the memory, a check that returns has left
    the grid and the lengths of both arrays as they were, every slot of
    [listInvalid] other than [*invalid] and every slot of [listComplete]
    other than [*complete] as it was, and it only ever sets [*invalid] to
    true and [*complete] to false: a flag raised before stays raised. *)
Theorem X11_check_writes_own_slots (f : routine) (p : parameters)
    (m m' : mem) :
  start f p m = Some m' →
  grid m' = grid m
  ∧ length (listInvalid m') = length (listInvalid m)
  ∧ length (listComplete m') = length (listComplete m)
  ∧ (∀ j, j ≠ Z.to_nat (invalid p) →
          listInvalid m' !! j = listInvalid m !! j)
  ∧ (∀ j, j ≠ Z.to_nat (complete p) →
          listComplete m' !! j = listComplete m !! j)
  ∧ (∀ j, listInvalid m !! j = Some true → listInvalid m' !! j = Some true)
  ∧ (∀ j, listComplete m !! j = Some false →
          listComplete m' !! j = Some false).
Proof.
  intros (d & i & ->)%start_frame. unfold flagged. simpl.
  split; [done|].
  split; [destruct d; by rewrite ?length_insert|].
  split; [destruct i; by rewrite ?length_insert|].
  split; [intros j Hj; destruct d; by rewrite ?list_lookup_insert_ne|].
  split; [intros j Hj; destruct i; by rewrite ?list_lookup_insert_ne|].
  split.
  - intros j Hj. destruct d; [|done].
    destruct (decide (j = Z.to_nat (invalid p))) as [->|Hne].
    + apply list_lookup_insert_eq. by eapply lookup_lt_Some.
    + by rewrite list_lookup_insert_ne.
  - intros j Hj. destruct i; [|done].
    destruct (decide (j = Z.to_nat (complete p))) as [->|Hne].
    + apply list_lookup_insert_eq. by eapply lookup_lt_Some.
    + by rewrite list_lookup_insert_ne.
Qed.

Lemma X11_witness :
  let p := {| row := 2; column := 1; psize := 3; complete := 1;
              invalid := 1 |} in
  let m := {| grid := puzzle [[1;2;3];[2;0;2];[3;1;2]];
              listInvalid := [true; false; false];
              listComplete := [false; true; true] |} in
  let m' := {| grid := puzzle [[1;2;3];[2;0;2];[3;1;2]];
               listInvalid := [true; true; false];
               listComplete := [false; false; true] |} in
  listInvalid m' !! 0%nat = listInvalid m !! 0%nat
  ∧ listComplete m' !! 2%nat = listComplete m !! 2%nat.
Proof.
  intros p m m'.
  destruct (X11_check_writes_own_slots CheckRow p m m')
    as (_ & _ & _ & Hi & Hc & _); [reflexivity|].
  split; [apply Hi | apply Hc]; simpl; lia.
Defined.

(** ** The order in which the threads run *)

Lemma sched_ok_start (n : Z) (g : grid_t) (total : nat)
    (f : routine) (p : parameters) (m : mem) :
  sched_ok n g total (f, p) → grid m = g →
  length (listInvalid m) = total → length (listComplete m) = total →
  ∃ d i, start f p m = Some (flagged d i p m).
Proof.
  intros (t & k & Hok & Hk & [= -> ->]) Hg Hli Hlc.
  eexists _, _. apply (Hok k m Hg). split; simpl; lia.
Qed.

Lemma run_threads_perm (n : Z) (g : grid_t) (total : nat)
    (sched sched' : list (routine * parameters)) :
  sched ≡ₚ sched' →
  Forall (sched_ok n g total) sched →
  NoDup ((λ fp, invalid fp.2) <$> sched) →
  ∀ m, grid m = g →
       length (listInvalid m) = total → length (listComplete m) = total →
       run_threads sched m = run_threads sched' m.
Proof.
  induction 1 as [|[f p] l l' Hperm IH|[f1 p1] [f2 p2] l|l1 l2 l3 H12 IH12 H23 IH23];
    intros Hok Hnd m Hg Hli Hlc.
  - done.
  - apply Forall_cons in Hok as [Hfp Hok]. rewrite fmap_cons in Hnd.
    apply NoDup_cons in Hnd as [_ Hnd]. simpl.
    destruct (sched_ok_start n g total f p m Hfp Hg Hli Hlc) as (d & i & ->).
    simpl. apply IH; try done; unfold flagged; simpl.
    + destruct d; by rewrite ?length_insert.
    + destruct i; by rewrite ?length_insert.
  - apply Forall_cons in Hok as [H1 Hok]. apply Forall_cons in Hok as [H2 Hok].
    rewrite !fmap_cons in Hnd. apply NoDup_cons in Hnd as [Hne _].
    rewrite not_elem_of_cons in Hne. destruct Hne as [Hne _]. simpl in Hne.
    destruct H1 as (t1 & k1 & Hok1 & Hk1 & [= -> ->]).
    destruct H2 as (t2 & k2 & Hok2 & Hk2 & [= -> ->]).
    simpl in Hne.
    pose proof (threads_commute n g t1 t2 k1 k2 m Hok1 Hok2 Hg Hne
                  ltac:(lia) ltac:(lia) ltac:(lia) ltac:(lia)) as Hswap.
    cbn zeta in Hswap. cbn [run_threads].
    set (p1 := {| row := t1.1.2; column := t1.2; psize := n;
                  complete := k1; invalid := k1 |}) in *.
    set (p2 := {| row := t2.1.2; column := t2.2; psize := n;
                  complete := k2; invalid := k2 |}) in *.
    destruct (start t1.1.1 p1 m) as [m1|] eqn:E1;
      destruct (start t2.1.1 p2 m) as [m2|] eqn:E2;
      cbn [mbind option_bind] in *.
    + by rewrite Hswap.
    + destruct (start t2.1.1 p2 m1); [done | done].
    + destruct (start t1.1.1 p1 m2); [done | done].
    + done.
  - rewrite (IH12 Hok Hnd m Hg Hli Hlc). apply IH23; try done.
    + by rewrite <- H12.
    + by rewrite <- H12.
Qed.

Lemma slots_mk_params (n k : Z) (ts : list thread) :
  (λ fp : routine * parameters, invalid fp.2) <$> mk_params n k ts
  = seqZ k (Z.of_nat (length ts)).
Proof.
  revert k. induction ts as [|[[f r] c] ts IH]; intros k; [done|].
  cbn [mk_params fmap list_fmap length]. rewrite seqZ_succ.
  f_equal. apply IH.
Qed.

Lemma sched_ok_mk_params (n : Z) (g : grid_t) (total : nat) (ts : list thread) :
  Forall (thread_ok n g) ts →
  ∀ k, 0 ≤ k → k + Z.of_nat (length ts) ≤ Z.of_nat total →
       Forall (sched_ok n g total) (mk_params n k ts).
Proof.
  induction 1 as [|[[f r] c] ts Ht Hts IH]; intros k Hk Hlen; simpl.
  - constructor.
  - simpl in Hlen. constructor; [|apply IH; lia].
    exists (f, r, c), k. split; [done|]. split; [lia | done].
Qed.

(** The memory the threads leave, run in the order of their creation. *)
Lemma run_threads_created (n : Z) (g : grid_t) (rest : list thread) :
  Forall (thread_ok n g) rest →
  ∀ di dc : list bool,
    length di = length dc →
    run_threads (mk_params n (Z.of_nat (length di)) rest)
      {| grid := g;
         listInvalid := di ++ replicate (length rest) false;
         listComplete := dc ++ replicate (length rest) true |}
    = Some {| grid := g;
              listInvalid := di ++ ((λ t, (unit_flags n g t).1) <$> rest);
              listComplete :=
                dc ++ ((λ t, negb (unit_flags n g t).2) <$> rest) |}.
Proof.
  induction 1 as [|[[f r] c] rest Ht Hrest IH]; intros di dc Hlen.
  { done. }
  cbn [mk_params run_threads length replicate fmap list_fmap].
  pose proof (Ht (Z.of_nat (length di))
                {| grid := g;
                   listInvalid := di ++ false :: replicate (length rest) false;
                   listComplete := dc ++ true :: replicate (length rest) true |}
                eq_refl) as Hstart.
  cbn [fst snd] in Hstart. rewrite Hstart.
  2:{ split; simpl; rewrite length_app; simpl; lia. }
  clear Hstart. cbn [mbind option_bind fst snd].
  destruct (unit_flags n g (f, r, c)) as [d i]. cbn [fst snd].
  assert (flagged d i
            {| row := r; column := c; psize := n;
               complete := Z.of_nat (length di);
               invalid := Z.of_nat (length di) |}
            {| grid := g;
               listInvalid := di ++ false :: replicate (length rest) false;
               listComplete := dc ++ true :: replicate (length rest) true |}
          = {| grid := g;
               listInvalid := (di ++ [d]) ++ replicate (length rest) false;
               listComplete := (dc ++ [negb i])
                               ++ replicate (length rest) true |}) as ->.
  { unfold flagged. cbn [grid listInvalid listComplete invalid complete].
    rewrite Nat2Z.id, <- !app_assoc. f_equal.
    - destruct d; [|done].
      by rewrite insert_app_r_alt, Nat.sub_diag by lia.
    - destruct i; [|done]. rewrite Hlen.
      by rewrite insert_app_r_alt, Nat.sub_diag by lia. }
  replace (Z.of_nat (length di) + 1) with (Z.of_nat (length (di ++ [d])))
    by (rewrite length_app; simpl; lia).
  rewrite IH by (rewrite !length_app; simpl; lia).
  by rewrite <- !app_assoc.
Qed.

Lemma all_valid_slots (n : Z) (g : grid_t) (ts : list thread) :
  all_valid n g ts = forallb negb ((λ t, (unit_flags n g t).1) <$> ts).
Proof.
  unfold all_valid. induction ts as [|t ts IH]; simpl; [done | by rewrite IH].
Qed.

Lemma all_complete_slots (n : Z) (g : grid_t) (ts : list thread) :
  all_complete n g ts
  = forallb (λ b, b) ((λ t, negb (unit_flags n g t).2) <$> ts).
Proof.
  unfold all_complete.
  induction ts as [|t ts IH]; simpl; [done | by rewrite IH].
Qed.

Lemma omap_Some_fmap {A} (l : list A) : omap id (Some <$> l) = l.
Proof. induction l as [|x l IH]; [done|]. cbn. by rewrite IH. Qed.

(** X12. The verdict does not depend on the order in which the threads
    run.  On a grid of the data model, let the threads that [checkPuzzle]
    created run to completion one after the other in any order: every
    order leaves the same memory, and what [checkPuzzle] returns is the
    grid as given, complete = the conjunction of the slots of
    [listComplete], and valid = no slot of [listInvalid] set, in that
    memory. *)
Theorem X12_schedule_independent (n : Z) (g : grid_t) (sp : spawner) :
  0 ≤ n → well_formed n g → spawn_threads n = Some sp →
  ∃ m, (∀ sched, Some <$> sched ≡ₚ params sp →
                 run_threads sched (initial_mem g (length (params sp)))
                 = Some m)
       ∧ checkPuzzle n g
         = Some (g, forallb (λ b, b) (listComplete m),
                 forallb negb (listInvalid m)).
Proof.
  intros Hn Hwf. rewrite spawn_threads_spec by done. intros [= <-].
  unfold spawned. cbn [params replicate].
  rewrite app_nil_r, length_fmap, length_mk_params.
  pose proof (threads_of_ok n g Hn Hwf) as Hok.
  pose proof (run_threads_created n g (threads_of n) Hok [] [] eq_refl)
    as Hrun.
  cbn [length app] in Hrun. change (Z.of_nat 0) with 0 in Hrun.
  eexists. split.
  - intros sched Hperm.
    assert (sched ≡ₚ mk_params n 0 (threads_of n)) as Hperm'.
    { rewrite <- (omap_Some_fmap sched),
        <- (omap_Some_fmap (mk_params n 0 (threads_of n))).
      by apply omap_Permutation. }
    rewrite <- Hrun. symmetry.
    apply (run_threads_perm n g (length (threads_of n))); try done.
    + by apply sched_ok_mk_params; [|lia|lia].
    + rewrite slots_mk_params. apply NoDup_seqZ.
    + apply length_replicate.
    + apply length_replicate.
  - cbn [listInvalid listComplete].
    rewrite <- all_valid_slots, <- all_complete_slots.
    by apply checkPuzzle_spec.
Qed.

Lemma X12_witness :
  ∃ m, (∀ sched,
          Some <$> sched
          ≡ₚ Some <$> mk_params 2 0 [(CheckRow, 1, 1); (CheckCol, 1, 1);
                                     (CheckRow, 2, 1); (CheckCol, 1, 2)] →
          run_threads sched (initial_mem (puzzle [[1;2];[0;1]]) 4) = Some m)
       ∧ checkPuzzle 2 (puzzle [[1;2];[0;1]])
         = Some (puzzle [[1;2];[0;1]], forallb (λ b, b) (listComplete m),
                 forallb negb (listInvalid m)).
Proof.
  destruct (X12_schedule_independent 2 (puzzle [[1;2];[0;1]])
              {| threadIndex := 4;
                 params := Some <$> mk_params 2 0
                             [(CheckRow, 1, 1); (CheckCol, 1, 1);
                              (CheckRow, 2, 1); (CheckCol, 1, 2)] |})
    as (m & Hsched & Hverdict); [lia | by vm_compute | reflexivity |].
  exists m. split; [|exact Hverdict].
  intros sched Hperm. exact (Hsched sched Hperm).
Defined.

(** * Input and output *)

Lemma string_app_cons (x : ascii) (a b : string) :
  String x a +:+ b = String x (a +:+ b).
Proof. reflexivity. Qed.

Lemma string_app_nil_l (a : string) : "" +:+ a = a.
Proof. reflexivity. Qed.

Lemma string_app_assoc (a b c : string) : (a +:+ b) +:+ c = a +:+ b +:+ c.
Proof.
  induction a as [|x a IH]; [done|]. by rewrite !string_app_cons, IH.
Qed.

Lemma string_app_nil_r (a : string) : a +:+ "" = a.
Proof.
  induction a as [|x a IH]; [done|]. by rewrite string_app_cons, IH.
Qed.

Lemma digit_cases (d : Z) :
  0 ≤ d ≤ 9 →
  d ∈ [0; 1; 2; 3; 4; 5; 6; 7; 8; 9].
Proof. intros Hd. rewrite !elem_of_cons. lia. Qed.

Ltac each_digit d H :=
  apply digit_cases in H;
  repeat (apply elem_of_cons in H as [-> | H]; [reflexivity|]);
  by apply elem_of_nil in H.

Lemma digit_of_digit_char (d : Z) :
  0 ≤ d ≤ 9 → digit_of (digit_char d) = Some d.
Proof. intros H. each_digit d H. Qed.

Lemma is_space_digit_char (d : Z) :
  0 ≤ d ≤ 9 → is_space (digit_char d) = false.
Proof. intros H. each_digit d H. Qed.

Lemma sign_of_digit_char (d : Z) (s : string) :
  0 ≤ d ≤ 9 →
  sign_of (String (digit_char d) s) = (false, String (digit_char d) s).
Proof. intros H. each_digit d H. Qed.

Lemma is_space_not_digit (c : ascii) : is_space c → digit_of c = None.
Proof.
  unfold is_space, digit_of. cbn zeta.
  intros [H%bool_decide_unpack | H%bool_decide_unpack]%orb_True;
    rewrite decide_False; (done || lia).
Qed.

Lemma print_digits_app (fuel : nat) (z : Z) (acc rest : string) :
  print_digits fuel z acc +:+ rest = print_digits fuel z (acc +:+ rest).
Proof.
  revert z acc. induction fuel as [|fuel IH]; intros z acc; simpl; [done|].
  destruct (decide (z < 10)); [done|]. by rewrite IH, string_app_cons.
Qed.

(** What is printed starts with a digit. *)
Lemma print_digits_head (fuel : nat) (z : Z) (acc : string) :
  0 ≤ z → (Z.to_nat z < fuel)%nat →
  ∃ d s, 0 ≤ d ≤ 9 ∧ print_digits fuel z acc = String (digit_char d) s.
Proof.
  revert z acc. induction fuel as [|fuel IH]; intros z acc Hz Hfuel; [lia|].
  simpl. destruct (decide (z < 10)) as [Hsmall|Hbig].
  - exists (z mod 10), acc. split; [|done].
    pose proof (Z.mod_pos_bound z 10). lia.
  - apply IH; [apply Z.div_pos; lia|].
    assert (z / 10 < z) by (apply Z.div_lt; lia).
    assert (0 ≤ z / 10) by (apply Z.div_pos; lia). lia.
Qed.

(** Reading back the digits printed for [z]. *)
Lemma scan_print_digits (fuel : nat) (z : Z) (acc : string) :
  0 ≤ z → (Z.to_nat z < fuel)%nat →
  ∃ p, ∀ k, scan_digits (print_digits fuel z acc) k
            = scan_digits acc (k * p + z).
Proof.
  revert z acc. induction fuel as [|fuel IH]; intros z acc Hz Hfuel; [lia|].
  simpl. destruct (decide (z < 10)) as [Hsmall|Hbig].
  - exists 10. intros k. simpl.
    rewrite digit_of_digit_char by (pose proof (Z.mod_pos_bound z 10); lia).
    rewrite Z.mod_small by lia. f_equal. lia.
  - assert (z / 10 < z) by (apply Z.div_lt; lia).
    assert (0 ≤ z / 10) by (apply Z.div_pos; lia).
    destruct (IH (z / 10) (String (digit_char (z mod 10)) acc))
      as [p Hp]; [done | lia |].
    exists (10 * p). intros k. rewrite Hp. simpl.
    rewrite digit_of_digit_char by (pose proof (Z.mod_pos_bound z 10); lia).
    f_equal. pose proof (Z.div_mod z 10). lia.
Qed.

(** [fscanf("%d")] reads back what [printf("%d")] printed, when a
    character that is not a digit follows. *)
Lemma scan_int_print_int (z : Z) (rest : string) :
  INT_MIN ≤ z ≤ INT_MAX →
  (∀ k, scan_digits rest k = (k, rest)) →
  scan_int (print_int z +:+ rest) = Some (z, rest).
Proof.
  intros Hz Hrest. unfold print_int.
  destruct (decide (z < 0)) as [Hneg|Hpos].
  - rewrite string_app_cons, print_digits_app, string_app_nil_l.
    unfold scan_int.
    change (skip_space (String "-" ?s)) with (String "-" s).
    cbn [sign_of].
    destruct (print_digits_head (S (Z.to_nat (- z))) (- z) rest)
      as (d & s & Hd & Hhead); [lia | lia |].
    destruct (scan_print_digits (S (Z.to_nat (- z))) (- z) rest)
      as [p Hp]; [lia | lia |].
    rewrite Hhead at 1. rewrite digit_of_digit_char by done.
    rewrite Hp, Hrest. cbn zeta.
    replace (- (0 * p + - z)) with z by lia.
    by rewrite decide_True.
  - rewrite print_digits_app, string_app_nil_l.
    destruct (print_digits_head (S (Z.to_nat z)) z rest)
      as (d & s & Hd & Hhead); [lia | lia |].
    destruct (scan_print_digits (S (Z.to_nat z)) z rest)
      as [p Hp]; [lia | lia |].
    unfold scan_int. rewrite Hhead at 1. cbn [skip_space].
    rewrite is_space_digit_char, sign_of_digit_char by done.
    rewrite digit_of_digit_char by done.
    rewrite <- Hhead, Hp, Hrest. cbn zeta.
    replace (0 * p + z) with z by lia.
    by rewrite decide_True.
Qed.

Lemma scan_int_space (c : ascii) (s : string) :
  is_space c → scan_int (String c s) = scan_int s.
Proof.
  intros Hc. unfold scan_int. cbn [skip_space].
  by rewrite (Is_true_true_1 _ Hc).
Qed.

(** ** Reading integers one after the other *)

Lemma scan_ints_length (k : nat) (s : string) (vs : list Z) (r : string) :
  scan_ints k s = Some (vs, r) → length vs = k.
Proof.
  revert s vs r. induction k as [|k IH]; intros s vs r; simpl.
  - by intros [= <- _].
  - destruct (scan_int s) as [[v s1]|]; simpl; [|done].
    destruct (scan_ints k s1) as [[vs' s2]|] eqn:Hk; simpl; [|done].
    intros [= <- _]. simpl. f_equal. by eapply IH.
Qed.

Lemma scan_ints_app_inv (a b : nat) (s : string) (vs : list Z) (r : string) :
  scan_ints (a + b) s = Some (vs, r) →
  ∃ v1 v2 s1, scan_ints a s = Some (v1, s1) ∧ scan_ints b s1 = Some (v2, r)
              ∧ vs = v1 ++ v2.
Proof.
  revert s vs. induction a as [|a IH]; intros s vs; simpl.
  - intros H. by exists [], vs, s.
  - destruct (scan_int s) as [[v s1]|]; simpl; [|done].
    destruct (scan_ints (a + b) s1) as [[vs' s2]|] eqn:Hab; simpl; [|done].
    intros [= <- <-].
    destruct (IH s1 vs' Hab) as (v1 & v2 & s3 & -> & H2 & ->). simpl.
    by exists (v :: v1), v2, s3.
Qed.

Lemma scan_vals_space (c : ascii) (s : string) (k : nat) :
  is_space c → scan_vals k (String c s) = scan_vals k s.
Proof.
  intros Hc. unfold scan_vals. destruct k as [|k]; [done|]. simpl.
  by rewrite scan_int_space.
Qed.

Lemma scan_vals_print_int (v : Z) (c : ascii) (s : string) (k : nat) :
  INT_MIN ≤ v ≤ INT_MAX → is_space c →
  scan_vals (S k) (print_int v +:+ String c s) = (v ::.) <$> scan_vals k s.
Proof.
  intros Hv Hc. rewrite <- (scan_vals_space c s k Hc). unfold scan_vals.
  simpl. rewrite scan_int_print_int; [|done|].
  - simpl. by destruct (scan_ints k (String c s)) as [[vs s2]|].
  - intros acc. simpl. by rewrite is_space_not_digit.
Qed.

Lemma scan_vals_show_cells (vs : list Z) (rest : string) (k : nat) :
  Forall (λ v, INT_MIN ≤ v ≤ INT_MAX) vs →
  scan_vals (length vs + k) (show_cells vs rest)
  = (vs ++.) <$> scan_vals k rest.
Proof.
  induction 1 as [|v vs Hv Hvs IH]; simpl.
  - by destruct (scan_vals k rest).
  - rewrite string_app_cons, string_app_nil_l.
    rewrite scan_vals_print_int by done. rewrite IH.
    by destruct (scan_vals k rest).
Qed.

Lemma scan_vals_show_rows (rows : list (list Z)) (rest : string) (k : nat) :
  Forall (Forall (λ v, INT_MIN ≤ v ≤ INT_MAX)) rows →
  scan_vals (length (concat rows) + k) (show_rows rows rest)
  = (concat rows ++.) <$> scan_vals k rest.
Proof.
  induction 1 as [|row rows Hrow Hrows IH]; simpl.
  - by destruct (scan_vals k rest).
  - rewrite length_app, <- Nat.add_assoc.
    rewrite scan_vals_show_cells by done.
    unfold nl at 1. rewrite string_app_cons, string_app_nil_l.
    rewrite scan_vals_space by done. rewrite IH.
    destruct (scan_vals k rest); simpl; [|done]. by rewrite app_assoc.
Qed.

(** The text of a puzzle reads back as its size and its cells, row by
    row. *)
Lemma scan_vals_show_puzzle (n : Z) (rows : list (list Z)) :
  INT_MIN ≤ n ≤ INT_MAX →
  Forall (Forall (λ v, INT_MIN ≤ v ≤ INT_MAX)) rows →
  scan_vals (S (length (concat rows))) (show_puzzle n rows)
  = Some (n :: concat rows).
Proof.
  intros Hn Hrows. unfold show_puzzle, nl at 1.
  rewrite string_app_cons, string_app_nil_l.
  rewrite scan_vals_print_int by done.
  rewrite <- (Nat.add_0_r (length _)), scan_vals_show_rows by done.
  simpl. by rewrite app_nil_r.
Qed.

(** ** The reader *)

Lemma store_cell_row (g : grid_t) (r c v : Z) (line : list Z) :
  0 ≤ r → g !! Z.to_nat r = Some line → 0 ≤ c < Z.of_nat (length line) →
  store_cell g r c v
  = Some (<[Z.to_nat r := <[Z.to_nat c := v]> line]> g).
Proof.
  intros Hr Hline Hc. unfold store_cell.
  rewrite (proj2 (zload_Some g r line)) by done. simpl.
  rewrite zstore_in_range by done. simpl.
  apply zstore_in_range. apply lookup_lt_Some in Hline. lia.
Qed.

(** The inner loop of the reader stores the next integers of the stream
    in the row, from column [c0] on. *)
Lemma read_row_loop (r : Z) (m : nat) :
  0 ≤ r →
  ∀ (c0 : Z) (pre : list Z) (s : string) (g : grid_t) (vs : list Z)
    (s' : string),
    g !! Z.to_nat r = Some (pre ++ replicate m 0) →
    Z.of_nat (length pre) = c0 →
    scan_ints m s = Some (vs, s') →
    for_loop (seqZ c0 (Z.of_nat m))
      (λ col rd,
         '(v, rest) ← scan_int (stream rd);
         g ← store_cell (agrid rd) r col v;
         Some {| stream := rest; agrid := g |})
      {| stream := s; agrid := g |}
    = Some {| stream := s'; agrid := <[Z.to_nat r := pre ++ vs]> g |}.
Proof.
  intros Hr. induction m as [|m IH]; intros c0 pre s g vs s' Hrow Hpre Hscan.
  - simpl in *. injection Hscan as <- <-.
    rewrite app_nil_r in *. by rewrite list_insert_id.
  - rewrite seqZ_succ. cbn [for_loop stream agrid]. simpl in Hscan.
    destruct (scan_int s) as [[v s1]|]; simpl in Hscan; [|done].
    destruct (scan_ints m s1) as [[vs' s2]|] eqn:Hm; simpl in Hscan; [|done].
    injection Hscan as <- <-. cbn [mbind option_bind].
    rewrite (store_cell_row g r c0 v _ Hr Hrow)
      by (rewrite length_app; simpl; lia).
    cbn [mbind option_bind].
    assert (<[Z.to_nat c0 := v]> (pre ++ replicate (S m) 0)
            = (pre ++ [v]) ++ replicate m 0) as ->.
    { replace (Z.to_nat c0) with (length pre + 0)%nat by lia.
      by rewrite insert_app_r, <- app_assoc. }
    pose proof (lookup_lt_Some _ _ _ Hrow) as Hlt.
    rewrite (IH (c0 + 1) (pre ++ [v]) s1 _ vs' s2); [| |by rewrite length_app; simpl; lia|done].
    + by rewrite list_insert_insert_eq, <- app_assoc.
    + by rewrite list_lookup_insert_eq.
Qed.

(** The outer loop allocates the rows and fills them one after the
    other. *)
Lemma read_rows_loop (n : nat) (rws : list (list Z)) :
  Forall (λ row, length row = n) rws →
  ∀ (r0 : Z) (done_ : grid_t) (s s' : string),
    Z.of_nat (length done_) = r0 →
    scan_ints (length (concat rws)) s = Some (concat rws, s') →
    for_loop (seqZ r0 (Z.of_nat (length rws)))
      (λ row rd,
         g1 ← zstore (agrid rd) row (replicate (S n) 0);
         for_loop (seqZ 1 (Z.of_nat n))
           (λ col rd,
              '(v, rest) ← scan_int (stream rd);
              g ← store_cell (agrid rd) row col v;
              Some {| stream := rest; agrid := g |})
           {| stream := stream rd; agrid := g1 |})
      {| stream := s; agrid := done_ ++ replicate (length rws) [] |}
    = Some {| stream := s';
              agrid := done_ ++ ((λ row, 0 :: row) <$> rws) |}.
Proof.
  induction 1 as [|row rws Hrow Hrws IH]; intros r0 done_ s s' Hdone Hscan.
  - simpl in *. by injection Hscan as <-.
  - cbn [length]. rewrite seqZ_succ. cbn [for_loop stream agrid].
    change (replicate (S (length rws)) (@nil Z))
      with ([] :: replicate (length rws) (@nil Z)).
    rewrite zstore_in_range by (rewrite length_app; simpl; lia).
    cbn [mbind option_bind].
    replace (Z.to_nat r0) with (length done_ + 0)%nat by lia.
    rewrite insert_app_r. cbn [insert list_insert].
    cbn [concat] in Hscan. rewrite length_app in Hscan.
    apply scan_ints_app_inv in Hscan as (v1 & v2 & s1 & H1 & H2 & Heq).
    pose proof (scan_ints_length _ _ _ _ H1) as Hlen1.
    apply app_inj_1 in Heq as [<- <-]; [|done].
    rewrite Hrow in H1.
    rewrite (read_row_loop r0 n ltac:(lia) 1 [0] s _ row s1); [| |done|done].
    2:{ replace (Z.to_nat r0) with (length done_ + 0)%nat by lia.
        by rewrite lookup_app_r, Nat.add_0_r, Nat.sub_diag by lia. }
    cbn [mbind option_bind].
    replace (Z.to_nat r0) with (length done_ + 0)%nat by lia.
    rewrite insert_app_r. cbn [insert list_insert app].
    rewrite (cons_middle (0 :: row)), app_assoc.
    rewrite (IH (r0 + 1) (done_ ++ [0 :: row]) s1 s').
    + by rewrite <- app_assoc.
    + rewrite length_app. simpl. lia.
    + done.
Qed.

Lemma puzzle_fmap (rows : list (list Z)) :
  puzzle rows = [] :: ((λ row, 0 :: row) <$> rows).
Proof. reflexivity. Qed.

(** The reader on a file that holds a size and the integers of the rows. *)
Lemma readSudokuPuzzle_rows (fs : string → option string)
    (f content : string) (n : Z) (rows : list (list Z)) :
  fs f = Some content → 0 ≤ n < INT_MAX →
  length rows = Z.to_nat n →
  Forall (λ row, length row = Z.to_nat n) rows →
  scan_vals (S (length (concat rows))) content = Some (n :: concat rows) →
  readSudokuPuzzle fs f = Some (Returns (n, puzzle rows)).
Proof.
  intros Hf Hn Hlen Hrows Hscan. unfold readSudokuPuzzle. rewrite Hf.
  unfold scan_vals in Hscan. simpl in Hscan.
  destruct (scan_int content) as [[v s1]|]; simpl in Hscan; [|done].
  destruct (scan_ints _ s1) as [[vs s2]|] eqn:Hvs; simpl in Hscan; [|done].
  injection Hscan as -> ->. cbn [mbind option_bind].
  rewrite decide_True by lia.
  assert (n = Z.of_nat (length rows)) as -> by lia.
  rewrite Nat2Z.id in Hrows.
  replace (Z.to_nat (Z.of_nat (length rows) + 1)) with (S (length rows))
    by lia.
  change (replicate (S (length rows)) (@nil Z))
    with ([[]] ++ replicate (length rows) (@nil Z)).
  rewrite (read_rows_loop (length rows) rows Hrows 1 [[]] s1 s2 eq_refl Hvs).
  cbn [mbind option_bind agrid]. by rewrite puzzle_fmap.
Qed.

(** X13. What [readSudokuPuzzle] makes of a file.  If the file can be
    opened and holds, as [fscanf] reads them, the integer N (0 ≤ N <
    INT_MAX) and then the N * N integers of [rows], whatever the white
    space and the line breaks between them, the call returns N and the
    grid whose row r holds in its columns 1..N the r-th group of N
    integers: the file is read in row-major order, each integer once. *)
Theorem X13_reader_row_major (fs : string → option string)
    (f content : string) (n : Z) (rows : list (list Z)) :
  fs f = Some content → 0 ≤ n < INT_MAX →
  length rows = Z.to_nat n →
  Forall (λ row, length row = Z.to_nat n) rows →
  scan_vals (S (length (concat rows))) content = Some (n :: concat rows) →
  readSudokuPuzzle fs f = Some (Returns (n, puzzle rows)).
Proof. apply readSudokuPuzzle_rows. Qed.

Lemma X13_witness :
  readSudokuPuzzle
    (one_file "p.txt" ("2" +:+ nl +:+ " 1 2" +:+ nl +:+ nl +:+ "2   -1"))
    "p.txt"
  = Some (Returns (2, puzzle [[1; 2]; [2; -1]])).
Proof.
  apply (X13_reader_row_major _ _
           ("2" +:+ nl +:+ " 1 2" +:+ nl +:+ nl +:+ "2   -1"));
    [reflexivity | by vm_compute | reflexivity | compute_done
    | by vm_compute].
Defined.

(** ** The printer *)

Lemma show_cells_app (vs : list Z) (rest : string) :
  show_cells vs rest = show_cells vs "" +:+ rest.
Proof.
  induction vs as [|v vs IH]; simpl; [done|].
  by rewrite IH, !string_app_assoc.
Qed.

Lemma show_rows_app (rows : list (list Z)) (rest : string) :
  show_rows rows rest = show_rows rows "" +:+ rest.
Proof.
  induction rows as [|row rows IH]; simpl; [done|].
  rewrite (show_cells_app row (nl +:+ show_rows rows rest)).
  rewrite (show_cells_app row (nl +:+ show_rows rows "")).
  by rewrite IH, !string_app_assoc.
Qed.

(** The inner loop of the printer appends the cells of the row. *)
Lemma print_row_loop (g : grid_t) (r : Z) (idx : list Z) :
  (∀ c, c ∈ idx → is_Some (cell g r c)) →
  ∀ out,
    for_loop idx
      (λ col out, v ← cell g r col; Some (out +:+ print_int v +:+ " ")) out
    = Some (out +:+ show_cells ((λ c, value g r c) <$> idx) "").
Proof.
  induction idx as [|c idx IH]; intros Hcells out; simpl.
  - by rewrite string_app_nil_r.
  - destruct (Hcells c) as [v Hv]; [left|]. rewrite Hv. simpl.
    rewrite IH by (intros c' Hc'; apply Hcells; by right).
    by rewrite (cell_value _ _ _ _ Hv), !string_app_assoc.
Qed.

Lemma print_rows_loop (n : Z) (g : grid_t) (idx : list Z) :
  (∀ r c, r ∈ idx → 1 ≤ c ≤ n → is_Some (cell g r c)) →
  ∀ out,
    for_loop idx
      (λ row out,
         out1 ← for_loop (seqZ 1 n)
                  (λ col out,
                     v ← cell g row col; Some (out +:+ print_int v +:+ " "))
                  out;
         Some (out1 +:+ nl))
      out
    = Some (out +:+ show_rows (row_unit n g <$> idx) "").
Proof.
  induction idx as [|r idx IH]; intros Hcells out; simpl.
  - by rewrite string_app_nil_r.
  - rewrite print_row_loop
      by (intros c Hc%elem_of_seqZ; apply Hcells; [left | lia]).
    simpl. rewrite IH by (intros r' c' Hr'; apply Hcells; by right).
    fold (row_unit n g r).
    rewrite (show_cells_app (row_unit n g r) (nl +:+ _)).
    by rewrite !string_app_assoc.
Qed.

(** The text [printSudokuPuzzle] prints for a grid whose cells exist. *)
Lemma printSudokuPuzzle_spec (n : Z) (g : grid_t) (ok : Z → bool) :
  all_cells n g ok →
  printSudokuPuzzle n g = Some (show_puzzle n (rows n g)).
Proof.
  intros Hcells. unfold printSudokuPuzzle.
  rewrite (print_rows_loop n g (seqZ 1 n)).
  - simpl. unfold show_puzzle, rows.
    rewrite (show_rows_app _ nl). by rewrite !string_app_assoc.
  - intros r c Hr%elem_of_seqZ Hc.
    destruct (proj1 (all_cells_spec n g ok) Hcells r c) as (v & -> & _);
      [lia | done | done].
Qed.

Lemma length_rows (n : Z) (g : grid_t) : length (rows n g) = Z.to_nat n.
Proof. unfold rows. by rewrite length_fmap, length_seqZ. Qed.

Lemma rows_lengths (n : Z) (g : grid_t) :
  Forall (λ row, length row = Z.to_nat n) (rows n g).
Proof.
  unfold rows. apply Forall_fmap, Forall_forall. intros r _. simpl.
  apply length_row_unit.
Qed.

Lemma rows_values (n : Z) (g : grid_t) (ok : Z → bool) :
  all_cells n g ok → Forall (Forall (λ v, ok v)) (rows n g).
Proof.
  intros Hcells. unfold rows. apply Forall_fmap, Forall_forall.
  intros r Hr%elem_of_seqZ. simpl. apply Forall_forall.
  intros v (c & Hc & <-)%elem_of_row_unit.
  destruct (proj1 (all_cells_spec n g ok) Hcells r c) as (x & Hx & Hok);
    [lia | done |].
  by rewrite (cell_value _ _ _ _ Hx).
Qed.

(** The cells of the grid made of the rows of [g]. *)
Lemma cell_puzzle_rows (n : Z) (g : grid_t) (r c : Z) :
  1 ≤ r ≤ n → 1 ≤ c ≤ n →
  cell (puzzle (rows n g)) r c = Some (value g r c).
Proof.
  intros Hr Hc. unfold cell. rewrite puzzle_fmap.
  rewrite (proj2 (zload_Some _ r (0 :: row_unit n g r))).
  - simpl. apply zload_Some. split; [lia|].
    replace (Z.to_nat c) with (S (Z.to_nat (c - 1))) by lia. simpl.
    rewrite row_unit_lookup by lia. do 2 f_equal. lia.
  - split; [lia|].
    replace (Z.to_nat r) with (S (Z.to_nat (r - 1))) by lia. simpl.
    rewrite list_lookup_fmap. unfold rows. rewrite list_lookup_fmap.
    rewrite lookup_seqZ_lt by lia. simpl. do 3 f_equal. lia.
Qed.

(** X14. What is printed can be read back.  For a grid of size N (0 ≤ N <
    INT_MAX) whose cells exist and hold [int] values,
    [printSudokuPuzzle] returns, and [readSudokuPuzzle] on a file with the
    text it printed returns the size N and a grid with the same cells. *)
Theorem X14_print_then_read (n : Z) (g : grid_t) (f : string) :
  0 ≤ n < INT_MAX → int_cells n g →
  ∃ text g',
    printSudokuPuzzle n g = Some text
    ∧ readSudokuPuzzle (one_file f text) f = Some (Returns (n, g'))
    ∧ ∀ r c, 1 ≤ r ≤ n → 1 ≤ c ≤ n → cell g' r c = cell g r c.
Proof.
  intros Hn Hcells. exists (show_puzzle n (rows n g)), (puzzle (rows n g)).
  split; [by eapply printSudokuPuzzle_spec|]. split.
  - apply (readSudokuPuzzle_rows _ _ (show_puzzle n (rows n g)));
      [|done|apply length_rows|apply rows_lengths|].
    + unfold one_file. by rewrite decide_True.
    + apply scan_vals_show_puzzle; [unfold INT_MIN, INT_MAX in *; lia|].
      eapply Forall_impl; [by apply rows_values|].
      intros row Hrow. eapply Forall_impl; [exact Hrow|].
      intros v Hv. by apply bool_decide_unpack in Hv.
  - intros r c Hr Hc. rewrite cell_puzzle_rows by done.
    destruct (proj1 (all_cells_spec n g _) Hcells r c Hr Hc) as (v & Hv & _).
    by rewrite Hv, (cell_value _ _ _ _ Hv).
Qed.

Lemma X14_witness :
  ∃ text g',
    printSudokuPuzzle 2 (puzzle [[1; 0]; [-3; 12]]) = Some text
    ∧ readSudokuPuzzle (one_file "out.txt" text) "out.txt"
      = Some (Returns (2, g'))
    ∧ ∀ r c, 1 ≤ r ≤ 2 → 1 ≤ c ≤ 2 →
             cell g' r c = cell (puzzle [[1; 0]; [-3; 12]]) r c.
Proof.
  apply (X14_print_then_read 2 (puzzle [[1; 0]; [-3; 12]]) "out.txt");
    by vm_compute.
Defined.

(** ** Fully filled grids *)

Lemma nonzero_filled (u : list Z) : Forall (λ v, 0 < v) u → nonzero u = u.
Proof.
  induction 1 as [|v u Hv Hu IH]; [done|]. unfold nonzero in *.
  rewrite filter_cons_True by lia. by rewrite IH.
Qed.

Lemma row_unit_filled (n : Z) (g : grid_t) (r : Z) :
  fully_filled n g → 1 ≤ r ≤ n → Forall (λ v, 0 < v) (row_unit n g r).
Proof.
  intros Hfull Hr. apply Forall_forall.
  intros v (c & Hc & <-)%elem_of_row_unit.
  destruct (fully_filled_cell n g r c Hfull Hr Hc) as (x & ->%cell_value & ?).
  lia.
Qed.

Lemma col_unit_filled (n : Z) (g : grid_t) (c : Z) :
  fully_filled n g → 1 ≤ c ≤ n → Forall (λ v, 0 < v) (col_unit n g c).
Proof.
  intros Hfull Hc. apply Forall_forall.
  intros v (r & Hr & <-)%elem_of_col_unit.
  destruct (fully_filled_cell n g r c Hfull Hr Hc) as (x & ->%cell_value & ?).
  lia.
Qed.

(** On a fully filled grid the valid flag stands for the Sudoku rules. *)
Lemma checked_valid_filled (n : Z) (g : grid_t) :
  fully_filled n g → checked_valid n g = sudoku_rules n g.
Proof.
  intros Hfull. unfold checked_valid, sudoku_rules, units, rows_cols_distinct.
  rewrite (app_assoc (rows n g)), (forallb_app _ (rows n g ++ cols n g)).
  f_equal. apply eq_true_iff_eq. rewrite <- !Is_true_true.
  rewrite !forallb_True, !Forall_forall.
  apply forall_proper. intros u. apply forall_proper. intros Hu.
  assert (nonzero u = u) as ->; [|done].
  apply nonzero_filled. unfold rows, cols in Hu.
  apply elem_of_app in Hu as [Hu|Hu];
    apply list_elem_of_fmap in Hu as (x & -> & Hx%elem_of_seqZ).
  - apply row_unit_filled; [done | lia].
  - apply col_unit_filled; [done | lia].
Qed.

Lemma fully_filled_no_empty (n : Z) (g : grid_t) :
  fully_filled n g → ¬ has_empty n g.
Proof.
  intros Hfull (r & c & Hr & Hc & Hcell)%has_empty_spec.
  destruct (fully_filled_cell n g r c Hfull Hr Hc) as (v & Hv & ?).
  rewrite Hv in Hcell. injection Hcell as ->. lia.
Qed.

Lemma all_complete_filled (n : Z) (g : grid_t) :
  fully_filled n g → all_complete n g (threads_of n) = true.
Proof.
  intros Hfull. apply all_complete_row_col. intros i Hi.
  split; apply unit_scan_filled.
  - by apply row_unit_filled.
  - by apply col_unit_filled.
Qed.

(** [checkPuzzle] on a fully filled grid of any size. *)
Lemma checkPuzzle_filled (n : Z) (g : grid_t) :
  0 ≤ n → fully_filled n g →
  checkPuzzle n g = Some (g, true, sudoku_rules n g).
Proof.
  intros Hn Hfull.
  rewrite checkPuzzle_spec by (done || by apply fully_filled_well_formed).
  rewrite all_complete_filled by done.
  rewrite all_valid_checked by by apply fully_filled_well_formed.
  by rewrite checked_valid_filled.
Qed.

(** X15. [checkPuzzle] decides the Sudoku rules on fully filled grids of
    every size.  For every N ≥ 0 and every grid whose cells all hold a
    digit of 1..N, the call returns complete = true, and valid = true
    exactly when no row, no column and (if N is a perfect square above 1)
    no subgrid repeats a digit. *)
Theorem X15_checker_decides_filled_grids (n : Z) (g : grid_t) :
  0 ≤ n → fully_filled n g →
  checkPuzzle n g = Some (g, true, sudoku_rules n g).
Proof. apply checkPuzzle_filled. Qed.

Lemma X15_witness :
  let g := puzzle [[1;2;3;4;5];[2;3;4;5;1];[3;4;5;1;2];[4;5;1;2;3];
                   [5;1;2;3;1]] in
  checkPuzzle 5 g = Some (g, true, sudoku_rules 5 g).
Proof.
  intros g.
  apply (X15_checker_decides_filled_grids 5 g); [lia | by vm_compute].
Defined.

(** * The program *)

(** The passes of [main]: they return, keep the grid in the data model,
    keep the filled cells, stay inside every completion, and create no
    duplicate in a row or a column. *)
Lemma passes_spec (k n : Z) (g : grid_t) :
  well_formed n g →
  ∃ g', passes k n g = Some g' ∧ well_formed n g'
        ∧ (∀ r c, cell g r c ≠ Some 0 → cell g' r c = cell g r c)
        ∧ (∀ sol, latin_square n sol → agrees n g sol → agrees n g' sol)
        ∧ (rows_cols_distinct n g → rows_cols_distinct n g').
Proof.
  intros Hwf. unfold passes.
  apply (for_loop_invariant
           (λ g', well_formed n g'
                  ∧ (∀ r c, cell g r c ≠ Some 0 → cell g' r c = cell g r c)
                  ∧ (∀ sol, latin_square n sol → agrees n g sol →
                            agrees n g' sol)
                  ∧ (rows_cols_distinct n g → rows_cols_distinct n g'))).
  { done. }
  intros i g1 _ (Hwf1 & Hkeep & Hsound & Hdist).
  destruct (solveMissingNumber_total n g1 Hwf1) as (g2 & Hrun & Hwf2).
  exists g2. split; [done|]. split; [done|]. split; [|split].
  - intros r c Hne. rewrite <- (Hkeep r c Hne).
    apply (solveMissingNumber_keeps n g1 g2 r c Hrun).
    by rewrite (Hkeep r c Hne).
  - intros sol Hlat Hag.
    apply (solveMissingNumber_invariant n (λ h, agrees n h sol) g1 g2);
      [|done|done|by apply Hsound].
    intros r c s s'. by apply solve_cell_agrees.
  - intros Hd.
    apply (solveMissingNumber_invariant n (λ h, rows_cols_distinct n h)
             g1 g2); [|done|done|by apply Hdist].
    intros r c s s'. apply solve_cell_distinct.
Qed.

Lemma main_two_args (fs : string → option string) (prog f : string) :
  main fs [prog; f]
  = r ← readSudokuPuzzle fs f;
    match r with
    | Exits out => Some (out, EXIT_FAILURE)
    | Returns (sudokuSize, g0) =>
        '(g1, complete, valid) ← checkPuzzle sudokuSize g0;
        '(out, g2) ←
          (if complete : bool then
             Some ("Complete puzzle? true" +:+ nl
                   +:+ (if valid : bool then "Valid puzzle? true" +:+ nl
                        else "Valid puzzle? false" +:+ nl),
                   g1)
           else
             p ← printSudokuPuzzle sudokuSize g1;
             g ← passes 5 sudokuSize g1;
             Some ("Complete puzzle? false." +:+ nl +:+ p
                   +:+ "Solve result: " +:+ nl, g));
        p ← printSudokuPuzzle sudokuSize g2;
        Some (out +:+ p, EXIT_SUCCESS)
    end.
Proof. reflexivity. Qed.

(** [main] on a puzzle of the data model: it returns with success, and
    what it prints is determined by the verdict of [checkPuzzle]. *)
Lemma main_well_formed (fs : string → option string) (prog f : string)
    (n : Z) (g : grid_t) :
  readSudokuPuzzle fs f = Some (Returns (n, g)) →
  0 ≤ n → well_formed n g →
  ∃ c v g5,
    checkPuzzle n g = Some (g, c, v)
    ∧ passes 5 n g = Some g5
    ∧ main fs [prog; f]
      = Some (if c : bool then
                "Complete puzzle? true" +:+ nl
                +:+ (if v : bool then "Valid puzzle? true" +:+ nl
                     else "Valid puzzle? false" +:+ nl)
                +:+ show_puzzle n (rows n g)
              else
                "Complete puzzle? false." +:+ nl
                +:+ show_puzzle n (rows n g)
                +:+ "Solve result: " +:+ nl
                +:+ show_puzzle n (rows n g5),
              EXIT_SUCCESS).
Proof.
  intros Hread Hn Hwf.
  destruct (passes_spec 5 n g Hwf) as (g5 & Hpasses & Hwf5 & _).
  exists (all_complete n g (threads_of n)), (all_valid n g (threads_of n)), g5.
  split; [by apply checkPuzzle_spec|]. split; [done|].
  rewrite main_two_args, Hread. cbn [mbind option_bind].
  rewrite checkPuzzle_spec by done. cbn [mbind option_bind].
  destruct (all_complete n g (threads_of n)); cbn [mbind option_bind].
  - rewrite (printSudokuPuzzle_spec n g _ Hwf). cbn [mbind option_bind].
    by rewrite !string_app_assoc.
  - rewrite (printSudokuPuzzle_spec n g _ Hwf). cbn [mbind option_bind].
    rewrite Hpasses. cbn [mbind option_bind].
    rewrite (printSudokuPuzzle_spec n g5 _ Hwf5). cbn [mbind option_bind].
    by rewrite !string_app_assoc.
Qed.

Lemma holds_puzzle_read (fs : string → option string) (f content : string)
    (n : Z) (rws : list (list Z)) :
  fs f = Some content → holds_puzzle content n rws →
  0 ≤ n ∧ readSudokuPuzzle fs f = Some (Returns (n, puzzle rws))
  ∧ rows n (puzzle rws) = rws.
Proof.
  intros Hf. unfold holds_puzzle. rewrite !andb_True, forallb_True.
  intros [[[Hn%bool_decide_unpack Hlen%bool_decide_unpack] Hrows]
            Hscan%bool_decide_unpack].
  assert (Forall (λ row, length row = Z.to_nat n) rws) as Hrows'.
  { eapply Forall_impl; [exact Hrows|]. intros row Hrow.
    by apply bool_decide_unpack in Hrow. }
  split; [lia|]. split; [by apply (readSudokuPuzzle_rows _ _ content)|].
  apply list_eq. intros i. unfold rows. rewrite list_lookup_fmap.
  destruct (decide (i < Z.to_nat n)%nat) as [Hi|Hi].
  - rewrite lookup_seqZ_lt by lia. simpl.
    destruct (lookup_lt_is_Some_2 rws i) as [row Hrow]; [lia|].
    rewrite Hrow. f_equal. apply list_eq. intros j.
    rewrite Forall_forall in Hrows'.
    pose proof (Hrows' row (list_elem_of_lookup_2 _ _ _ Hrow)) as Hlenrow.
    destruct (decide (j < Z.to_nat n)%nat) as [Hj|Hj].
    + rewrite row_unit_lookup by lia.
      destruct (lookup_lt_is_Some_2 row j) as [v Hv]; [lia|].
      rewrite Hv. f_equal. apply cell_value. unfold cell.
      rewrite puzzle_fmap.
      rewrite (proj2 (zload_Some _ (1 + Z.of_nat i) (0 :: row))).
      * simpl. apply zload_Some. split; [lia|].
        replace (Z.to_nat (1 + Z.of_nat j)) with (S j) by lia. done.
      * split; [lia|].
        replace (Z.to_nat (1 + Z.of_nat i)) with (S i) by lia. simpl.
        by rewrite list_lookup_fmap, Hrow.
    + rewrite !(proj2 (lookup_ge_None _ _)); [done | lia|].
      rewrite length_row_unit. lia.
  - rewrite !(proj2 (lookup_ge_None _ _)); [done | lia|].
    rewrite length_seqZ. lia.
Qed.

(** X16. The program on a file that holds a fully filled puzzle.  If the
    file named on the command line holds the size N and N rows of N digits
    of 1..N, [main] prints the line "Complete puzzle? true", then "Valid
    puzzle? true" if no row, column or (for N a perfect square above 1)
    subgrid repeats a digit and "Valid puzzle? false" otherwise, then the
    puzzle as it was read, and returns [EXIT_SUCCESS]; the filler is not
    run. *)
Theorem X16_main_filled_puzzle (fs : string → option string)
    (prog f content : string) (n : Z) (rws : list (list Z)) :
  fs f = Some content → holds_puzzle content n rws →
  fully_filled n (puzzle rws) →
  main fs [prog; f]
  = Some ("Complete puzzle? true" +:+ nl
          +:+ (if sudoku_rules n (puzzle rws)
               then "Valid puzzle? true" +:+ nl
               else "Valid puzzle? false" +:+ nl)
          +:+ show_puzzle n rws,
          EXIT_SUCCESS).
Proof.
  intros Hf Hholds Hfull.
  destruct (holds_puzzle_read fs f content n rws Hf Hholds)
    as (Hn & Hread & Hrows).
  rewrite main_two_args, Hread. cbn [mbind option_bind].
  rewrite checkPuzzle_filled by done. cbn [mbind option_bind].
  rewrite (printSudokuPuzzle_spec n _ _ Hfull), Hrows.
  cbn [mbind option_bind]. by rewrite !string_app_assoc.
Qed.

Lemma X16_witness :
  main (one_file "p.txt" ("2" +:+ nl +:+ "1 2" +:+ nl +:+ "2 2" +:+ nl))
    ["sudoku"; "p.txt"]
  = Some ("Complete puzzle? true" +:+ nl
          +:+ (if sudoku_rules 2 (puzzle [[1; 2]; [2; 2]])
               then "Valid puzzle? true" +:+ nl
               else "Valid puzzle? false" +:+ nl)
          +:+ show_puzzle 2 [[1; 2]; [2; 2]],
          EXIT_SUCCESS).
Proof.
  apply (X16_main_filled_puzzle _ _ _
           ("2" +:+ nl +:+ "1 2" +:+ nl +:+ "2 2" +:+ nl));
    [reflexivity | by vm_compute | by vm_compute].
Defined.

(** X17. The program on a file that holds a puzzle of the data model (the
    size N ≥ 0 and N rows of N cells, each 0 or a digit of 1..N).  [main]
    has a defined behaviour and returns [EXIT_SUCCESS].  If [checkPuzzle]
    reports the puzzle complete, it prints the verdict on validity and the
    puzzle as read.  Otherwise it prints no verdict on validity: it prints
    the puzzle as read and, under "Solve result: ", the grid left by five
    passes of the filler, which keeps every filled cell of the puzzle and
    agrees with every Latin-square completion of the puzzle. *)
Theorem X17_main_data_model_puzzle (fs : string → option string)
    (prog f content : string) (n : Z) (rws : list (list Z)) :
  fs f = Some content → holds_puzzle content n rws →
  well_formed n (puzzle rws) →
  ∃ c v g5,
    checkPuzzle n (puzzle rws) = Some (puzzle rws, c, v)
    ∧ passes 5 n (puzzle rws) = Some g5
    ∧ well_formed n g5
    ∧ (∀ r c, cell (puzzle rws) r c ≠ Some 0 →
              cell g5 r c = cell (puzzle rws) r c)
    ∧ (∀ sol, latin_square n sol → agrees n (puzzle rws) sol →
              agrees n g5 sol)
    ∧ main fs [prog; f]
      = Some (if c : bool then
                "Complete puzzle? true" +:+ nl
                +:+ (if v : bool then "Valid puzzle? true" +:+ nl
                     else "Valid puzzle? false" +:+ nl)
                +:+ show_puzzle n rws
              else
                "Complete puzzle? false." +:+ nl
                +:+ show_puzzle n rws
                +:+ "Solve result: " +:+ nl
                +:+ show_puzzle n (rows n g5),
              EXIT_SUCCESS).
Proof.
  intros Hf Hholds Hwf.
  destruct (holds_puzzle_read fs f content n rws Hf Hholds)
    as (Hn & Hread & Hrows).
  destruct (main_well_formed fs prog f n (puzzle rws) Hread Hn Hwf)
    as (c & v & g5 & Hcheck & Hpasses & Hmain).
  destruct (passes_spec 5 n (puzzle rws) Hwf)
    as (g5' & Hpasses' & Hwf5 & Hkeep & Hsound & _).
  rewrite Hpasses in Hpasses'. injection Hpasses' as <-.
  exists c, v, g5. rewrite Hrows in Hmain. done.
Qed.

Lemma X17_witness :
  ∃ c v g5,
    checkPuzzle 3 (puzzle [[1;0;0];[0;0;0];[0;0;2]])
    = Some (puzzle [[1;0;0];[0;0;0];[0;0;2]], c, v)
    ∧ passes 5 3 (puzzle [[1;0;0];[0;0;0];[0;0;2]]) = Some g5
    ∧ main (one_file "p.txt"
              ("3" +:+ nl +:+ "1 0 0" +:+ nl +:+ "0 0 0" +:+ nl
               +:+ "0 0 2" +:+ nl))
        ["sudoku"; "p.txt"]
      = Some (if c : bool then
                "Complete puzzle? true" +:+ nl
                +:+ (if v : bool then "Valid puzzle? true" +:+ nl
                     else "Valid puzzle? false" +:+ nl)
                +:+ show_puzzle 3 [[1;0;0];[0;0;0];[0;0;2]]
              else
                "Complete puzzle? false." +:+ nl
                +:+ show_puzzle 3 [[1;0;0];[0;0;0];[0;0;2]]
                +:+ "Solve result: " +:+ nl
                +:+ show_puzzle 3 (rows 3 g5),
              EXIT_SUCCESS).
Proof.
  destruct (X17_main_data_model_puzzle
              (one_file "p.txt"
                 ("3" +:+ nl +:+ "1 0 0" +:+ nl +:+ "0 0 0" +:+ nl
                  +:+ "0 0 2" +:+ nl))
              "sudoku" "p.txt"
              ("3" +:+ nl +:+ "1 0 0" +:+ nl +:+ "0 0 0" +:+ nl
               +:+ "0 0 2" +:+ nl)
              3 [[1;0;0];[0;0;0];[0;0;2]])
    as (c & v & g5 & Hcheck & Hpasses & _ & _ & _ & Hmain);
    [reflexivity | by vm_compute | by vm_compute |].
  exists c, v, g5. split; [exact Hcheck|]. split; [exact Hpasses|].
  exact Hmain.
Defined.

(** The runs that end with [EXIT_FAILURE]. *)
Lemma main_exit_failure (fs : string → option string)
    (argv : list string) (out : string) :
  main fs argv = Some (out, EXIT_FAILURE)
  ↔ (length argv ≠ 2%nat ∧ out = "Usage: ./sudoku puzzle.txt" +:+ nl)
    ∨ (∃ prog f, argv = [prog; f] ∧ fs f = None
                 ∧ out = "Could not open file " +:+ f +:+ nl).
Proof.
  unfold main. destruct (decide (Z.of_nat (length argv) ≠ 2)) as [Hne|Heq].
  - split.
    + intros [= <-]. left. split; [lia | done].
    + intros [[_ ->] | (prog & f & -> & _)]; [done|]. simpl in Hne. lia.
  - destruct argv as [|prog [|f [|x argv]]]; simpl in Heq; try lia.
    cbn [lookup list_lookup mbind option_bind].
    unfold readSudokuPuzzle. destruct (fs f) as [content|] eqn:Hf.
    + split.
      * destruct (scan_int content) as [[psize rest]|];
          cbn [mbind option_bind]; [|done].
        destruct (decide (psize + 1 ≤ INT_MAX)); [|done].
        destruct (for_loop (seqZ 1 psize) _ _) as [rd|];
          cbn [mbind option_bind]; [|done].
        destruct (checkPuzzle psize (agrid rd)) as [[[g1 c] v]|];
          cbn [mbind option_bind]; [|done].
        destruct c; cbn [mbind option_bind].
        -- destruct (printSudokuPuzzle psize g1); [done | done].
        -- destruct (printSudokuPuzzle psize g1);
             cbn [mbind option_bind]; [|done].
           destruct (for_loop (seqZ 0 5) _ g1) as [g2|];
             cbn [mbind option_bind]; [|done].
           destruct (printSudokuPuzzle psize g2); [done | done].
      * intros [[Hlen _] | (prog' & f' & [= -> ->] & Hnone & _)];
          [simpl in Hlen; lia | congruence].
    + cbn [mbind option_bind]. split.
      * intros [= <-]. right. by exists prog, f.
      * by intros [[Hlen _] | (prog' & f' & [= -> ->] & _ & ->)].
Qed.

(** X18. The exit status.  If the command line does not have exactly one
    argument, [main] prints the usage line and returns [EXIT_FAILURE].  If
    it has one and the file named cannot be opened, [main] prints "Could
    not open file" with the name and returns [EXIT_FAILURE].  If the file
    can be opened, every run whose behaviour is defined returns
    [EXIT_SUCCESS]; nothing is said of the files on which the behaviour is
    not defined (a file that does not hold a size and its cells, a negative
    size, a digit above the size). *)
Theorem X18_main_exit_status (fs : string → option string)
    (argv : list string) :
  (length argv ≠ 2%nat →
   main fs argv = Some ("Usage: ./sudoku puzzle.txt" +:+ nl, EXIT_FAILURE))
  ∧ (∀ prog f, argv = [prog; f] → fs f = None →
       main fs argv
       = Some ("Could not open file " +:+ f +:+ nl, EXIT_FAILURE))
  ∧ (∀ prog f content out status,
       argv = [prog; f] → fs f = Some content →
       main fs argv = Some (out, status) → status = EXIT_SUCCESS).
Proof.
  split; [|split].
  - intros Hlen. apply main_exit_failure. by left.
  - intros prog f -> Hf. apply main_exit_failure. right. by exists prog, f.
  - intros prog f content out [|] -> Hf Hrun; [done|].
    apply main_exit_failure in Hrun
      as [[Hlen _] | (prog' & f' & [= -> ->] & Hnone & _)];
      [simpl in Hlen; lia | congruence].
Qed.

Lemma X18_witness :
  let fs := one_file "p.txt" "2 1 2 2 1" in
  let run := default ("", EXIT_FAILURE) (main fs ["sudoku"; "p.txt"]) in
  main fs ["sudoku"]
  = Some ("Usage: ./sudoku puzzle.txt" +:+ nl, EXIT_FAILURE)
  ∧ main fs ["sudoku"; "q.txt"]
    = Some ("Could not open file " +:+ "q.txt" +:+ nl, EXIT_FAILURE)
  ∧ run.2 = EXIT_SUCCESS.
Proof.
  intros fs run. split; [|split].
  - apply (proj1 (X18_main_exit_status fs ["sudoku"])). simpl. lia.
  - apply (proj1 (proj2 (X18_main_exit_status fs ["sudoku"; "q.txt"]))
             "sudoku" "q.txt"); reflexivity.
  - apply (proj2 (proj2 (X18_main_exit_status fs ["sudoku"; "p.txt"]))
             "sudoku" "p.txt" "2 1 2 2 1" run.1 run.2); reflexivity.
Defined.

(** ** Files that do not hold a puzzle *)

Lemma scan_ints_app (a b : nat) (s s1 r : string) (v1 v2 : list Z) :
  scan_ints a s = Some (v1, s1) → scan_ints b s1 = Some (v2, r) →
  scan_ints (a + b) s = Some (v1 ++ v2, r).
Proof.
  revert s v1. induction a as [|a IH]; intros s v1; simpl.
  - by intros [= <- <-].
  - destruct (scan_int s) as [[v s2]|]; simpl; [|done].
    destruct (scan_ints a s2) as [[vs s3]|] eqn:Ha; simpl; [|done].
    intros [= <- <-] Hb. by rewrite (IH s2 vs Ha Hb).
Qed.

(** The loops of the reader return only if every [fscanf] found an
    integer. *)
Lemma read_row_loop_inv (r : Z) (m : nat) :
  ∀ (c0 : Z) (rd0 rd : reader),
    for_loop (seqZ c0 (Z.of_nat m))
      (λ col rd,
         '(v, rest) ← scan_int (stream rd);
         g ← store_cell (agrid rd) r col v;
         Some {| stream := rest; agrid := g |})
      rd0
    = Some rd →
    ∃ vs, scan_ints m (stream rd0) = Some (vs, stream rd).
Proof.
  induction m as [|m IH]; intros c0 rd0 rd.
  - simpl. intros [= <-]. by exists [].
  - rewrite seqZ_succ. cbn [for_loop].
    destruct (scan_int (stream rd0)) as [[v s1]|] eqn:Hscan;
      cbn [mbind option_bind]; [|done].
    destruct (store_cell (agrid rd0) r c0 v) as [g1|];
      cbn [mbind option_bind]; [|done].
    intros (vs & Hvs)%IH. exists (v :: vs). cbn [stream] in Hvs.
    cbn [scan_ints]. rewrite Hscan. cbn [mbind option_bind].
    by rewrite Hvs.
Qed.

Lemma read_rows_loop_inv (n : Z) (k : nat) :
  ∀ (r0 : Z) (rd0 rd : reader),
    for_loop (seqZ r0 (Z.of_nat k))
      (λ row rd,
         g1 ← zstore (agrid rd) row (replicate (Z.to_nat (n + 1)) 0);
         for_loop (seqZ 1 n)
           (λ col rd,
              '(v, rest) ← scan_int (stream rd);
              g ← store_cell (agrid rd) row col v;
              Some {| stream := rest; agrid := g |})
           {| stream := stream rd; agrid := g1 |})
      rd0
    = Some rd →
    ∃ vs, scan_ints (k * Z.to_nat n) (stream rd0) = Some (vs, stream rd).
Proof.
  induction k as [|k IH]; intros r0 rd0 rd.
  - simpl. intros [= <-]. by exists [].
  - rewrite seqZ_succ. cbn [for_loop].
    destruct (zstore (agrid rd0) r0 _) as [g1|]; cbn [mbind option_bind];
      [|done].
    destruct (for_loop (seqZ 1 n) _ _) as [rd1|] eqn:Hrow;
      cbn [mbind option_bind]; [|done].
    assert (seqZ 1 n = seqZ 1 (Z.of_nat (Z.to_nat n))) as Hidx.
    { destruct (decide (0 ≤ n)); [by rewrite Z2Nat.id|].
      by rewrite !seqZ_nil by lia. }
    rewrite Hidx in Hrow.
    apply read_row_loop_inv in Hrow as (v1 & H1). simpl in H1.
    intros (v2 & H2)%IH. exists (v1 ++ v2).
    by apply (scan_ints_app _ _ _ (stream rd1)).
Qed.

(** X19. [readSudokuPuzzle] does not check what [fscanf] returns.  On a
    file that can be opened it never exits, and it has a defined result
    only if the file holds, as [fscanf] reads them, a size N below
    INT_MAX followed by at least N * N integers: on a file that is empty,
    does not start with an integer, or ends before the last cell, the
    size or a cell is used without having been set. *)
Theorem X19_reader_needs_all_cells (fs : string → option string)
    (f content : string) (r : outcome (Z * grid_t)) :
  fs f = Some content → readSudokuPuzzle fs f = Some r →
  ∃ n g vs,
    r = Returns (n, g) ∧ n < INT_MAX
    ∧ scan_vals (S (Z.to_nat n * Z.to_nat n)) content = Some (n :: vs).
Proof.
  intros Hf. unfold readSudokuPuzzle. rewrite Hf.
  destruct (scan_int content) as [[n rest]|] eqn:Hn;
    cbn [mbind option_bind]; [|done].
  destruct (decide (n + 1 ≤ INT_MAX)); [|done].
  destruct (for_loop (seqZ 1 n) _ _) as [rd|] eqn:Hloop;
    cbn [mbind option_bind]; [|done].
  intros [= <-]. exists n, (agrid rd).
  assert (seqZ 1 n = seqZ 1 (Z.of_nat (Z.to_nat n))) as Hidx.
  { destruct (decide (0 ≤ n)); [by rewrite Z2Nat.id|].
    by rewrite !seqZ_nil by lia. }
  rewrite Hidx in Hloop at 1.
  apply read_rows_loop_inv in Hloop as (vs & Hvs). simpl in Hvs.
  exists vs. split; [done|]. split; [lia|].
  unfold scan_vals. simpl. rewrite Hn. simpl. by rewrite Hvs.
Qed.

Lemma X19_witness :
  ∃ n g vs,
    Returns (2, puzzle [[1; 2]; [2; 1]]) = Returns (n, g) ∧ n < INT_MAX
    ∧ scan_vals (S (Z.to_nat n * Z.to_nat n)) "2 1 2 2 1 7"
      = Some (n :: vs).
Proof.
  apply (X19_reader_needs_all_cells (one_file "p.txt" "2 1 2 2 1 7")
           "p.txt" "2 1 2 2 1 7"); reflexivity.
Defined.
